(** * The Markov-chain prioritisation core of ffuf, embedded in Rocq

    The development follows the Go sources [pkg/markov/markov.go],
    [pkg/markov/inputprovider.go] and [pkg/markov/feedback.go]:

    - [Go] collects what the Go runtime and its standard library supply
      ([fmt.Sprintf] verbs, FNV-1a, the visiting order of [range] over a
      map, [sort.Slice], [math/rand]);
    - [Markov] is the Q-learning chain over discretised states together
      with the input-provider adapter that feeds it;
    - [Feedback] is the raw-state chain with its feedback controller (the
      package ffuf carries a copy of both under the names [mMarkovChain]
      and [mFeedbackController], with the same bodies);
    - [Provider] and [Adapter] are the [InputProvider] interface and the
      batch of pending inputs that the adapter keeps behind its mutex,
      [Mock] the provider that the tests use;
    - [Ffuf] is the mutex that package ffuf puts around its copy of the
      raw-state chain.

    Conventions.  Go [int] and [int64] values are integers in [Z]; sums of
    caller-supplied [int64] values wrap around explicitly ([Go.wrap64]),
    whereas counters that grow by one per call are left unbounded (they
    cannot reach 2^63 in a run).  A [float64] is modelled by the exact
    rational it denotes ([Q], compared with [==]); rounding is not
    modelled.  Go maps are [gmap]s; a nil map reference is distinguished
    only where the code tests for it. *)

From Stdlib Require Import ZArith QArith Qfield DecimalString HexadecimalString.
From Stdlib Require Import DecimalZ DecimalPos String Ascii Sorted Permutation.
From Stdlib.Strings Require Import Byte.
From stdpp Require Import gmap strings list fin_maps sorting.
From Stdlib Require Import Floats Lqa.

Local Open Scope Z_scope.

(* ================================================================== *)
(** * Go runtime and standard library                                  *)
(* ================================================================== *)

Module Go.

(** ** [fmt.Sprintf] verbs *)

(** [%d]: decimal digits, with a leading minus sign for negatives. *)
Definition Sprintf_d (z : Z) : string :=
  DecimalString.NilZero.string_of_int (Z.to_int z).

(** Reading a decimal label back as an integer (the inverse of [%d]). *)
Definition Atoi (s : string) : option Z :=
  Z.of_int <$> DecimalString.NilZero.int_of_string s.

(** [%t] *)
Definition Sprintf_t (b : bool) : string :=
  if b then "true" else "false".

(** [%x] of an unsigned value: lower-case hexadecimal digits. *)
Definition Sprintf_x (n : N) : string :=
  HexadecimalString.NilZero.string_of_uint (N.to_hex_uint n).

(** ** Fixed-width integers *)

(** Two's-complement wrap-around of an [int64] result. *)
Definition wrap64 (z : Z) : Z := (z + 2 ^ 63) mod 2 ^ 64 - 2 ^ 63.

(** ** [hash/fnv]: 64-bit FNV-1a *)

Definition offset64 : Z := 14695981039346656037.
Definition prime64 : Z := 1099511628211.

Definition fnv64a_step (h : Z) (b : byte) : Z :=
  (Z.lxor h (Z.of_N (Byte.to_N b)) * prime64) mod 2 ^ 64.

Definition fnv64a (data : list byte) : Z := foldl fnv64a_step offset64 data.

(** ** [float64] as exact rationals *)

(** [x < y] on floats. *)
Definition Qltb (x y : Q) : bool :=
  Qnum x * Z.pos (Qden y) <? Qnum y * Z.pos (Qden x).

(** [float64(n)] for an integer [n]: the integer itself, as it is in the
    program up to 2^53 in size.  Beyond that the program rounds the
    conversion, and it rounds every quotient and sum; the rationals here
    do not.  Where a statement about them would be false of the rounded
    values, it is made about the integer counts behind them or as an
    inequality that rounding keeps. *)
Definition float64 (n : Z) : Q := inject_Z n.

(** [int(f)]: conversion to an integer truncates toward zero. *)
Definition int_of_float (f : Q) : Z := Qnum f ÷ Z.pos (Qden f).

(** ** Unspecified behaviour of the runtime

    The language leaves two things open that the code relies on: the order
    in which [range] visits the entries of a map, and where [sort.Slice]
    (which is not stable) puts elements that compare equal.  A [Runtime]
    fixes one admissible choice of both. *)

(** What [sort.Slice] asks of its [less] argument. *)
Record StrictWeak {A : Type} (less : A → A → bool) : Prop := {
  sw_asym : ∀ x y, less x y = true → less y x = false;
  sw_negtrans : ∀ x y z, less x y = false → less y z = false → less x z = false
}.

Class Runtime := {
  range : ∀ {K : Type} `{Countable K} {V : Type}, gmap K V → list (K * V);
  range_perm : ∀ (K : Type) `{Countable K} (V : Type) (m : gmap K V),
      range m ≡ₚ map_to_list m;
  sort_Slice : ∀ {A : Type}, (A → A → bool) → list A → list A;
  sort_Slice_perm : ∀ (A : Type) (less : A → A → bool) (l : list A),
      sort_Slice less l ≡ₚ l;
  sort_Slice_sorted : ∀ (A : Type) (less : A → A → bool) (l : list A),
      StrictWeak less →
      Sorted (λ a b, less b a = false) (sort_Slice less l)
}.

(** Insertion sort, as [sort.Slice] runs on short slices: an element
    moves left past every element it is [less] than. *)
Fixpoint insert_sorted {A : Type} (less : A → A → bool) (x : A) (l : list A)
  : list A :=
  match l with
  | [] => [x]
  | y :: l' => if less x y then x :: y :: l' else y :: insert_sorted less x l'
  end.

Definition insertion_sort {A : Type} (less : A → A → bool) (l : list A)
  : list A :=
  foldl (λ acc x, insert_sorted less x acc) [] l.

(** ** [math/rand]

    A generator is the stream of 53-bit integers it will hand out together
    with a cursor.  [Float64] divides the next integer by 2^53, so its
    result lies in [0, 1). *)
Record Rand := { source : nat → Z; cursor : nat }.

Definition Float64 (r : Rand) : Q * Rand :=
  ((source r (cursor r) mod 2 ^ 53) # (2 ^ 53),
   {| source := source r; cursor := S (cursor r) |}).

(** ** [strings] and [strconv] *)

(** [strings.Split(s, sep)] for a separator of one character: the pieces
    between its occurrences, one more than there are occurrences. *)
Fixpoint Split (s : string) (sep : ascii) : list string :=
  match s with
  | EmptyString => [EmptyString]
  | String a rest =>
      if Ascii.eqb a sep then EmptyString :: Split rest sep
      else match Split rest sep with
           | piece :: pieces => String a piece :: pieces
           | [] => [String a EmptyString]
           end
  end.

(** The value of [strconv.ParseInt(s, 10, 64)], its error dropped: 0 on a
    syntax error (empty, a lone sign, a character that is no digit), the
    nearest [int64] when the digits are out of range. *)
Definition ParseInt (s : string) : Z :=
  match s with
  | EmptyString => 0
  | String a rest =>
      let neg := Ascii.eqb a "-" in
      let digits := if Ascii.eqb a "+" || neg then rest else s in
      match digits with
      | EmptyString => 0
      | _ =>
          match DecimalString.NilEmpty.uint_of_string digits with
          | None => 0
          | Some d =>
              let un := Z.of_uint d in
              if neg then (if 2 ^ 63 <? un then - 2 ^ 63 else - un)
              else (if 2 ^ 63 <=? un then 2 ^ 63 - 1 else un)
          end
      end
  end.

(** The value of [strconv.ParseBool(s)], its error dropped. *)
Definition ParseBool (s : string) : bool :=
  if decide (s ∈ ["1"; "t"; "T"; "TRUE"; "true"; "True"]%string) then true
  else false.

(** ** Run-time panics *)

Inductive result (A : Type) : Type :=
| Ok (a : A)
| Panic.
Arguments Ok {A} a.
Arguments Panic {A}.

(** ** Mutexes

    A call of a method that takes a lock returns, panics, or never
    returns: [sync.Mutex] and [sync.RWMutex] are not reentrant, and [Lock]
    on a mutex that the caller holds waits for an [Unlock] that the caller
    itself would have to make. *)

Inductive outcome (A : Type) : Type :=
| Returns (a : A)
| Panics
| Blocks.
Arguments Returns {A} a.
Arguments Panics {A}.
Arguments Blocks {A}.

(** The state of a [sync.RWMutex]: free, held by a writer, or held by a
    number of readers. *)
Inductive RWMutex : Type :=
| Free
| Writing
| Reading (others : nat).

End Go.

(* ================================================================== *)
(** * markov.go and inputprovider.go: the Q-learning chain             *)
(* ================================================================== *)

Module Markov.
Import Go.

(** ** States, actions, transitions *)

Record State := {
  CodeClass : string;   (* "2xx", "3xx", "4xx", "5xx" *)
  SizeBucket : string;  (* quantized size of the body *)
  Depth : Z             (* depth of path *)
}.

(** [fmt.Sprintf("%s_%s_%d", ...)]: the key of a state in every map. *)
Definition Hash (s : State) : string :=
  CodeClass s +:+ "_" +:+ SizeBucket s +:+ "_" +:+ Sprintf_d (Depth s).

Record Action := { Token : string }.

(** The field [Action] is [Act] here, the type having taken the name. *)
Record Transition := {
  FromState : State;
  Act : Action;
  ToState : State;
  Reward : Q
}.

Record MarkovChain := {
  QTable : gmap string (gmap string Q);
  TransitionCounts : gmap string (gmap string (gmap string Z));
  ActionCounts : gmap string (gmap string Z);
  StateCounts : gmap string Z;
  AvailableActions : gmap string (list string);
  Alpha : Q;      (* learning rate *)
  Gamma : Q;      (* discount factor *)
  Epsilon : Q;    (* exploration rate *)
  Threshold : Q
}.

Definition NewMarkovChain : MarkovChain := {|
  QTable := ∅;
  TransitionCounts := ∅;
  ActionCounts := ∅;
  StateCounts := ∅;
  AvailableActions := ∅;
  Alpha := 0.1;
  Gamma := 0.9;
  Epsilon := 0.1;
  Threshold := 0.01
|}.

(** ** Size buckets *)

Definition QuantizeSize (size : Z) : string :=
  let size := if size <? 0 then 0 else size in
  if size <? 100 then Sprintf_d (size ÷ 10 * 10)
  else if size <? 1000 then Sprintf_d (size ÷ 100 * 100)
  else if size <? 10000 then Sprintf_d (size ÷ 1000 * 1000)
  else Sprintf_d (size ÷ 10000 * 10000).

Definition quantizeSize (size : Z) : string := QuantizeSize size.

(** ** Content digest *)

Definition GetSizeHash (data : list byte) : string :=
  if decide (length data = 0%nat) then "0"
  else Sprintf_x (Z.to_N (fnv64a data)).

(** ** Helpers on slices of strings *)

Fixpoint containsString (slice : list string) (item : string) : bool :=
  match slice with
  | [] => false
  | s :: rest => if String.eqb s item then true else containsString rest item
  end.

(** [slice[i], slice[j] = slice[j], slice[i]] *)
Definition swap (slice : list string) (i j : nat) : list string :=
  match slice !! i, slice !! j with
  | Some x, Some y => <[i := y]> (<[j := x]> slice)
  | _, _ => slice
  end.

(** The loop of [shuffleStrings], entered with its counter at [i]: it swaps
    position [i] with position [i*31 % len], then goes on with [i-1] until
    the counter reaches 0.  No random source is involved. *)
Fixpoint shuffle_from (i : nat) (slice : list string) : list string :=
  match i with
  | O => slice
  | S i' => shuffle_from i' (swap slice i ((i * 31) `mod` length slice)%nat)
  end.

Definition shuffleStrings (slice : list string) : list string :=
  shuffle_from (length slice - 1) slice.

(** A negative [n] makes the slice expression panic; [n] is a [nat] here. *)
Definition getRandomSubset (slice : list string) (n : nat) : list string :=
  if decide (length slice ≤ n)%nat then slice
  else take n (shuffleStrings slice).

(** ** Updating the chain *)

(** [if _, exists := m[k]; !exists { m[k] = v0 }] *)
Definition ensure `{Countable K} {V : Type} (k : K) (v0 : V) (m : gmap K V)
  : gmap K V :=
  match m !! k with
  | Some _ => m
  | None => <[k := v0]> m
  end.

(** The largest Q-value recorded for the next state, starting from 0.0. *)
Definition maxNextQ `{Runtime} (qt : gmap string (gmap string Q))
    (toStateKey : string) : Q :=
  match qt !! toStateKey with
  | Some nextQs =>
      if decide (0 < size nextQs)%nat then
        foldl (λ mx kv, if Qltb mx kv.2 then kv.2 else mx) 0%Q (range nextQs)
      else 0%Q
  | None => 0%Q
  end.

Definition UpdateTransition `{Runtime} (mc : MarkovChain)
    (transition : Transition) : MarkovChain :=
  let fromStateKey := Hash (FromState transition) in
  let actionKey := Token (Act transition) in
  let toStateKey := Hash (ToState transition) in
  (* Initialize maps if needed *)
  let qt := ensure fromStateKey ∅ (QTable mc) in
  let tc := ensure fromStateKey ∅ (TransitionCounts mc) in
  let ac := ensure fromStateKey ∅ (ActionCounts mc) in
  (* Update action counts *)
  let acRow := default ∅ (ac !! fromStateKey) in
  let ac :=
    <[fromStateKey := <[actionKey := default 0 (acRow !! actionKey) + 1]> acRow]> ac in
  (* Update transition counts *)
  let tcRow := ensure actionKey ∅ (default ∅ (tc !! fromStateKey)) in
  let tcCell := default ∅ (tcRow !! actionKey) in
  let tc :=
    <[fromStateKey :=
        <[actionKey :=
            <[toStateKey := default 0 (tcCell !! toStateKey) + 1]> tcCell]>
          tcRow]> tc in
  (* Update state visit counts *)
  let sc :=
    <[fromStateKey := default 0 (StateCounts mc !! fromStateKey) + 1]>
      (StateCounts mc) in
  (* Q-learning update *)
  let qRow := default ∅ (qt !! fromStateKey) in
  let currentQ := default 0%Q (qRow !! actionKey) in
  let mx := maxNextQ qt toStateKey in
  let newQ :=
    (currentQ + Alpha mc * (Reward transition + Gamma mc * mx - currentQ))%Q in
  let qt := <[fromStateKey := <[actionKey := newQ]> qRow]> qt in
  (* Update available actions if this is a new action for this state *)
  let known := default [] (AvailableActions mc !! fromStateKey) in
  let aa :=
    if containsString known actionKey then AvailableActions mc
    else <[fromStateKey := known ++ [actionKey]]> (AvailableActions mc) in
  {| QTable := qt;
     TransitionCounts := tc;
     ActionCounts := ac;
     StateCounts := sc;
     AvailableActions := aa;
     Alpha := Alpha mc;
     Gamma := Gamma mc;
     Epsilon := Epsilon mc;
     Threshold := Threshold mc |}.

(** ** Reading the chain *)

Definition GetExpectedReward (mc : MarkovChain) (state : State)
    (action : string) : Q :=
  match QTable mc !! Hash state with
  | Some qValues =>
      match qValues !! action with
      | Some qValue => qValue
      | None => 0%Q
      end
  | None => 0%Q
  end.

(** The ranked part of [GetBestActionsForState]: the known actions that
    are in the wordlist, sorted by Q-value, largest first. *)
Definition rankedActions `{Runtime} (qs : gmap string Q)
    (wordlist : list string) : list (string * Q) :=
  sort_Slice (λ x y, Qltb y.2 x.2)
    (filter (λ av, Is_true (containsString wordlist av.1)) (range qs)).

Definition GetBestActionsForState `{Runtime} (mc : MarkovChain)
    (state : State) (wordlist : list string) (n : nat) : list string :=
  let stateKey := Hash state in
  match QTable mc !! stateKey with
  | None =>
      (* seen before or not, the answer is the same *)
      if decide (is_Some (StateCounts mc !! stateKey))
      then getRandomSubset wordlist n
      else getRandomSubset wordlist n
  | Some qs =>
      let actionValues :=
        filter (λ av, Is_true (containsString wordlist av.1)) (range qs) in
      if decide (length actionValues = 0%nat) then getRandomSubset wordlist n
      else
        let sorted := sort_Slice (λ x y, Qltb y.2 x.2) actionValues in
        (* top N actions, or all if fewer than N *)
        let result := take n (sorted.*1) in
        if decide (length result < n)%nat then
          let remaining :=
            filter (λ word, ¬ Is_true (containsString result word)) wordlist in
          result ++ take (n - length result) (shuffleStrings remaining)
        else result
  end.

(** ** inputprovider.go *)

(** The fields of [Response] that the chain reads. *)
Record Response := {
  StatusCode : Z;
  Data : list byte;
  ContentLength : Z;
  ContentWords : Z;
  ContentLines : Z
}.

Definition GetStateFromResponseFromResponseStruct (resp : Response)
    (depth : Z) : State :=
  let codeClass :=
    if (200 <=? StatusCode resp) && (StatusCode resp <? 300) then "2xx"
    else if (300 <=? StatusCode resp) && (StatusCode resp <? 400) then "3xx"
    else if (400 <=? StatusCode resp) && (StatusCode resp <? 500) then "4xx"
    else if (500 <=? StatusCode resp) && (StatusCode resp <? 600) then "5xx"
    else "unknown" in
  {| CodeClass := codeClass;
     SizeBucket := quantizeSize (ContentLength resp);
     Depth := depth |}.

Definition CalculateRewardFromResponseStruct (resp : Response)
    (baselineState : State) (baselineSizeHash : string) : Q :=
  let status := StatusCode resp in
  let reward := 0%Q in
  (* If not a 404, increase reward *)
  let reward :=
    if (status <? 400) || (500 <=? status) || (status =? 401) || (status =? 403)
    then (reward + 1.0)%Q else reward in
  (* If it's a 404, check if it's different from baseline *)
  let reward :=
    if (400 <=? status) && (status <? 500) then
      let currentState :=
        GetStateFromResponseFromResponseStruct resp (Depth baselineState) in
      if negb (String.eqb (Hash currentState) (Hash baselineState)) then
        let currentSizeHash := GetSizeHash (Data resp) in
        if negb (String.eqb currentSizeHash baselineSizeHash)
        then (reward + 0.5)%Q else reward
      else reward
    else (reward + 1.0)%Q in
  (* Prioritize 2xx and 401/403 over other status codes *)
  if (200 <=? status) && (status <? 300) then (reward + 1.0)%Q
  else if (status =? 401) || (status =? 403) then (reward + 0.8)%Q
  else if status =? 404 then reward
  else if (500 <=? status) && (status <? 600) then (reward + 0.6)%Q
  else reward.

(** The fields of the adapter that recording a response touches; the batch
    of pending inputs plays no part in it.  The field [MarkovChain] is
    [Chain] here. *)
Record MarkovInputProvider := {
  Chain : MarkovChain;
  baselineState : State;
  baselineSizeHash : string;
  depth : Z
}.

Definition NewMarkovInputProvider (baselineState : State)
    (baselineSizeHash : string) (depth : Z) : MarkovInputProvider :=
  {| Chain := NewMarkovChain;
     baselineState := baselineState;
     baselineSizeHash := baselineSizeHash;
     depth := depth |}.

Definition SetBaseline (mip : MarkovInputProvider) (st : State)
    (sizeHash : string) : MarkovInputProvider :=
  {| Chain := Chain mip;
     baselineState := st;
     baselineSizeHash := sizeHash;
     depth := depth mip |}.

Definition AddTransition `{Runtime} (mip : MarkovInputProvider)
    (fromState : State) (action : string) (toState : State) (reward : Q)
  : MarkovInputProvider :=
  let transition :=
    {| FromState := fromState;
       Act := {| Token := action |};
       ToState := toState;
       Reward := reward |} in
  {| Chain := UpdateTransition (Chain mip) transition;
     baselineState := baselineState mip;
     baselineSizeHash := baselineSizeHash mip;
     depth := depth mip |}.

(** The loop over [inputs] stops at the key "FUZZ"; keys are unique, so it
    is a lookup, and the action stays the empty string without that key. *)
Definition UpdateWithResponse `{Runtime} (mip : MarkovInputProvider)
    (inputs : gmap string (list byte)) (resp : Response)
  : MarkovInputProvider :=
  let currentState := GetStateFromResponseFromResponseStruct resp (depth mip) in
  let actionValue :=
    match inputs !! "FUZZ" with
    | Some value => string_of_list_byte value
    | None => ""
    end in
  let reward :=
    CalculateRewardFromResponseStruct resp (baselineState mip)
      (baselineSizeHash mip) in
  (* the baseline state stands in for the previous state *)
  let previousState := baselineState mip in
  AddTransition mip previousState actionValue currentState reward.

End Markov.

(* ================================================================== *)
(** * feedback.go: the raw-state chain and its feedback controller     *)
(* ================================================================== *)

Module Feedback.
Import Go.

(** ** The chain over raw response states *)

Record State := {
  StatusCode : Z;
  ContentLength : Z;
  ContentWords : Z;
  ContentLines : Z;
  Duration : Z;       (* time.Duration: nanoseconds *)
  IsMatch : bool
}.

(** [Duration.Milliseconds] *)
Definition Milliseconds (d : Z) : Z := d ÷ 1000000.

(** [State.String]: [fmt.Sprintf("%d_%d_%d_%d_%d_%t", ...)], the map key. *)
Definition State_String (s : State) : string :=
  Sprintf_d (StatusCode s) +:+ "_" +:+
  Sprintf_d (ContentLength s) +:+ "_" +:+
  Sprintf_d (ContentWords s) +:+ "_" +:+
  Sprintf_d (ContentLines s) +:+ "_" +:+
  Sprintf_d (Milliseconds (Duration s)) +:+ "_" +:+
  Sprintf_t (IsMatch s).

Record MarkovChain := {
  Transitions : gmap string (gmap string Q);
  StateCounts : gmap string (gmap string Z);
  CurrentState : State;
  History : list State;
  rand : Rand
}.

Definition zeroState : State := {|
  StatusCode := 0; ContentLength := 0; ContentWords := 0;
  ContentLines := 0; Duration := 0; IsMatch := false
|}.

Definition NewMarkovChain (seed : Rand) : MarkovChain := {|
  Transitions := ∅;
  StateCounts := ∅;
  CurrentState := zeroState;
  History := [];
  rand := seed
|}.

(** Recalculates the transition probabilities out of one state. *)
Definition updateProbabilities `{Runtime} (mc : MarkovChain)
    (currentState : string) : MarkovChain :=
  let counts := default ∅ (StateCounts mc !! currentState) in
  let total := foldl (λ total kv, total + kv.2) 0 (range counts) in
  if decide (total = 0) then mc
  else
    (* Initialize transitions map for this state if needed *)
    let row := default ∅ (Transitions mc !! currentState) in
    (* Calculate probabilities *)
    let row :=
      foldl (λ row kv, <[kv.1 := (float64 kv.2 / float64 total)%Q]> row)
            row (range counts) in
    {| Transitions := <[currentState := row]> (Transitions mc);
       StateCounts := StateCounts mc;
       CurrentState := CurrentState mc;
       History := History mc;
       rand := rand mc |}.

Definition UpdateTransition `{Runtime} (mc : MarkovChain)
    (currentState nextState : State) : MarkovChain :=
  let currentStr := State_String currentState in
  let nextStr := State_String nextState in
  let row := default ∅ (StateCounts mc !! currentStr) in
  (* Increment the count for this transition *)
  let row := <[nextStr := default 0 (row !! nextStr) + 1]> row in
  updateProbabilities
    {| Transitions := Transitions mc;
       StateCounts := <[currentStr := row]> (StateCounts mc);
       CurrentState := CurrentState mc;
       History := History mc;
       rand := rand mc |}
    currentStr.

Definition UpdateChain `{Runtime} (mc : MarkovChain) (newState : State)
  : MarkovChain :=
  let mc :=
    match last (History mc) with
    | Some prevState => UpdateTransition mc prevState newState
    | None => mc
    end in
  {| Transitions := Transitions mc;
     StateCounts := StateCounts mc;
     CurrentState := newState;
     History := History mc ++ [newState];
     rand := rand mc |}.

Definition GetTransitionProbability (mc : MarkovChain)
    (fromState toState : State) : Q :=
  match Transitions mc !! State_String fromState with
  | None => 0%Q
  | Some transitions =>
      match transitions !! State_String toState with
      | None => 0%Q
      | Some prob => prob
      end
  end.

(** [StringToState]: a key read back as a state; a key of fewer than six
    pieces gives the zero state, and what does not parse gives zeros. *)
Definition StringToState (stateStr : string) : State :=
  match Split stateStr "_" with
  | p0 :: p1 :: p2 :: p3 :: p4 :: p5 :: _ =>
      {| StatusCode := ParseInt p0;
         ContentLength := ParseInt p1;
         ContentWords := ParseInt p2;
         ContentLines := ParseInt p3;
         (* time.Duration(durationMs) * time.Millisecond *)
         Duration := wrap64 (ParseInt p4 * 1000000);
         IsMatch := ParseBool p5 |}
  | _ => zeroState
  end.

(** [GetNextState]: a successor of the current state, drawn along the
    cumulative probabilities; the current state itself when it has no
    recorded successor.  The chain comes back with its generator moved.
    The fallback is a second [range] loop, which may visit the entries in
    another order than the first: [again] is the runtime's choice for it. *)
Definition GetNextState (again : Runtime) `{Runtime} (mc : MarkovChain)
  : State * MarkovChain :=
  let currentStr := State_String (CurrentState mc) in
  match Transitions mc !! currentStr with
  | None => (CurrentState mc, mc)
  | Some transitions =>
      if decide (size transitions = 0%nat) then (CurrentState mc, mc)
      else
        let '(randVal, r) := Float64 (rand mc) in
        let mc' :=
          {| Transitions := Transitions mc;
             StateCounts := StateCounts mc;
             CurrentState := CurrentState mc;
             History := History mc;
             rand := r |} in
        (* the loop over the cumulative probabilities, left at the first hit *)
        let scan :=
          foldl (λ acc kv,
                   match acc.2 with
                   | Some _ => acc
                   | None =>
                       let cumulative := (acc.1 + kv.2)%Q in
                       if Qle_bool randVal cumulative
                       then (cumulative, Some (StringToState kv.1))
                       else (cumulative, None)
                   end)
                (0%Q, None) (range transitions) in
        match scan.2 with
        | Some next => (next, mc')
        | None =>
            (* Fallback: the first state that a new iteration yields *)
            match @range again _ _ _ _ transitions with
            | kv :: _ => (StringToState kv.1, mc')
            | [] => (CurrentState mc, mc')
            end
        end
  end.

(** ** The feedback controller *)

(** The fields of a response carry an [R], those of [State] having taken
    the plain names. *)
Record Response := {
  RStatusCode : Z;
  RContentLength : Z;
  RContentWords : Z;
  RContentLines : Z;
  RDuration : Z
}.

(** A [map[string][]byte] reference; [None] is the nil map. *)
Abbreviation Inputs := (option (gmap string (list byte))).

Record FeedbackController := {
  chain : MarkovChain;
  matchedInputs : list Inputs;
  responseHistory : list State;
  maxHistory : Z
}.

Definition NewFeedbackController (seed : Rand) : FeedbackController := {|
  chain := NewMarkovChain seed;
  matchedInputs := [];
  responseHistory := [];
  maxHistory := 100
|}.

Definition UpdateWithResponse `{Runtime} (fc : FeedbackController)
    (resp : Response) (isMatch : bool) : FeedbackController :=
  let state :=
    {| StatusCode := RStatusCode resp;
       ContentLength := RContentLength resp;
       ContentWords := RContentWords resp;
       ContentLines := RContentLines resp;
       Duration := RDuration resp;
       IsMatch := isMatch |} in
  (* Update the Markov chain *)
  let chain' := UpdateChain (chain fc) state in
  (* Add to response history *)
  let history := responseHistory fc ++ [state] in
  let history :=
    if decide (maxHistory fc < Z.of_nat (length history))
    then drop 1 history else history in
  {| chain := chain';
     matchedInputs := matchedInputs fc;
     responseHistory := history;
     maxHistory := maxHistory fc |}.

Definition UpdateWithMatchedInput (fc : FeedbackController) (input : Inputs)
  : FeedbackController :=
  let matched := matchedInputs fc ++ [input] in
  let matched :=
    if decide (100 < Z.of_nat (length matched)) then drop 1 matched
    else matched in
  {| chain := chain fc;
     matchedInputs := matched;
     responseHistory := responseHistory fc;
     maxHistory := maxHistory fc |}.

(** *** Selecting the next input

    The methods below read the controller and draw from its generator; they
    are written in a monad that threads the controller and stops at a
    panic. *)

Definition M (A : Type) : Type :=
  FeedbackController → result (A * FeedbackController).

Definition ret {A} (a : A) : M A := λ fc, Ok (a, fc).

Definition bind {A B} (m : M A) (k : A → M B) : M B :=
  λ fc, match m fc with
        | Ok (a, fc') => k a fc'
        | Panic => Panic
        end.

Notation "'let*' x ':=' m 'in' k" := (bind m (λ x, k))
  (at level 10, x name, m at level 100, k at level 200).

Definition get : M FeedbackController := λ fc, Ok (fc, fc).

Definition panic {A} : M A := λ _, Panic.

(** [fc.chain.rand.Float64()] *)
Definition draw : M Q :=
  λ fc,
    let '(u, r) := Float64 (rand (chain fc)) in
    Ok (u,
        {| chain :=
             {| Transitions := Transitions (chain fc);
                StateCounts := StateCounts (chain fc);
                CurrentState := CurrentState (chain fc);
                History := History (chain fc);
                rand := r |};
           matchedInputs := matchedInputs fc;
           responseHistory := responseHistory fc;
           maxHistory := maxHistory fc |}).

(** [slice[i]], which panics outside the slice. *)
Definition index {A} (slice : list A) (i : Z) : M A :=
  if decide (0 ≤ i) then
    match slice !! Z.to_nat i with
    | Some a => ret a
    | None => panic
    end
  else panic.

Definition getBaseInput (baseInputProvider_Value : Inputs) : M Inputs :=
  ret baseInputProvider_Value.

Definition getProbabilityOfMatchTransition (fc : FeedbackController)
    (fromState : State) : Q :=
  foldl (λ prob historyState,
           if IsMatch historyState
           then (prob + GetTransitionProbability (chain fc) fromState historyState)%Q
           else prob)
        0%Q (responseHistory fc).

Definition shouldUseMatchedInput : M bool :=
  let* fc := get in
  if decide (Z.of_nat (length (responseHistory fc)) < 2) then
    ret (bool_decide (0 < Z.of_nat (length (matchedInputs fc))))
  else
    let* previousState :=
      index (responseHistory fc) (Z.of_nat (length (responseHistory fc)) - 1) in
    let matchProb := getProbabilityOfMatchTransition fc previousState in
    let* u := draw in
    ret (Qltb u (matchProb * 0.8)%Q).

(** An index biased toward the end of the slice. *)
Definition getWeightedIndex (length : Z) : M Z :=
  if decide (length ≤ 0) then ret 0
  else
    let* u := draw in
    let randVal := (u * u)%Q in     (* math.Pow(u, 2) *)
    ret (int_of_float (randVal * float64 (length - 1))%Q).

Definition selectFromMatchedInputs : M Inputs :=
  let* fc := get in
  if decide (length (matchedInputs fc) = 0%nat) then ret None
  else
    let* weightedIndex := getWeightedIndex (Z.of_nat (length (matchedInputs fc))) in
    index (matchedInputs fc) weightedIndex.

Definition selectAndModifyInput (baseInput : Inputs) : M Inputs :=
  let* selectedInput := selectFromMatchedInputs in
  match selectedInput with
  | None => ret baseInput
  | Some _ => ret selectedInput
  end.

(** [baseInputProvider_Value] is what the provider's [Value()] returns. *)
Definition GetNextInput (baseInputProvider_Value : Inputs) : M (Inputs * bool) :=
  let* fc := get in
  if decide (0 < Z.of_nat (length (matchedInputs fc))) then
    let* use := shouldUseMatchedInput in
    if use then
      let* originalInput := getBaseInput baseInputProvider_Value in
      let* modifiedInput := selectAndModifyInput originalInput in
      ret (modifiedInput, true)
    else ret (None, false)
  else ret (None, false).

(** *** The analysis rollup *)

Record statusCodeCount := { Code : Z; Count : Z }.

(** The values stored in the [map[string]interface{}] result. *)
Inductive Value :=
| VFloat (f : Q)
| VInt (n : Z)
| VCodes (l : list statusCodeCount).

(** The accumulators of the loop over the history. *)
Record Totals := {
  totalStatusCodes : Z;
  totalContentLength : Z;
  totalContentWords : Z;
  totalContentLines : Z;
  totalDuration : Z;
  matchCount : Z;
  statusCodes : gmap Z Z
}.

Definition totals0 : Totals := {|
  totalStatusCodes := 0; totalContentLength := 0; totalContentWords := 0;
  totalContentLines := 0; totalDuration := 0; matchCount := 0;
  statusCodes := ∅
|}.

Definition accumulate (t : Totals) (state : State) : Totals := {|
  totalStatusCodes := wrap64 (totalStatusCodes t + StatusCode state);
  totalContentLength := wrap64 (totalContentLength t + ContentLength state);
  totalContentWords := wrap64 (totalContentWords t + ContentWords state);
  totalContentLines := wrap64 (totalContentLines t + ContentLines state);
  totalDuration := wrap64 (totalDuration t + Duration state);
  matchCount := if IsMatch state then matchCount t + 1 else matchCount t;
  statusCodes :=
    <[StatusCode state := default 0 (statusCodes t !! StatusCode state) + 1]>
      (statusCodes t)
|}.

Definition AnalyzeResponsePatterns `{Runtime} (fc : FeedbackController)
  : gmap string Value :=
  let history := responseHistory fc in
  if decide (length history = 0%nat) then ∅
  else
    let n := float64 (Z.of_nat (length history)) in
    let t := foldl accumulate totals0 history in
    let statusCodeList :=
      (λ kv, {| Code := kv.1; Count := kv.2 |}) <$> range (statusCodes t) in
    (* Sort by count descending *)
    let statusCodeList :=
      sort_Slice (λ x y, Count y <? Count x) statusCodeList in
    let top :=
      take (Z.to_nat (Z.min 5 (Z.of_nat (length statusCodeList))))
           statusCodeList in
    <["top_status_codes" := VCodes top]> (
    <["total_matches" := VInt (matchCount t)]> (
    <["total_responses" := VInt (Z.of_nat (length history))]> (
    <["match_rate" := VFloat (float64 (matchCount t) / n)%Q]> (
    <["avg_duration_ns" := VFloat (float64 (totalDuration t) / n)%Q]> (
    <["avg_content_lines" := VFloat (float64 (totalContentLines t) / n)%Q]> (
    <["avg_content_words" := VFloat (float64 (totalContentWords t) / n)%Q]> (
    <["avg_content_length" := VFloat (float64 (totalContentLength t) / n)%Q]> (
    <["avg_status_code" := VFloat (float64 (totalStatusCodes t) / n)%Q]> ∅)))))))).

End Feedback.

(* ================================================================== *)
(** * inputprovider.go: the batch of pending inputs                     *)
(* ================================================================== *)

(** ** The [InputProvider] interface

    A method call may change the provider behind the interface: every
    method takes the provider's state and hands the new one back. *)

Module Provider.

Class InputProvider (P : Type) := {
  Next : P → bool * P;
  Value : P → option (gmap string (list byte)) * P;
  Position : P → Z * P;
  SetPosition : P → Z → P;
  Keywords : P → list string * P;
  ActivateKeywords : P → list string → P;
  Reset : P → P;
  Total : P → Z * P
}.

End Provider.

(** ** The adapter's batch

    [MarkovInputProvider] with all its fields.  The fields that recording a
    response touches are those of [Markov.MarkovInputProvider], kept here
    as [learner]; [OriginalProvider] is [None] for a nil interface, and
    [mutex] tells whether the [sync.Mutex] is held. *)

Module Adapter.
Import Go.

Record MarkovInputProvider (P : Type) := {
  OriginalProvider : option P;
  learner : Markov.MarkovInputProvider;
  previousInputs : gmap string (list byte);
  currentBatch : list (gmap string (list byte));
  currentIndex : Z;
  batchSize : Z;
  mutex : bool
}.
Arguments OriginalProvider {P} _.
Arguments learner {P} _.
Arguments previousInputs {P} _.
Arguments currentBatch {P} _.
Arguments currentIndex {P} _.
Arguments batchSize {P} _.
Arguments mutex {P} _.

Definition NewMarkovInputProvider {P} (original : option P)
    (baselineState : Markov.State) (baselineSizeHash : string) (depth : Z)
  : MarkovInputProvider P :=
  {| OriginalProvider := original;
     learner := Markov.NewMarkovInputProvider baselineState baselineSizeHash depth;
     previousInputs := ∅;
     currentBatch := [];
     currentIndex := 0;
     batchSize := 100;
     mutex := false |}.

Definition M (P A : Type) : Type :=
  MarkovInputProvider P → outcome (A * MarkovInputProvider P).

Definition with_mutex {P} (mip : MarkovInputProvider P) (held : bool)
  : MarkovInputProvider P :=
  {| OriginalProvider := OriginalProvider mip;
     learner := learner mip;
     previousInputs := previousInputs mip;
     currentBatch := currentBatch mip;
     currentIndex := currentIndex mip;
     batchSize := batchSize mip;
     mutex := held |}.

Definition with_provider {P} (mip : MarkovInputProvider P) (p : option P)
  : MarkovInputProvider P :=
  {| OriginalProvider := p;
     learner := learner mip;
     previousInputs := previousInputs mip;
     currentBatch := currentBatch mip;
     currentIndex := currentIndex mip;
     batchSize := batchSize mip;
     mutex := mutex mip |}.

Definition with_index {P} (mip : MarkovInputProvider P) (index : Z)
  : MarkovInputProvider P :=
  {| OriginalProvider := OriginalProvider mip;
     learner := learner mip;
     previousInputs := previousInputs mip;
     currentBatch := currentBatch mip;
     currentIndex := index;
     batchSize := batchSize mip;
     mutex := mutex mip |}.

Definition with_batch {P} (mip : MarkovInputProvider P)
    (batch : list (gmap string (list byte))) : MarkovInputProvider P :=
  {| OriginalProvider := OriginalProvider mip;
     learner := learner mip;
     previousInputs := previousInputs mip;
     currentBatch := batch;
     currentIndex := currentIndex mip;
     batchSize := batchSize mip;
     mutex := mutex mip |}.

Definition with_previous {P} (mip : MarkovInputProvider P)
    (previous : gmap string (list byte)) : MarkovInputProvider P :=
  {| OriginalProvider := OriginalProvider mip;
     learner := learner mip;
     previousInputs := previous;
     currentBatch := currentBatch mip;
     currentIndex := currentIndex mip;
     batchSize := batchSize mip;
     mutex := mutex mip |}.

(** [mip.mutex.Lock(); defer mip.mutex.Unlock()] in front of a body. *)
Definition locked {P A} (body : M P A) : M P A :=
  λ mip,
    if mutex mip then Blocks
    else
      match body (with_mutex mip true) with
      | Returns (a, mip') => Returns (a, with_mutex mip' false)
      | Panics => Panics
      | Blocks => Blocks
      end.

(** The loop [for k, v := range src { dst[k] = make([]byte, len(v));
    copy(dst[k], v) }]; over a nil map it runs no round. *)
Definition copyInto `{Runtime} (dst : gmap string (list byte))
    (src : option (gmap string (list byte))) : gmap string (list byte) :=
  foldl (λ dst kv, <[kv.1 := kv.2]> dst) dst (range (default ∅ src)).

Section Methods.
Context `{Runtime} {P : Type} `{Provider.InputProvider P}.

(** The loop that fills the batch; [room] is what [batchSize] leaves.
    The provider's [Next] is not asked once the batch is full. *)
Fixpoint fill (room : nat) (p : P) (batch : list (gmap string (list byte)))
  : P * list (gmap string (list byte)) :=
  match room with
  | O => (p, batch)
  | S room =>
      let '(more, p) := Provider.Next p in
      if more then
        let '(originalInputs, p) := Provider.Value p in
        fill room p (batch ++ [copyInto ∅ originalInputs])
      else (p, batch)
  end.

Definition RefreshBatch : M P unit :=
  locked (λ mip,
    match OriginalProvider mip with
    | None => Panics
    | Some p =>
        (* Reset original provider to start fresh *)
        let p := Provider.Reset p in
        (* Fill the current batch with inputs *)
        let '(p, batch) := fill (Z.to_nat (batchSize mip)) p [] in
        (* Reset position again to start fresh *)
        let p := Provider.Reset p in
        Returns (tt, with_provider (with_batch (with_index mip 0) batch)
                       (Some p))
    end).

Definition Next : M P bool :=
  locked (λ mip,
    (* If we have more items in the current batch, use them *)
    if decide (currentIndex mip < Z.of_nat (length (currentBatch mip))) then
      Returns (true, with_index mip (currentIndex mip + 1))
    else
      match RefreshBatch (with_index mip 0) with
      | Returns (_, mip) =>
          if decide (0 < Z.of_nat (length (currentBatch mip))) then
            Returns (true, with_index mip 1)
          else
            match OriginalProvider mip with
            | Some p =>
                let '(more, p) := Provider.Next p in
                Returns (more, with_provider mip (Some p))
            | None => Returns (false, mip)
            end
      | Panics => Panics
      | Blocks => Blocks
      end).

(** [Value] returns the map of the batch itself, not a copy of it. *)
Definition Value : M P (gmap string (list byte)) :=
  locked (λ mip,
    if decide (0 < currentIndex mip
               ∧ currentIndex mip ≤ Z.of_nat (length (currentBatch mip))) then
      match currentBatch mip !! Z.to_nat (currentIndex mip - 1) with
      | Some inputs =>
          (* Store the inputs for potential next transition *)
          Returns (inputs,
                   with_previous mip
                     (copyInto (previousInputs mip) (Some inputs)))
      | None => Panics
      end
    else
      match OriginalProvider mip with
      | Some p =>
          let '(originalInputs, p) := Provider.Value p in
          Returns (copyInto ∅ originalInputs, with_provider mip (Some p))
      | None => Returns (∅, mip)
      end).

Definition Position : M P Z :=
  λ mip,
    match OriginalProvider mip with
    | Some p =>
        let '(pos, p) := Provider.Position p in
        Returns (pos, with_provider mip (Some p))
    | None => Returns (0, mip)
    end.

Definition SetPosition (pos : Z) : M P unit :=
  locked (λ mip,
    let mip :=
      match OriginalProvider mip with
      | Some p => with_provider mip (Some (Provider.SetPosition p pos))
      | None => mip
      end in
    Returns (tt, with_batch (with_index mip 0) [])).

Definition Keywords : M P (list string) :=
  λ mip,
    match OriginalProvider mip with
    | Some p =>
        let '(kws, p) := Provider.Keywords p in
        Returns (kws, with_provider mip (Some p))
    | None => Returns ([], mip)
    end.

Definition ActivateKeywords (kws : list string) : M P unit :=
  λ mip,
    match OriginalProvider mip with
    | Some p =>
        Returns (tt, with_provider mip (Some (Provider.ActivateKeywords p kws)))
    | None => Returns (tt, mip)
    end.

Definition Reset : M P unit :=
  locked (λ mip,
    let mip :=
      match OriginalProvider mip with
      | Some p => with_provider mip (Some (Provider.Reset p))
      | None => mip
      end in
    Returns (tt, with_previous (with_batch (with_index mip 0) []) ∅)).

Definition Total : M P Z :=
  λ mip,
    match OriginalProvider mip with
    | Some p =>
        let '(total, p) := Provider.Total p in
        Returns (total, with_provider mip (Some p))
    | None => Returns (0, mip)
    end.

End Methods.

End Adapter.

(** ** The provider of the tests

    [MockInputProvider] of the two test files.  Both give it the same
    [Value], [Position], [Next], [Total], [Reset], [ActivateKeywords] and
    [Keywords]; the one of package ffuf adds [SetPosition], which the
    adapter's interface asks for (and [AddProvider], which does nothing
    and is no method of the interface).  No method makes [pos] negative;
    [Value] at a negative [pos], where the Go code would panic, is left
    out. *)

Module Mock.

Record MockInputProvider := {
  inputs : list (gmap string (list byte));
  pos : Z
}.

Definition Value (m : MockInputProvider)
  : option (gmap string (list byte)) * MockInputProvider :=
  (if decide (Z.of_nat (length (inputs m)) ≤ pos m) then None
   else inputs m !! Z.to_nat (pos m), m).

Definition Position (m : MockInputProvider) : Z * MockInputProvider :=
  (pos m, m).

Definition Next (m : MockInputProvider) : bool * MockInputProvider :=
  if decide (pos m < Z.of_nat (length (inputs m)) - 1)
  then (true, {| inputs := inputs m; pos := pos m + 1 |})
  else (false, m).

Definition Total (m : MockInputProvider) : Z * MockInputProvider :=
  (Z.of_nat (length (inputs m)), m).

Definition Reset (m : MockInputProvider) : MockInputProvider :=
  {| inputs := inputs m; pos := 0 |}.

Definition ActivateKeywords (m : MockInputProvider) (keywords : list string)
  : MockInputProvider := m.

Definition Keywords (m : MockInputProvider)
  : list string * MockInputProvider := (["FUZZ"%string], m).

Definition SetPosition (m : MockInputProvider) (position : Z)
  : MockInputProvider :=
  if decide (0 ≤ position ∧ position < Z.of_nat (length (inputs m)))
  then {| inputs := inputs m; pos := position |}
  else m.

#[global] Instance provider : Provider.InputProvider MockInputProvider := {|
  Provider.Next := Next;
  Provider.Value := Value;
  Provider.Position := Position;
  Provider.SetPosition := SetPosition;
  Provider.Keywords := Keywords;
  Provider.ActivateKeywords := ActivateKeywords;
  Provider.Reset := Reset;
  Provider.Total := Total
|}.

End Mock.

(* ================================================================== *)
(** * Package ffuf: the chain behind a mutex                             *)
(* ================================================================== *)

(** The copy of the raw-state chain in package ffuf guards its fields with
    a [sync.RWMutex].  Its types [mState] and [mMarkovChain] have the
    fields of [Feedback.State] and [Feedback.MarkovChain], which stand in
    for them as [fields]; [updateProbabilitiesNoLock] and
    [updateTransitionNoLock] have the bodies of [updateProbabilities] and
    [UpdateTransition] of package markov. *)

Module Ffuf.
Import Go.

Record mMarkovChain := {
  fields : Feedback.MarkovChain;
  mutex : RWMutex
}.

Definition newMarkovChain (seed : Rand) : mMarkovChain :=
  {| fields := Feedback.NewMarkovChain seed; mutex := Free |}.

Definition M (A : Type) : Type := mMarkovChain → outcome (A * mMarkovChain).

(** [mc.mutex.Lock(); defer mc.mutex.Unlock()] in front of a body. *)
Definition locked {A} (body : M A) : M A :=
  λ mc,
    match mutex mc with
    | Free =>
        match body {| fields := fields mc; mutex := Writing |} with
        | Returns (a, mc') => Returns (a, {| fields := fields mc'; mutex := Free |})
        | Panics => Panics
        | Blocks => Blocks
        end
    | _ => Blocks
    end.

(** [mc.mutex.RLock(); defer mc.mutex.RUnlock()] in front of a body. *)
Definition rlocked {A} (body : M A) : M A :=
  λ mc,
    match mutex mc with
    | Writing => Blocks
    | before =>
        let held :=
          match before with
          | Reading others => Reading (S others)
          | _ => Reading 0
          end in
        match body {| fields := fields mc; mutex := held |} with
        | Returns (a, mc') => Returns (a, {| fields := fields mc'; mutex := before |})
        | Panics => Panics
        | Blocks => Blocks
        end
    end.

Section Methods.
Context `{Runtime}.

Definition updateProbabilitiesNoLock (currentState : string) : M unit :=
  λ mc,
    Returns (tt, {| fields := Feedback.updateProbabilities (fields mc) currentState;
                    mutex := mutex mc |}).

Definition updateProbabilities (currentState : string) : M unit :=
  locked (updateProbabilitiesNoLock currentState).

Definition UpdateTransition (currentState nextState : Feedback.State) : M unit :=
  let currentStr := Feedback.State_String currentState in
  let nextStr := Feedback.State_String nextState in
  locked (λ mc,
    let row := default ∅ (Feedback.StateCounts (fields mc) !! currentStr) in
    (* Increment the count for this transition *)
    let row := <[nextStr := default 0 (row !! nextStr) + 1]> row in
    (* Update probabilities *)
    updateProbabilities currentStr
      {| fields :=
           {| Feedback.Transitions := Feedback.Transitions (fields mc);
              Feedback.StateCounts :=
                <[currentStr := row]> (Feedback.StateCounts (fields mc));
              Feedback.CurrentState := Feedback.CurrentState (fields mc);
              Feedback.History := Feedback.History (fields mc);
              Feedback.rand := Feedback.rand (fields mc) |};
         mutex := mutex mc |}).

Definition updateTransitionNoLock (currentState nextState : Feedback.State)
  : M unit :=
  λ mc,
    Returns (tt, {| fields := Feedback.UpdateTransition (fields mc)
                                currentState nextState;
                    mutex := mutex mc |}).

Definition UpdateChain (newState : Feedback.State) : M unit :=
  locked (λ mc,
    let updated :=
      match last (Feedback.History (fields mc)) with
      | Some prevState => updateTransitionNoLock prevState newState mc
      | None => Returns (tt, mc)
      end in
    match updated with
    | Returns (_, mc) =>
        Returns (tt,
          {| fields :=
               {| Feedback.Transitions := Feedback.Transitions (fields mc);
                  Feedback.StateCounts := Feedback.StateCounts (fields mc);
                  Feedback.CurrentState := newState;
                  Feedback.History := Feedback.History (fields mc) ++ [newState];
                  Feedback.rand := Feedback.rand (fields mc) |};
             mutex := mutex mc |})
    | Panics => Panics
    | Blocks => Blocks
    end).

Definition GetTransitionProbability (fromState toState : Feedback.State) : M Q :=
  rlocked (λ mc,
    Returns (Feedback.GetTransitionProbability (fields mc) fromState toState,
             mc)).

End Methods.

End Ffuf.

(* ================================================================== *)
(** * Facts about the runtime model                                    *)
(* ================================================================== *)

Section GoFacts.
Import Go.

Lemma Atoi_Sprintf_d (z : Z) : Atoi (Sprintf_d z) = Some z.
Proof.
  unfold Atoi, Sprintf_d.
  rewrite DecimalString.NilZero.isi.
  - simpl. by rewrite DecimalZ.of_to.
  - destruct z; simpl; try discriminate.
    intros [= E]. by apply DecimalPos.Unsigned.to_uint_nonnil in E.
  - destruct z; simpl; try discriminate.
    intros [= E]. by apply DecimalPos.Unsigned.to_uint_nonnil in E.
Qed.

Lemma Sprintf_d_inj (x y : Z) : Sprintf_d x = Sprintf_d y → x = y.
Proof.
  intros E. apply (f_equal Atoi) in E.
  rewrite !Atoi_Sprintf_d in E. by injection E.
Qed.

Lemma foldl_snoc {A B} (f : A → B → A) (a : A) (l : list B) (x : B) :
  foldl f a (l ++ [x]) = f (foldl f a l) x.
Proof. by rewrite foldl_app. Qed.

Lemma Qltb_lt (x y : Q) : Qltb x y = true ↔ (x < y)%Q.
Proof. unfold Qltb, Qlt. apply Z.ltb_lt. Qed.

Lemma Qltb_ge (x y : Q) : Qltb x y = false ↔ (y <= x)%Q.
Proof. unfold Qltb, Qle. apply Z.ltb_ge. Qed.

Lemma Float64_range (r : Rand) : (0 <= (Float64 r).1 < 1)%Q.
Proof.
  unfold Float64, Qle, Qlt; simpl.
  pose proof (Z.mod_pos_bound (source r (cursor r)) (2 ^ 53)). lia.
Qed.

(** *** Insertion sort is an admissible [sort.Slice] *)

Lemma insert_sorted_perm {A} (less : A → A → bool) x l :
  insert_sorted less x l ≡ₚ x :: l.
Proof.
  induction l as [|y l IH]; simpl; [done|].
  destruct (less x y); [done|].
  rewrite IH. apply perm_swap.
Qed.

Lemma insertion_sort_perm {A} (less : A → A → bool) l :
  insertion_sort less l ≡ₚ l.
Proof.
  unfold insertion_sort.
  enough (∀ acc, foldl (λ acc x, insert_sorted less x acc) acc l ≡ₚ acc ++ l)
    as G by apply (G []).
  induction l as [|x l IH]; intros acc; simpl.
  - by rewrite app_nil_r.
  - rewrite IH, insert_sorted_perm. simpl. apply Permutation_middle.
Qed.

Lemma insert_sorted_sorted {A} (less : A → A → bool) x l :
  (∀ a b, less a b = true → less b a = false) →
  Sorted (λ a b, less b a = false) l →
  Sorted (λ a b, less b a = false) (insert_sorted less x l).
Proof.
  intros Hasym. induction 1 as [|y l Hs IH Hhd]; simpl.
  - repeat constructor.
  - destruct (less x y) eqn:Exy.
    + constructor; [by constructor|]. constructor. by apply Hasym.
    + constructor; [done|].
      destruct l as [|z l]; simpl in *.
      * by constructor.
      * inversion Hhd; subst. destruct (less x z); by constructor.
Qed.

Lemma insertion_sort_sorted {A} (less : A → A → bool) l :
  StrictWeak less →
  Sorted (λ a b, less b a = false) (insertion_sort less l).
Proof.
  intros [Hasym _]. unfold insertion_sort.
  enough (∀ acc, Sorted (λ a b, less b a = false) acc →
                 Sorted (λ a b, less b a = false)
                        (foldl (λ acc x, insert_sorted less x acc) acc l))
    as G by (apply G; constructor).
  induction l as [|x l IH]; intros acc Hacc; simpl; [done|].
  apply IH. by apply insert_sorted_sorted.
Qed.

End GoFacts.

(** A runtime whose [range] visits entries in the order of [map_to_list]. *)
#[local] Instance runtime_forward : Go.Runtime := {|
  Go.range := λ K _ _ V m, map_to_list m;
  Go.range_perm := λ K _ _ V m, reflexivity _;
  Go.sort_Slice := @Go.insertion_sort;
  Go.sort_Slice_perm := @insertion_sort_perm;
  Go.sort_Slice_sorted := @insertion_sort_sorted
|}.

(** A runtime whose [range] visits them in the opposite order. *)
Definition runtime_backward : Go.Runtime := {|
  Go.range := λ K _ _ V m, reverse (map_to_list m);
  Go.range_perm := λ K _ _ V m, reverse_Permutation _;
  Go.sort_Slice := @Go.insertion_sort;
  Go.sort_Slice_perm := @insertion_sort_perm;
  Go.sort_Slice_sorted := @insertion_sort_sorted
|}.

(* ================================================================== *)
(** * Size buckets                                                     *)
(* ================================================================== *)

Section Quantize.
Import Go Markov.

(** The integer behind a bucket label. *)
Definition bucket (size : Z) : Z :=
  let size := Z.max 0 size in
  if size <? 100 then size ÷ 10 * 10
  else if size <? 1000 then size ÷ 100 * 100
  else if size <? 10000 then size ÷ 1000 * 1000
  else size ÷ 10000 * 10000.

Lemma QuantizeSize_bucket (x : Z) : QuantizeSize x = Sprintf_d (bucket x).
Proof.
  unfold QuantizeSize, bucket.
  replace (if x <? 0 then 0 else x) with (Z.max 0 x)
    by (destruct (Z.ltb_spec x 0); lia).
  cbv zeta. by repeat destruct (_ <? _).
Qed.

Lemma Atoi_QuantizeSize (x : Z) : Atoi (QuantizeSize x) = Some (bucket x).
Proof. rewrite QuantizeSize_bucket. apply Atoi_Sprintf_d. Qed.

Ltac bucket_cases :=
  unfold bucket;
  repeat match goal with
         | |- context [?a <? ?b] => destruct (Z.ltb_spec a b)
         end;
  Z.quot_rem_to_equations; lia.

Lemma bucket_idempotent (x : Z) : bucket (bucket x) = bucket x.
Proof. bucket_cases. Qed.

Lemma bucket_monotone (x y : Z) : x ≤ y → bucket x ≤ bucket y.
Proof. intros Hxy. bucket_cases. Qed.

Lemma bucket_negative (x : Z) : x < 0 → bucket x = 0.
Proof. intros Hx. bucket_cases. Qed.

Lemma bucket_below (x : Z) : 0 ≤ x → 0 ≤ bucket x ≤ x.
Proof. intros Hx. bucket_cases. Qed.

(** C8.  [QuantizeSize] is idempotent (quantizing the integer read back
    from a bucket label gives the same label), monotonic (for [x ≤ y] the
    integer on the label of [x] is at most the one on the label of [y]),
    and every negative size gets the label of 0, which is the string "0". *)
Theorem QuantizeSize_idempotent_monotone_clamped :
  (∀ x : Z, ∃ v : Z,
      Atoi (QuantizeSize x) = Some v ∧ QuantizeSize v = QuantizeSize x) ∧
  (∀ x y : Z, x ≤ y →
      ∃ bx by' : Z,
        Atoi (QuantizeSize x) = Some bx ∧
        Atoi (QuantizeSize y) = Some by' ∧ bx ≤ by') ∧
  (∀ x : Z, x < 0 →
      QuantizeSize x = QuantizeSize 0 ∧ QuantizeSize x = "0"%string).
Proof.
  split; [|split].
  - intros x. exists (bucket x). split; [apply Atoi_QuantizeSize|].
    by rewrite !QuantizeSize_bucket, bucket_idempotent.
  - intros x y Hxy. exists (bucket x), (bucket y).
    rewrite !Atoi_QuantizeSize. auto using bucket_monotone.
  - intros x Hx. rewrite !QuantizeSize_bucket, bucket_negative by done.
    split; reflexivity.
Qed.

(** The boundary table of the test-suite. *)
Example QuantizeSize_table :
  (QuantizeSize <$> [0; 5; 15; 95; 105; 995; 1005; 9995; 10005])
  = ["0"; "0"; "10"; "90"; "100"; "900"; "1000"; "9000"; "10000"]%string.
Proof. reflexivity. Qed.

End Quantize.

(* ================================================================== *)
(** * The reward of a response                                         *)
(* ================================================================== *)

Section Reward.
Import Go Markov.

(** The response earns the extra 0.5: its state key differs from the
    baseline's and, that being so, its content digest differs too. *)
Definition differsFromBaseline (resp : Response) (baselineState : State)
    (baselineSizeHash : string) : bool :=
  negb (String.eqb
          (Hash (GetStateFromResponseFromResponseStruct resp (Depth baselineState)))
          (Hash baselineState))
  && negb (String.eqb (GetSizeHash (Data resp)) baselineSizeHash).

(** The reward as a table over the status code. *)
Definition rewardTable (status : Z) (differs : bool) : Q :=
  if (200 <=? status) && (status <? 300) then 3.0
  else if (status =? 401) || (status =? 403) then
         if differs then 2.3 else 1.8
  else if (400 <=? status) && (status <? 500) then
         if differs then 0.5 else 0.0
  else if (500 <=? status) && (status <? 600) then 2.6
  else 2.0.

Lemma CalculateReward_rewardTable resp baselineState baselineSizeHash :
  (CalculateRewardFromResponseStruct resp baselineState baselineSizeHash
   == rewardTable (StatusCode resp)
        (differsFromBaseline resp baselineState baselineSizeHash))%Q.
Proof.
  unfold CalculateRewardFromResponseStruct, rewardTable, differsFromBaseline.
  set (st := StatusCode resp).
  destruct (negb (String.eqb _ (Hash baselineState)));
    destruct (negb (String.eqb _ baselineSizeHash)); simpl;
    repeat match goal with
           | |- context [?a <? ?b] => destruct (Z.ltb_spec a b)
           | |- context [?a <=? ?b] => destruct (Z.leb_spec a b)
           | |- context [?a =? ?b] => destruct (Z.eqb_spec a b)
           end; simpl; try lia; reflexivity.
Qed.

(** C1, as the code has it.  The reward is 3.0 for a status in [200,300),
    2.0 for a status in [300,400), 2.6 for a status in [500,600), 1.8 for
    401 and 403 when the 0.5 bonus does not apply, 0.5 for another status
    in [400,500) whose state key and content digest both differ from the
    baseline's, and 0.0 for such a status otherwise; a response whose state
    key equals the baseline's never gets the bonus, whatever its digest.
    The first three values are 1.0 above what the comments in the code
    announce: the boost for a response that is no 404 is added twice to a
    status outside [400,500), and once to 401 and 403. *)
Theorem reward_by_status resp baselineState baselineSizeHash :
  let status := StatusCode resp in
  let differs := differsFromBaseline resp baselineState baselineSizeHash in
  let reward :=
    CalculateRewardFromResponseStruct resp baselineState baselineSizeHash in
  (200 ≤ status < 300 → (reward == 3.0)%Q) ∧
  (300 ≤ status < 400 → (reward == 2.0)%Q) ∧
  (500 ≤ status < 600 → (reward == 2.6)%Q) ∧
  (status = 401 ∨ status = 403 → differs = false → (reward == 1.8)%Q) ∧
  (400 ≤ status < 500 → status ≠ 401 → status ≠ 403 →
   differs = true → (reward == 0.5)%Q) ∧
  (400 ≤ status < 500 → status ≠ 401 → status ≠ 403 →
   differs = false → (reward == 0.0)%Q) ∧
  (Hash (GetStateFromResponseFromResponseStruct resp (Depth baselineState))
   = Hash baselineState → differs = false).
Proof.
  intros status differs reward.
  assert (reward == rewardTable status differs)%Q as E
    by apply CalculateReward_rewardTable.
  unfold rewardTable in E.
  repeat split; intros; try (rewrite E; clear E);
    repeat match goal with
           | |- context [?a <? ?b] => destruct (Z.ltb_spec a b)
           | |- context [?a <=? ?b] => destruct (Z.leb_spec a b)
           | |- context [?a =? ?b] => destruct (Z.eqb_spec a b)
           | H : differs = _ |- _ => rewrite H
           | H : _ ∨ _ |- _ => destruct H
           end; simpl; try lia; try reflexivity.
  subst differs. unfold differsFromBaseline.
  replace (Hash _) with (Hash baselineState) by done.
  by rewrite String.eqb_refl.
Qed.

(** A baseline of a 404 page and three responses to score against it. *)
Definition baseline404 : State :=
  {| CodeClass := "4xx"; SizeBucket := "100"; Depth := 1 |}.

Definition response (status : Z) (body : list byte) (len : Z) : Response :=
  {| StatusCode := status; Data := body; ContentLength := len;
     ContentWords := 0; ContentLines := 0 |}.

(** A 200 response scores 3.0 and not 2.0, a 301 scores 2.0 and not 1.0,
    a 500 scores 2.6 and not 1.6.  A 403 without the bonus scores 1.8:
    against the order that the code means to give ("Prioritize success
    responses (2xx) and access forbidden (401, 403) over other status
    codes"), a 301 and a 500 outrank it. *)
Lemma reward_2xx_3xx_5xx_counterexample :
  let reward resp := CalculateRewardFromResponseStruct resp baseline404 "0" in
  (reward (response 200 [] 0) == 3.0 ∧ ¬ reward (response 200 [] 0) == 2.0)%Q ∧
  (reward (response 301 [] 0) == 2.0 ∧ ¬ reward (response 301 [] 0) == 1.0)%Q ∧
  (reward (response 500 [] 0) == 2.6 ∧ ¬ reward (response 500 [] 0) == 1.6)%Q ∧
  (reward (response 403 [] 139) < reward (response 301 [] 0))%Q ∧
  (reward (response 403 [] 139) < reward (response 500 [] 0))%Q.
Proof. repeat split; try reflexivity; intros E; discriminate E. Qed.

(** The values on which the code and the specification agree. *)
Example reward_agreed_values :
  let reward resp := CalculateRewardFromResponseStruct resp baseline404 "0" in
  (reward (response 403 [x61] 50) == 2.3)%Q ∧
  (reward (response 403 [] 139) == 1.8)%Q ∧
  (reward (response 404 [x61] 50) == 0.5)%Q ∧
  (reward (response 404 [x61] 139) == 0.0)%Q ∧
  (reward (response 404 [] 139) == 0.0)%Q.
Proof. repeat split; reflexivity. Qed.

End Reward.

(* ================================================================== *)
(** * Expected rewards in the Q-table                                  *)
(* ================================================================== *)

Section QTableFacts.
Import Go Markov.
Context `{rt : Runtime}.

Lemma ensure_lookup `{Countable K} {V} (k k' : K) (v0 : V) (m : gmap K V) :
  ensure k v0 m !! k' =
  if decide (k = k') then Some (default v0 (m !! k)) else m !! k'.
Proof.
  unfold ensure. destruct (m !! k) eqn:E; case_decide; subst;
    simplify_map_eq; done.
Qed.

Lemma ensure_lookup_default `{Countable K} {V} (k : K) (v0 : V) (m : gmap K V) :
  default v0 (ensure k v0 m !! k) = default v0 (m !! k).
Proof. rewrite ensure_lookup. by case_decide. Qed.

(** The Q-value that [UpdateTransition] stores for its (state, action). *)
Definition newQValue (mc : MarkovChain) (transition : Transition) : Q :=
  let fromStateKey := Hash (FromState transition) in
  let qt := ensure fromStateKey ∅ (QTable mc) in
  let currentQ :=
    default 0%Q (default ∅ (QTable mc !! fromStateKey) !! Token (Act transition)) in
  (currentQ
   + Alpha mc * (Reward transition
                 + Gamma mc * maxNextQ qt (Hash (ToState transition))
                 - currentQ))%Q.

Lemma QTable_UpdateTransition mc transition k :
  QTable (UpdateTransition mc transition) !! k =
  if decide (Hash (FromState transition) = k)
  then Some (<[Token (Act transition) := newQValue mc transition]>
               (default ∅ (QTable mc !! Hash (FromState transition))))
  else QTable mc !! k.
Proof.
  unfold UpdateTransition, newQValue; simpl.
  rewrite !ensure_lookup_default.
  case_decide; subst; simplify_map_eq; [done|].
  rewrite ensure_lookup. by case_decide.
Qed.

Lemma Alpha_UpdateTransition mc transition :
  Alpha (UpdateTransition mc transition) = Alpha mc.
Proof. reflexivity. Qed.

Lemma Alpha_run (ts : list Transition) :
  Alpha (foldl UpdateTransition NewMarkovChain ts) = 0.1%Q.
Proof.
  induction ts as [|t ts IH] using rev_ind; [done|].
  by rewrite foldl_snoc.
Qed.

(** Every Q-value in a chain built by updates was put there by one of them. *)
Lemma QTable_run_observed (ts : list Transition) (k a : string) row q :
  QTable (foldl UpdateTransition NewMarkovChain ts) !! k = Some row →
  row !! a = Some q →
  Exists (λ t, Hash (FromState t) = k ∧ Token (Act t) = a) ts.
Proof.
  revert row q. induction ts as [|t ts IH] using rev_ind; intros row q.
  - simpl. by rewrite lookup_empty.
  - rewrite foldl_snoc, QTable_UpdateTransition.
    rewrite Exists_app. case_decide as Hk.
    + intros [= <-]. rewrite lookup_insert. case_decide as Ha.
      * intros _. right. constructor. done.
      * intros Hq. left.
        destruct (QTable (foldl UpdateTransition NewMarkovChain ts) !! k)
          as [row'|] eqn:Erow; subst k; rewrite Erow in Hq; simpl in Hq.
        -- by eapply IH.
        -- by rewrite lookup_empty in Hq.
    + intros Hrow Hq. left. by eapply IH.
Qed.

Lemma maxNextQ_no_values (qt : gmap string (gmap string Q)) (k : string) :
  default ∅ (qt !! k) = ∅ → maxNextQ qt k = 0%Q.
Proof.
  unfold maxNextQ. destruct (qt !! k) as [row|]; simpl; [|done].
  intros ->. by rewrite map_size_empty.
Qed.

Lemma GetExpectedReward_unseen mc s a :
  default ∅ (QTable mc !! Hash s) !! a = None →
  GetExpectedReward mc s a = 0%Q.
Proof.
  unfold GetExpectedReward. destruct (QTable mc !! Hash s); simpl.
  - by intros ->.
  - done.
Qed.

(** One update of a pair without a Q-value, toward a state without any:
    the stored value is the learning rate times the reward. *)
Lemma GetExpectedReward_first_update mc s a s' r :
  default ∅ (QTable mc !! Hash s) !! a = None →
  default ∅ (QTable mc !! Hash s') = ∅ →
  (GetExpectedReward
     (UpdateTransition mc
        {| FromState := s; Act := {| Token := a |}; ToState := s';
           Reward := r |}) s a
   == Alpha mc * r)%Q.
Proof.
  intros Hfresh Hnext. unfold GetExpectedReward.
  rewrite QTable_UpdateTransition; simpl. rewrite decide_True by done.
  rewrite lookup_insert_eq. unfold newQValue; simpl.
  rewrite Hfresh; simpl.
  rewrite maxNextQ_no_values.
  - ring.
  - rewrite ensure_lookup. case_decide as E; simpl; [|done].
    by rewrite E.
Qed.

(** C7.  In a chain built from [NewMarkovChain] by any updates, none of
    them for the pair (s, a): the expected reward of (s, a) is 0.0, and
    after one update of (s, a) with reward [r] toward a state that has no
    Q-values it is 0.1 * r. *)
Theorem expectedReward_fresh_pair (ts : list Transition) (s : State)
    (a : string) :
  Forall (λ t, ¬ (Hash (FromState t) = Hash s ∧ Token (Act t) = a)) ts →
  let mc := foldl UpdateTransition NewMarkovChain ts in
  GetExpectedReward mc s a = 0%Q ∧
  ∀ (s' : State) (r : Q),
    default ∅ (QTable mc !! Hash s') = ∅ →
    (GetExpectedReward
       (UpdateTransition mc
          {| FromState := s; Act := {| Token := a |}; ToState := s';
             Reward := r |}) s a
     == 0.1 * r)%Q.
Proof.
  intros Hnone mc.
  assert (default ∅ (QTable mc !! Hash s) !! a = None) as Hfresh.
  { destruct (QTable mc !! Hash s) as [row|] eqn:Erow; simpl; [|done].
    destruct (row !! a) as [q|] eqn:Eq; [|done].
    pose proof (QTable_run_observed ts _ _ _ _ Erow Eq) as Hex.
    apply Exists_exists in Hex as (t & Hin & Ht).
    rewrite Forall_forall in Hnone. by destruct (Hnone t Hin). }
  split.
  - by apply GetExpectedReward_unseen.
  - intros s' r Hnext.
    rewrite GetExpectedReward_first_update by done.
    subst mc. by rewrite Alpha_run.
Qed.

End QTableFacts.

(** The states of the test-suite: a fresh pair, and the pair once another
    action has been tried from the same state. *)
Definition state_4xx : Markov.State :=
  {| Markov.CodeClass := "4xx"; Markov.SizeBucket := "139"; Markov.Depth := 1 |}.

Definition state_2xx : Markov.State :=
  {| Markov.CodeClass := "2xx"; Markov.SizeBucket := "2000"; Markov.Depth := 1 |}.

Definition try_action (token : string) (reward : Q) : Markov.Transition :=
  {| Markov.FromState := state_4xx;
     Markov.Act := {| Markov.Token := token |};
     Markov.ToState := state_2xx;
     Markov.Reward := reward |}.

Lemma expectedReward_fresh_pair_witness :
  let mc :=
    foldl Markov.UpdateTransition Markov.NewMarkovChain [try_action "index.php" 1] in
  Markov.GetExpectedReward mc state_4xx "testfile.php" = 0%Q ∧
  ∀ (s' : Markov.State) (r : Q),
    default ∅ (Markov.QTable mc !! Markov.Hash s') = ∅ →
    (Markov.GetExpectedReward
       (Markov.UpdateTransition mc
          {| Markov.FromState := state_4xx;
             Markov.Act := {| Markov.Token := "testfile.php" |};
             Markov.ToState := s'; Markov.Reward := r |})
       state_4xx "testfile.php"
     == 0.1 * r)%Q.
Proof.
  apply (expectedReward_fresh_pair [try_action "index.php" 1] state_4xx
           "testfile.php").
  repeat constructor. intros [_ E]. discriminate E.
Defined.

(** The numbers of the test-suite: 0.0 before, 0.1 after a reward of 1.0. *)
Example expectedReward_test_suite :
  Markov.GetExpectedReward Markov.NewMarkovChain state_4xx "testfile.php" = 0%Q ∧
  (Markov.GetExpectedReward
     (Markov.UpdateTransition Markov.NewMarkovChain (try_action "testfile.php" 1))
     state_4xx "testfile.php" == 0.1)%Q.
Proof. split; [reflexivity|]. vm_compute. reflexivity. Qed.

(* ================================================================== *)
(** * The feedback controller: selecting the next input                *)
(* ================================================================== *)

Section Selection.
Import Go Feedback.

(** What drawing from the generator leaves as it is: everything but the
    generator. *)
Definition frame (fc fc' : FeedbackController) : Prop :=
  matchedInputs fc' = matchedInputs fc ∧
  responseHistory fc' = responseHistory fc ∧
  maxHistory fc' = maxHistory fc ∧
  Transitions (chain fc') = Transitions (chain fc) ∧
  StateCounts (chain fc') = StateCounts (chain fc) ∧
  CurrentState (chain fc') = CurrentState (chain fc) ∧
  History (chain fc') = History (chain fc).

Definition framed {A} (m : M A) : Prop :=
  ∀ fc a fc', m fc = Ok (a, fc') → frame fc fc'.

Lemma frame_refl fc : frame fc fc.
Proof. by repeat split. Qed.

Lemma frame_trans fc1 fc2 fc3 : frame fc1 fc2 → frame fc2 fc3 → frame fc1 fc3.
Proof. unfold frame. intuition congruence. Qed.

Lemma framed_ret {A} (a : A) : framed (ret a).
Proof. intros fc a' fc' [= _ <-]. apply frame_refl. Qed.

Lemma framed_get : framed get.
Proof. intros fc a' fc' [= _ <-]. apply frame_refl. Qed.

Lemma framed_panic {A} : framed (@panic A).
Proof. intros fc a fc' [=]. Qed.

Lemma framed_draw : framed draw.
Proof. intros fc a fc' [= _ <-]. by repeat split. Qed.

Lemma framed_bind {A B} (m : M A) (k : A → M B) :
  framed m → (∀ a, framed (k a)) → framed (bind m k).
Proof.
  intros Hm Hk fc b fc'. unfold bind.
  destruct (m fc) as [[a fc1]|] eqn:E; [|done].
  intros Hb. eapply frame_trans; [by eapply Hm | by eapply Hk].
Qed.

Lemma framed_index {A} (slice : list A) i : framed (index slice i).
Proof.
  unfold index. case_decide; [|apply framed_panic].
  destruct (slice !! Z.to_nat i); [apply framed_ret | apply framed_panic].
Qed.

Create HintDb framed.
#[local] Hint Resolve framed_ret framed_get framed_panic framed_draw
  framed_index : framed.
#[local] Hint Extern 2 (framed (bind _ _)) =>
  apply framed_bind; [|intros ?] : framed.
#[local] Hint Extern 3 (framed (if ?c then _ else _)) => destruct c : framed.
#[local] Hint Extern 3 (framed (match ?c with Some _ => _ | None => _ end)) =>
  destruct c : framed.

Lemma framed_shouldUseMatchedInput : framed shouldUseMatchedInput.
Proof. unfold shouldUseMatchedInput. auto 10 with framed. Qed.

Lemma framed_getWeightedIndex n : framed (getWeightedIndex n).
Proof. unfold getWeightedIndex. auto 10 with framed. Qed.

Lemma framed_selectFromMatchedInputs : framed selectFromMatchedInputs.
Proof.
  unfold selectFromMatchedInputs.
  auto 10 using framed_getWeightedIndex with framed.
Qed.

Lemma framed_selectAndModifyInput base : framed (selectAndModifyInput base).
Proof.
  unfold selectAndModifyInput.
  auto 10 using framed_selectFromMatchedInputs with framed.
Qed.

(** Selecting an input changes nothing but the generator. *)
Lemma framed_GetNextInput base : framed (GetNextInput base).
Proof.
  unfold GetNextInput, getBaseInput.
  auto 10 using framed_shouldUseMatchedInput, framed_selectAndModifyInput
    with framed.
Qed.

(** The weighted index stays inside a slice of [n] elements. *)
Lemma weighted_index_in_range (u : Q) (n : Z) :
  (0 <= u < 1)%Q → 1 ≤ n →
  0 ≤ int_of_float (u * u * float64 (n - 1))%Q ≤ n - 1.
Proof.
  intros [H0 H1] Hn. destruct u as [a d].
  unfold Qle, Qlt in *; simpl in *.
  unfold int_of_float, float64; simpl.
  rewrite Pos.mul_1_r, Pos2Z.inj_mul.
  assert (0 ≤ a * a * (n - 1)) by nia.
  split.
  - apply Z.quot_pos; lia.
  - apply Z.quot_le_upper_bound; [lia|].
    apply Z.mul_le_mono_nonneg_r; [lia | nia].
Qed.

(** The controller once its generator has handed out one number. *)
Definition after_draw (fc : FeedbackController) : FeedbackController :=
  {| chain :=
       {| Transitions := Transitions (chain fc);
          StateCounts := StateCounts (chain fc);
          CurrentState := CurrentState (chain fc);
          History := History (chain fc);
          rand := (Float64 (rand (chain fc))).2 |};
     matchedInputs := matchedInputs fc;
     responseHistory := responseHistory fc;
     maxHistory := maxHistory fc |}.

Lemma draw_eq fc : draw fc = Ok ((Float64 (rand (chain fc))).1, after_draw fc).
Proof. unfold draw, after_draw. by destruct (Float64 _). Qed.

Lemma bind_Ok {A B} (m : M A) (k : A → M B) fc a fc' :
  m fc = Ok (a, fc') → bind m k fc = k a fc'.
Proof. unfold bind. by intros ->. Qed.

Lemma shouldUseMatchedInput_short fc :
  (length (responseHistory fc) < 2)%nat →
  shouldUseMatchedInput fc
  = Ok (bool_decide (0 < Z.of_nat (length (matchedInputs fc))), fc).
Proof.
  intros Hshort. unfold shouldUseMatchedInput.
  rewrite (bind_Ok _ _ fc fc fc) by done.
  by rewrite decide_True by lia.
Qed.

Lemma getWeightedIndex_eq fc n :
  0 < n →
  getWeightedIndex n fc
  = Ok (int_of_float ((Float64 (rand (chain fc))).1
                      * (Float64 (rand (chain fc))).1 * float64 (n - 1))%Q,
        after_draw fc).
Proof.
  intros Hn. unfold getWeightedIndex. rewrite decide_False by lia.
  by rewrite (bind_Ok _ _ _ _ _ (draw_eq fc)).
Qed.

(** The result of [GetNextInput] when the gate is open: the entry of the
    matched-input memory under the weighted index, or the base input when
    that entry is a nil map. *)
Definition selected (fc : FeedbackController) (base : Inputs) : Inputs :=
  let n := Z.of_nat (length (matchedInputs fc)) in
  let u := (Float64 (rand (chain fc))).1 in
  let weightedIndex := int_of_float (u * u * float64 (n - 1))%Q in
  match matchedInputs fc !! Z.to_nat weightedIndex with
  | Some (Some input) => Some input
  | _ => base
  end.

(** C6.  With an empty matched-input memory [GetNextInput] returns
    (nil, false) and leaves the controller, generator included, as it is.
    With a non-empty memory and fewer than 2 responses in the history it
    returns, with the flag true, the memory entry under the weighted index,
    which lies inside the memory (the base input when that entry is a nil
    map); only the generator advances. *)
Theorem GetNextInput_gate (fc : FeedbackController) (base : Inputs) :
  (matchedInputs fc = [] →
   GetNextInput base fc = Ok ((None, false), fc)) ∧
  (matchedInputs fc ≠ [] → (length (responseHistory fc) < 2)%nat →
   ∃ i entry,
     GetNextInput base fc = Ok ((selected fc base, true), after_draw fc) ∧
     matchedInputs fc !! i = Some entry ∧
     selected fc base = match entry with Some _ => entry | None => base end).
Proof.
  split.
  - intros Hempty. unfold GetNextInput, bind, get, ret. by rewrite Hempty.
  - intros Hne Hshort.
    assert (0 < length (matchedInputs fc))%nat as Hlen
      by (destruct (matchedInputs fc); [done | simpl; lia]).
    pose proof (Float64_range (rand (chain fc))) as Hu.
    pose proof (weighted_index_in_range _ (Z.of_nat (length (matchedInputs fc)))
                  Hu ltac:(lia)) as Hidx.
    set (idx := int_of_float _) in Hidx.
    destruct (lookup_lt_is_Some_2 (matchedInputs fc) (Z.to_nat idx)
                ltac:(lia)) as [entry Hentry].
    assert (selected fc base
            = match entry with Some _ => entry | None => base end) as Hsel.
    { unfold selected. fold idx. rewrite Hentry. by destruct entry. }
    exists (Z.to_nat idx), entry.
    split; [|split; [exact Hentry | exact Hsel]].
    unfold GetNextInput.
    rewrite (bind_Ok _ _ fc fc fc) by done.
    rewrite decide_True by lia.
    rewrite (bind_Ok _ _ _ _ _ (shouldUseMatchedInput_short fc Hshort)).
    rewrite bool_decide_eq_true_2 by lia.
    unfold getBaseInput.
    rewrite (bind_Ok _ _ fc base fc) by done.
    assert (selectAndModifyInput base fc = Ok (selected fc base, after_draw fc))
      as Hmod.
    { unfold selectAndModifyInput, selectFromMatchedInputs.
      rewrite (bind_Ok (bind _ _) _ fc entry (after_draw fc)).
      - rewrite Hsel. by destruct entry.
      - rewrite (bind_Ok _ _ fc fc fc) by done.
        rewrite decide_False by lia.
        rewrite (bind_Ok _ _ _ _ _
                   (getWeightedIndex_eq fc
                      (Z.of_nat (length (matchedInputs fc))) ltac:(lia))).
        fold idx. unfold index. rewrite decide_True by lia.
        simpl. by rewrite Hentry. }
    by rewrite (bind_Ok _ _ _ _ _ Hmod).
Qed.

End Selection.

(* ================================================================== *)
(** * The feedback controller: recording responses                     *)
(* ================================================================== *)

Section Controller.
Import Go Feedback.
Context `{rt : Runtime}.

(** The calls the engine makes on a controller. *)
Inductive Call :=
| RecordResponse (resp : Response) (isMatch : bool)
| RecordMatchedInput (input : Inputs)
| SelectNext (base : Inputs).

Definition call (fc : FeedbackController) (c : Call) : FeedbackController :=
  match c with
  | RecordResponse resp isMatch => UpdateWithResponse fc resp isMatch
  | RecordMatchedInput input => UpdateWithMatchedInput fc input
  | SelectNext base =>
      match GetNextInput base fc with
      | Ok (_, fc') => fc'
      | Panic => fc
      end
  end.

(** The controller after a sequence of calls on a new one. *)
Definition controller_after (seed : Rand) (calls : list Call)
  : FeedbackController :=
  foldl call (NewFeedbackController seed) calls.

(** The state that [UpdateWithResponse] makes of a response. *)
Definition stateOf (resp : Response) (isMatch : bool) : State :=
  {| StatusCode := RStatusCode resp;
     ContentLength := RContentLength resp;
     ContentWords := RContentWords resp;
     ContentLines := RContentLines resp;
     Duration := RDuration resp;
     IsMatch := isMatch |}.

Definition controller_inv (fc : FeedbackController) : Prop :=
  maxHistory fc = 100 ∧
  (length (matchedInputs fc) ≤ 100)%nat ∧
  (length (responseHistory fc) ≤ 100)%nat ∧
  last (History (chain fc)) = last (responseHistory fc).

Lemma History_updateProbabilities mc k :
  History (updateProbabilities mc k) = History mc.
Proof. unfold updateProbabilities. by case_decide. Qed.

Lemma History_UpdateTransition mc s s' :
  History (UpdateTransition mc s s') = History mc.
Proof. unfold UpdateTransition. by rewrite History_updateProbabilities. Qed.

Lemma History_UpdateChain mc s :
  History (UpdateChain mc s) = History mc ++ [s].
Proof.
  unfold UpdateChain; simpl.
  destruct (last (History mc)); [|done].
  by rewrite History_UpdateTransition.
Qed.

(** Appending to a buffer that holds at most [cap] entries. *)
Lemma push_bounded {A} (buffer : list A) (x : A) (cap : nat) :
  (0 < cap)%nat → (length buffer ≤ cap)%nat →
  (if decide (Z.of_nat cap < Z.of_nat (length (buffer ++ [x])))
   then drop 1 (buffer ++ [x]) else buffer ++ [x])
  = (if decide (length buffer = cap) then drop 1 buffer else buffer) ++ [x].
Proof.
  intros Hcap Hlen. rewrite length_app; simpl.
  destruct (decide (length buffer = cap)) as [E|E].
  - rewrite decide_True by lia. rewrite drop_app_le by lia. done.
  - by rewrite decide_False by lia.
Qed.

Lemma push_length {A} (buffer : list A) (x : A) (cap : nat) :
  (0 < cap)%nat → (length buffer ≤ cap)%nat →
  (length ((if decide (length buffer = cap) then drop 1 buffer else buffer)
           ++ [x]) ≤ cap)%nat.
Proof.
  intros Hcap Hlen. rewrite length_app; simpl.
  case_decide; [rewrite length_drop|]; lia.
Qed.

Lemma chain_UpdateWithResponse fc resp isMatch :
  chain (UpdateWithResponse fc resp isMatch)
  = UpdateChain (chain fc) (stateOf resp isMatch).
Proof. reflexivity. Qed.

Lemma responseHistory_UpdateWithResponse fc resp isMatch :
  controller_inv fc →
  responseHistory (UpdateWithResponse fc resp isMatch)
  = (if decide (length (responseHistory fc) = 100%nat)
     then drop 1 (responseHistory fc) else responseHistory fc)
    ++ [stateOf resp isMatch].
Proof.
  intros (Hmax & _ & Hlen & _). unfold UpdateWithResponse; simpl.
  rewrite Hmax. apply (push_bounded _ (stateOf resp isMatch) 100); lia.
Qed.

Lemma matchedInputs_UpdateWithMatchedInput fc input :
  controller_inv fc →
  matchedInputs (UpdateWithMatchedInput fc input)
  = (if decide (length (matchedInputs fc) = 100%nat)
     then drop 1 (matchedInputs fc) else matchedInputs fc) ++ [input].
Proof.
  intros (_ & Hlen & _). unfold UpdateWithMatchedInput; simpl.
  apply (push_bounded _ input 100); lia.
Qed.

Lemma controller_inv_new seed : controller_inv (NewFeedbackController seed).
Proof. repeat split; simpl; lia. Qed.

Lemma controller_inv_call fc c : controller_inv fc → controller_inv (call fc c).
Proof.
  intros Hinv. destruct c as [resp isMatch|input|base]; simpl.
  - pose proof (responseHistory_UpdateWithResponse fc resp isMatch Hinv) as E.
    destruct Hinv as (Hmax & Hm & Hh & Hlast).
    repeat split; try done.
    + rewrite E. apply push_length; lia.
    + rewrite E, chain_UpdateWithResponse.
      by rewrite History_UpdateChain, !last_snoc.
  - pose proof (matchedInputs_UpdateWithMatchedInput fc input Hinv) as E.
    destruct Hinv as (Hmax & Hm & Hh & Hlast).
    repeat split; try done.
    rewrite E. apply push_length; lia.
  - destruct (GetNextInput base fc) as [[r fc']|] eqn:E; [|done].
    apply framed_GetNextInput in E as (Em & Eh & Emax & _ & _ & _ & EH).
    unfold controller_inv. by rewrite Em, Eh, Emax, EH.
Qed.

Lemma controller_inv_after seed calls :
  controller_inv (controller_after seed calls).
Proof.
  unfold controller_after.
  induction calls as [|c calls IH] using rev_ind.
  - apply controller_inv_new.
  - rewrite foldl_snoc. by apply controller_inv_call.
Qed.

(** C5.  After any sequence of calls on a new controller the matched-input
    memory and the response history hold at most 100 entries each; an
    insertion into a buffer of 100 entries drops its oldest entry and keeps
    the others in order, an insertion into a shorter buffer drops nothing,
    and either way the new entry comes last. *)
Theorem buffers_bounded_fifo (seed : Rand) (calls : list Call) :
  let fc := controller_after seed calls in
  (length (matchedInputs fc) ≤ 100)%nat ∧
  (length (responseHistory fc) ≤ 100)%nat ∧
  (∀ input : Inputs,
      matchedInputs (UpdateWithMatchedInput fc input)
      = (if decide (length (matchedInputs fc) = 100%nat)
         then drop 1 (matchedInputs fc) else matchedInputs fc) ++ [input]) ∧
  (∀ (resp : Response) (isMatch : bool),
      responseHistory (UpdateWithResponse fc resp isMatch)
      = (if decide (length (responseHistory fc) = 100%nat)
         then drop 1 (responseHistory fc) else responseHistory fc)
        ++ [stateOf resp isMatch]).
Proof.
  intros fc. pose proof (controller_inv_after seed calls) as Hinv.
  fold fc in Hinv.
  split; [apply Hinv|]. split; [apply Hinv|]. split.
  - intros input. by apply matchedInputs_UpdateWithMatchedInput.
  - intros resp isMatch. by apply responseHistory_UpdateWithResponse.
Qed.

(** The adapter after a sequence of recorded responses. *)
Definition adapter_after (baselineState : Markov.State)
    (baselineSizeHash : string) (depth : Z)
    (responses : list (gmap string (list byte) * Markov.Response))
  : Markov.MarkovInputProvider :=
  foldl (λ mip ir, Markov.UpdateWithResponse mip ir.1 ir.2)
    (Markov.NewMarkovInputProvider baselineState baselineSizeHash depth)
    responses.

Lemma baselineState_adapter_after b h d responses :
  Markov.baselineState (adapter_after b h d responses) = b.
Proof.
  unfold adapter_after.
  induction responses as [|ir responses IH] using rev_ind; [done|].
  by rewrite foldl_snoc.
Qed.

Lemma StateCounts_adapter_update mip inputs mresp :
  Markov.StateCounts (Markov.Chain (Markov.UpdateWithResponse mip inputs mresp))
  = <[Markov.Hash (Markov.baselineState mip) :=
        default 0 (Markov.StateCounts (Markov.Chain mip)
                     !! Markov.Hash (Markov.baselineState mip)) + 1]>
      (Markov.StateCounts (Markov.Chain mip)).
Proof. reflexivity. Qed.

(** Every transition that the adapter records starts from the baseline. *)
Lemma StateCounts_adapter_after b h d responses (k : string) :
  Markov.StateCounts (Markov.Chain (adapter_after b h d responses)) !! k
  = if decide (k = Markov.Hash b ∧ responses ≠ [])
    then Some (Z.of_nat (length responses)) else None.
Proof.
  induction responses as [|ir responses IH] using rev_ind.
  - simpl. rewrite lookup_empty. case_decide as E; [by destruct E|done].
  - pose proof (baselineState_adapter_after b h d responses) as Eb.
    unfold adapter_after in *. rewrite foldl_snoc.
    rewrite StateCounts_adapter_update, Eb, length_app; simpl.
    destruct (decide (k = Markov.Hash b)) as [->|Hk].
    + rewrite lookup_insert_eq, IH.
      rewrite (decide_True (P := _ ∧ _ ++ _ ≠ []))
        by (split; [done | by destruct responses]).
      f_equal. case_decide as E; simpl; [lia|].
      destruct responses; [simpl; lia | by destruct E].
    + rewrite lookup_insert_ne by done. rewrite IH.
      rewrite !decide_False; [done | by intros [? _] | by intros [? _]].
Qed.

(** C2, as the code has it.  The controller updates its chain from the
    most recent entry of the response history when there is one, and makes
    no transition update when the history is empty.  The input-provider
    adapter updates its chain from the baseline state on every response:
    after any responses, first or later, the baseline state is the only
    state that transitions were recorded from, once per response. *)
Theorem from_state_of_update (seed : Rand) (calls : list Call)
    (resp : Response) (isMatch : bool)
    (baselineState : Markov.State) (baselineSizeHash : string) (depth : Z)
    (responses : list (gmap string (list byte) * Markov.Response)) :
  let fc := controller_after seed calls in
  let after := chain (UpdateWithResponse fc resp isMatch) in
  let mip := adapter_after baselineState baselineSizeHash depth responses in
  match last (responseHistory fc) with
  | Some previous =>
      let updated := UpdateTransition (chain fc) previous (stateOf resp isMatch) in
      StateCounts after = StateCounts updated ∧
      Transitions after = Transitions updated
  | None =>
      StateCounts after = StateCounts (chain fc) ∧
      Transitions after = Transitions (chain fc)
  end ∧
  (∀ (inputs : gmap string (list byte)) (mresp : Markov.Response),
      ∃ transition,
        Markov.Chain (Markov.UpdateWithResponse mip inputs mresp)
        = Markov.UpdateTransition (Markov.Chain mip) transition ∧
        Markov.FromState transition = baselineState) ∧
  (∀ key : string,
      Markov.StateCounts (Markov.Chain mip) !! key
      = if decide (key = Markov.Hash baselineState ∧ responses ≠ [])
        then Some (Z.of_nat (length responses)) else None).
Proof.
  intros fc after mip.
  destruct (controller_inv_after seed calls) as (_ & _ & _ & Hlast).
  fold fc in Hlast. split; [|split].
  - subst after. rewrite chain_UpdateWithResponse. unfold UpdateChain.
    rewrite Hlast. by destruct (last (responseHistory fc)).
  - intros inputs mresp. eexists. split; [reflexivity|].
    apply baselineState_adapter_after.
  - apply StateCounts_adapter_after.
Qed.

End Controller.

(** The first recorded response: one new controller, two responses. *)
Definition seed0 : Go.Rand := {| Go.source := λ _, 0; Go.cursor := 0 |}.

Definition response_200 : Feedback.Response :=
  {| Feedback.RStatusCode := 200; Feedback.RContentLength := 100;
     Feedback.RContentWords := 20; Feedback.RContentLines := 10;
     Feedback.RDuration := 50000000 |}.

Definition response_404 : Feedback.Response :=
  {| Feedback.RStatusCode := 404; Feedback.RContentLength := 50;
     Feedback.RContentWords := 10; Feedback.RContentLines := 5;
     Feedback.RDuration := 30000000 |}.

Definition adapter0 : Markov.MarkovInputProvider :=
  Markov.NewMarkovInputProvider baseline404 "0" 1.

(** On a new controller the first response is recorded without any
    transition update; the adapter records the second response from the
    baseline state again, not from the state of the first response. *)
Lemma first_response_counterexample :
  Feedback.StateCounts
    (Feedback.chain
       (Feedback.UpdateWithResponse (Feedback.NewFeedbackController seed0)
          response_200 true)) = ∅ ∧
  Feedback.Transitions
    (Feedback.chain
       (Feedback.UpdateWithResponse (Feedback.NewFeedbackController seed0)
          response_200 true)) = ∅ ∧
  Markov.StateCounts
    (Markov.Chain
       (Markov.UpdateWithResponse
          (Markov.UpdateWithResponse adapter0 ∅ (response 200 [] 0))
          ∅ (response 404 [] 0)))
  = {[ Markov.Hash baseline404 := 2 ]}.
Proof. repeat split; vm_compute; reflexivity. Qed.

Definition fuzz_input (n : Z) : option (gmap string (list byte)) :=
  Some {[ "FUZZ"%string := list_byte_of_string (Go.Sprintf_d n) ]}.

(** The 101st matched input pushes out the first one. *)
Example matched_memory_101 :
  let fc :=
    foldl Feedback.UpdateWithMatchedInput (Feedback.NewFeedbackController seed0)
      (fuzz_input <$> seqZ 0 101) in
  length (Feedback.matchedInputs fc) = 100%nat ∧
  head (Feedback.matchedInputs fc) = Some (fuzz_input 1) ∧
  last (Feedback.matchedInputs fc) = Some (fuzz_input 100).
Proof. repeat split; vm_compute; reflexivity. Qed.

(* ================================================================== *)
(** * Loops over maps, whatever the visiting order                     *)
(* ================================================================== *)

Section RangeLoops.
Context `{Countable K}.

(** Sums of integers and of rationals. *)
Definition sumZ (l : list Z) : Z := foldr Z.add 0 l.
Definition sumQ (l : list Q) : Q := foldr Qplus 0%Q l.

Lemma sumZ_perm (l l' : list Z) : l ≡ₚ l' → sumZ l = sumZ l'.
Proof.
  induction 1 as [|x l l' _ IH|x y l|l1 l2 l3 _ IH1 _ IH2]; simpl.
  - done.
  - by rewrite IH.
  - lia.
  - by rewrite IH1.
Qed.

Lemma sumQ_perm (l l' : list Q) : l ≡ₚ l' → (sumQ l == sumQ l')%Q.
Proof.
  induction 1 as [|x l l' _ IH|x y l|l1 l2 l3 _ IH1 _ IH2]; simpl.
  - reflexivity.
  - by rewrite IH.
  - ring.
  - by rewrite IH1.
Qed.

Lemma foldl_add_sumZ {A} (f : A → Z) (a : Z) (l : list A) :
  foldl (λ acc x, acc + f x) a l = a + sumZ (f <$> l).
Proof.
  revert a. induction l as [|x l IH]; intros a; csimpl; [lia|].
  rewrite IH. lia.
Qed.

(** The sum of the values of a map. *)
Definition total (m : gmap K Z) : Z := sumZ (map_to_list m).*2.

Lemma total_empty : total (∅ : gmap K Z) = 0.
Proof. unfold total. by rewrite map_to_list_empty. Qed.

Lemma total_insert_fresh (m : gmap K Z) k c :
  m !! k = None → total (<[k := c]> m) = c + total m.
Proof.
  intros Hk. unfold total.
  by rewrite (sumZ_perm _ _ (fmap_Permutation snd _ _ (map_to_list_insert m k c Hk))).
Qed.

Lemma total_increment (m : gmap K Z) k :
  total (<[k := default 0 (m !! k) + 1]> m) = total m + 1.
Proof.
  destruct (m !! k) as [c|] eqn:Ek; simpl.
  - rewrite <-(insert_delete_eq m k (c + 1)).
    rewrite total_insert_fresh by apply lookup_delete_eq.
    rewrite <-(insert_id m k c Ek) at 2.
    rewrite <-(insert_delete_eq m k c).
    rewrite total_insert_fresh by apply lookup_delete_eq. lia.
  - rewrite total_insert_fresh by done. lia.
Qed.

(** A loop that adds up the values of a map. *)
Lemma range_sum `{Go.Runtime} (m : gmap K Z) :
  foldl (λ acc kv, acc + kv.2) 0 (Go.range m) = total m.
Proof.
  rewrite (foldl_add_sumZ snd). unfold total.
  by rewrite (sumZ_perm _ _ (fmap_Permutation snd _ _ (Go.range_perm K Z m))).
Qed.

(** A loop that stores a function of every value of a map in a second map
    under the same key. *)
Lemma foldl_store_other {V W} (f : V → W) (l : list (K * V)) (row : gmap K W) k :
  k ∉ l.*1 →
  foldl (λ row kv, <[kv.1 := f kv.2]> row) row l !! k = row !! k.
Proof.
  revert row. induction l as [|[k' v'] l IH]; intros row Hk; simpl; [done|].
  rewrite fmap_cons, not_elem_of_cons in Hk. destruct Hk as [Hne Hk].
  rewrite IH by done. by rewrite lookup_insert_ne.
Qed.

Lemma foldl_store_same {V W} (f : V → W) (l : list (K * V)) (row : gmap K W) k v :
  NoDup l.*1 → (k, v) ∈ l →
  foldl (λ row kv, <[kv.1 := f kv.2]> row) row l !! k = Some (f v).
Proof.
  revert row. induction l as [|[k' v'] l IH]; intros row Hnd Hin; simpl.
  - by apply elem_of_nil in Hin.
  - rewrite fmap_cons, NoDup_cons in Hnd. destruct Hnd as [Hk' Hnd].
    apply elem_of_cons in Hin as [[= -> ->]|Hin].
    + rewrite foldl_store_other by done. by rewrite lookup_insert_eq.
    + by apply IH.
Qed.

Lemma range_store `{Go.Runtime} {V W} (f : V → W) (m : gmap K V) (row : gmap K W) :
  dom row ⊆ dom m →
  foldl (λ row kv, <[kv.1 := f kv.2]> row) row (Go.range m) = f <$> m.
Proof.
  intros Hdom. apply map_eq; intros k.
  pose proof (Go.range_perm K V m) as Hperm.
  assert (NoDup (Go.range m).*1) as Hnd.
  { rewrite Hperm. apply NoDup_fst_map_to_list. }
  rewrite lookup_fmap. destruct (m !! k) as [v|] eqn:Ek; simpl.
  - apply foldl_store_same; [done|].
    rewrite Hperm. by apply elem_of_map_to_list.
  - rewrite foldl_store_other.
    + apply not_elem_of_dom. apply not_elem_of_dom in Ek. set_solver.
    + rewrite Hperm. intros Hin.
      apply list_elem_of_fmap in Hin as ([k' v] & -> & Hin).
      apply elem_of_map_to_list in Hin. simpl in Ek. congruence.
Qed.

(** Dividing every value by the total gives numbers that add up to 1. *)
Lemma sumQ_ratios (l : list Z) (t : Z) :
  (sumQ ((λ c, Go.float64 c / Go.float64 t) <$> l)
   == Go.float64 (sumZ l) / Go.float64 t)%Q.
Proof.
  unfold Go.float64. induction l as [|c l IH]; simpl.
  - unfold Qdiv. ring.
  - rewrite IH, inject_Z_plus. unfold Qdiv. ring.
Qed.

Lemma sumQ_probabilities (m : gmap K Z) :
  total m ≠ 0 →
  (sumQ (map_to_list ((λ c, Go.float64 c / Go.float64 (total m))%Q <$> m)).*2
   == 1)%Q.
Proof.
  intros Hne.
  rewrite map_to_list_fmap, <-list_fmap_compose.
  rewrite (list_fmap_ext _ ((λ c, Go.float64 c / Go.float64 (total m))%Q ∘ snd))
    by (by intros ? [??]).
  rewrite list_fmap_compose, sumQ_ratios. fold (total m).
  unfold Go.float64. field. intros E.
  unfold Qeq in E; simpl in E. lia.
Qed.

End RangeLoops.

(* ================================================================== *)
(** * Transition probabilities of the raw-state chain                  *)
(* ================================================================== *)

Section Probabilities.
Import Go Feedback.
Context `{rt : Runtime}.

(** The calls that change a chain. *)
Inductive ChainCall :=
| CallUpdateChain (newState : State)
| CallUpdateTransition (currentState nextState : State).

Definition chain_call (mc : MarkovChain) (c : ChainCall) : MarkovChain :=
  match c with
  | CallUpdateChain newState => UpdateChain mc newState
  | CallUpdateTransition currentState nextState =>
      UpdateTransition mc currentState nextState
  end.

Definition chain_after (seed : Rand) (calls : list ChainCall) : MarkovChain :=
  foldl chain_call (NewMarkovChain seed) calls.

(** The transitions that a sequence of calls records, as pairs of keys,
    kept next to the history that [UpdateChain] builds up. *)
Definition record (acc : list State * list (string * string)) (c : ChainCall)
  : list State * list (string * string) :=
  match c with
  | CallUpdateChain newState =>
      (acc.1 ++ [newState],
       acc.2 ++ match last acc.1 with
                | Some prevState =>
                    [(State_String prevState, State_String newState)]
                | None => []
                end)
  | CallUpdateTransition currentState nextState =>
      (acc.1, acc.2 ++ [(State_String currentState, State_String nextState)])
  end.

Definition recorded (calls : list ChainCall) : list (string * string) :=
  (foldl record ([], []) calls).2.

(** How often a transition was recorded, and how many were recorded out of
    a state. *)
Definition occurrences (from to : string) (log : list (string * string)) : Z :=
  Z.of_nat (length (filter (λ p, p = (from, to)) log)).

Definition outgoing (from : string) (log : list (string * string)) : Z :=
  Z.of_nat (length (filter (λ p, p.1 = from) log)).

Lemma occurrences_snoc from to log p :
  occurrences from to (log ++ [p])
  = occurrences from to log + (if decide (p = (from, to)) then 1 else 0).
Proof.
  unfold occurrences. rewrite filter_app, length_app, filter_cons, filter_nil.
  case_decide; simpl; lia.
Qed.

Lemma outgoing_snoc from log p :
  outgoing from (log ++ [p])
  = outgoing from log + (if decide (p.1 = from) then 1 else 0).
Proof.
  unfold outgoing. rewrite filter_app, length_app, filter_cons, filter_nil.
  case_decide; simpl; lia.
Qed.

Lemma outgoing_nonneg from log : 0 ≤ outgoing from log.
Proof. unfold outgoing. lia. Qed.

Lemma occurrences_le_outgoing from to log :
  0 ≤ occurrences from to log ≤ outgoing from log.
Proof.
  unfold occurrences, outgoing. split; [lia|].
  apply inj_le. induction log as [|p log IH]; [done|].
  rewrite !filter_cons. destruct (decide (p = (from, to))) as [->|Hp].
  - rewrite decide_True by done. simpl. lia.
  - case_decide; simpl; lia.
Qed.

(** The probabilities stored for a row of counts. *)
Definition frequencies (row : gmap string Z) : gmap string Q :=
  (λ c, float64 c / float64 (total row))%Q <$> row.

Definition chain_inv (mc : MarkovChain) (log : list (string * string)) : Prop :=
  (∀ s t, default 0 (default ∅ (StateCounts mc !! s) !! t) = occurrences s t log) ∧
  (∀ s, total (default ∅ (StateCounts mc !! s)) = outgoing s log) ∧
  (∀ s, Transitions mc !! s = frequencies <$> StateCounts mc !! s).

Lemma updateProbabilities_spec mc k row :
  StateCounts mc !! k = Some row →
  total row ≠ 0 →
  dom (default ∅ (Transitions mc !! k)) ⊆ dom row →
  Transitions (updateProbabilities mc k) = <[k := frequencies row]> (Transitions mc) ∧
  StateCounts (updateProbabilities mc k) = StateCounts mc.
Proof.
  intros Hrow Htotal Hdom. unfold updateProbabilities.
  rewrite Hrow. change (default ∅ (Some row)) with row.
  rewrite range_sum. cbv zeta.
  rewrite decide_False by done. simpl.
  by rewrite (range_store (λ c, float64 c / float64 (total row))%Q).
Qed.

Lemma chain_inv_UpdateTransition mc log a b :
  chain_inv mc log →
  chain_inv (UpdateTransition mc a b) (log ++ [(State_String a, State_String b)]).
Proof.
  intros (Hocc & Hout & Htr).
  set (s0 := State_String a). set (t0 := State_String b).
  set (row := default ∅ (StateCounts mc !! s0)).
  set (row' := <[t0 := default 0 (row !! t0) + 1]> row).
  assert (total row' = outgoing s0 log + 1) as Htotal.
  { unfold row'. rewrite total_increment. unfold row. by rewrite Hout. }
  pose proof (outgoing_nonneg s0 log) as Hnn.
  destruct (updateProbabilities_spec
              {| Transitions := Transitions mc;
                 StateCounts := <[s0 := row']> (StateCounts mc);
                 CurrentState := CurrentState mc;
                 History := History mc;
                 rand := rand mc |} s0 row') as [ET EC].
  { simpl. apply lookup_insert_eq. }
  { lia. }
  { simpl. rewrite Htr. unfold row', row.
    destruct (StateCounts mc !! s0) as [r|]; simpl.
    - unfold frequencies. rewrite dom_fmap, dom_insert. set_solver.
    - set_solver. }
  simpl in ET, EC.
  unfold UpdateTransition. fold s0 t0 row row'.
  split; [|split].
  - intros s t. rewrite EC, occurrences_snoc.
    destruct (decide (s0 = s)) as [<-|Hs].
    + rewrite lookup_insert_eq; simpl. unfold row'.
      destruct (decide (t0 = t)) as [<-|Ht].
      * rewrite lookup_insert_eq; simpl. rewrite decide_True by done.
        unfold row. by rewrite Hocc.
      * rewrite lookup_insert_ne by done. rewrite decide_False by congruence.
        unfold row. rewrite Hocc. lia.
    + rewrite lookup_insert_ne by done. rewrite decide_False by congruence.
      rewrite Hocc. lia.
  - intros s. rewrite EC, outgoing_snoc; simpl.
    destruct (decide (s0 = s)) as [<-|Hs].
    + by rewrite lookup_insert_eq.
    + rewrite lookup_insert_ne by done. rewrite Hout. lia.
  - intros s. rewrite ET, EC.
    destruct (decide (s0 = s)) as [<-|Hs].
    + by rewrite !lookup_insert_eq.
    + by rewrite !lookup_insert_ne.
Qed.

Lemma History_chain_after seed calls :
  History (chain_after seed calls) = (foldl record ([], []) calls).1.
Proof.
  unfold chain_after. induction calls as [|c calls IH] using rev_ind; [done|].
  rewrite !foldl_snoc. destruct c as [s|a b]; cbn [chain_call record fst].
  - by rewrite History_UpdateChain, IH.
  - by rewrite History_UpdateTransition, IH.
Qed.

Lemma chain_inv_after seed calls :
  chain_inv (chain_after seed calls) (recorded calls).
Proof.
  unfold recorded. induction calls as [|c calls IH] using rev_ind.
  - repeat split; intros; simpl; rewrite ?lookup_empty; done.
  - pose proof (History_chain_after seed calls) as EH.
    unfold chain_after in *. rewrite !foldl_snoc.
    destruct c as [s|a b]; cbn [chain_call record snd].
    + unfold UpdateChain. rewrite EH.
      destruct (last (foldl record ([], []) calls).1) as [prev|].
      * by apply (chain_inv_UpdateTransition _ _ prev s) in IH.
      * by rewrite app_nil_r.
    + by apply chain_inv_UpdateTransition.
Qed.

End Probabilities.

(* ================================================================== *)
(** * The analysis rollup                                              *)
(* ================================================================== *)

Section Analysis.
Import Go Feedback.

(** How often a status code occurs in a history. *)
Definition frequency (history : list State) (code : Z) : Z :=
  Z.of_nat (length (filter (λ s, StatusCode s = code) history)).

(** The distinct status codes of a history, each with its frequency. *)
Definition histogram (history : list State) : list statusCodeCount :=
  (λ code, {| Code := code; Count := frequency history code |})
    <$> remove_dups (StatusCode <$> history).

Lemma frequency_snoc history s code :
  frequency (history ++ [s]) code
  = frequency history code + (if decide (StatusCode s = code) then 1 else 0).
Proof.
  unfold frequency. rewrite filter_app, length_app, filter_cons, filter_nil.
  case_decide; simpl; lia.
Qed.

Lemma frequency_absent history code :
  code ∉ StatusCode <$> history → frequency history code = 0.
Proof.
  intros Hnot. unfold frequency.
  induction history as [|s history IH]; [done|].
  rewrite fmap_cons, not_elem_of_cons in Hnot. destruct Hnot as [Hne Hnot].
  rewrite filter_cons, decide_False by done. by apply IH.
Qed.

Lemma matchCount_accumulate (history : list State) :
  matchCount (foldl accumulate totals0 history)
  = Z.of_nat (length (filter (λ s, IsMatch s = true) history)).
Proof.
  induction history as [|s history IH] using rev_ind; [done|].
  rewrite foldl_snoc, filter_app, length_app, filter_cons, filter_nil.
  cbn [accumulate matchCount]. rewrite IH.
  destruct (IsMatch s); simpl; lia.
Qed.

Lemma statusCodes_accumulate (history : list State) (code : Z) :
  statusCodes (foldl accumulate totals0 history) !! code
  = if decide (code ∈ StatusCode <$> history)
    then Some (frequency history code) else None.
Proof.
  induction history as [|s history IH] using rev_ind.
  - case_decide as Hin; [|done]. by apply elem_of_nil in Hin.
  - rewrite foldl_snoc, fmap_app, frequency_snoc. cbn [accumulate statusCodes].
    destruct (decide (StatusCode s = code)) as [<-|Hne].
    + rewrite lookup_insert_eq, IH.
      rewrite (decide_True (P := _ ∈ _ ++ _))
        by (apply elem_of_app; right; apply list_elem_of_singleton; done).
      case_decide as Hin; simpl; [done|].
      by rewrite frequency_absent.
    + rewrite lookup_insert_ne by done. rewrite IH.
      destruct (decide (code ∈ StatusCode <$> history)) as [Hin|Hin].
      * rewrite decide_True by (apply elem_of_app; by left). f_equal. lia.
      * rewrite decide_False; [done|].
        intros [?|Hs%list_elem_of_singleton]%elem_of_app; [done|].
        by apply Hne.
Qed.

(** The entries of the status-code map are those of the histogram. *)
Lemma statusCodes_histogram (history : list State) :
  (λ kv, {| Code := kv.1; Count := kv.2 |})
    <$> map_to_list (statusCodes (foldl accumulate totals0 history))
  ≡ₚ histogram history.
Proof.
  set (pairs := (λ code, (code, frequency history code))
                  <$> remove_dups (StatusCode <$> history)).
  assert (NoDup pairs.*1) as Hnd.
  { unfold pairs. rewrite <-list_fmap_compose.
    rewrite (list_fmap_ext _ id) by done.
    rewrite list_fmap_id. apply NoDup_remove_dups. }
  assert (statusCodes (foldl accumulate totals0 history)
          = list_to_map pairs) as ->.
  { apply map_eq; intros code. rewrite statusCodes_accumulate.
    case_decide as Hin.
    - symmetry. apply elem_of_list_to_map; [done|].
      unfold pairs. apply list_elem_of_fmap. exists code.
      split; [done|]. by apply elem_of_remove_dups.
    - symmetry. apply not_elem_of_list_to_map. intros Hcode.
      unfold pairs in Hcode. rewrite <-list_fmap_compose in Hcode.
      apply list_elem_of_fmap in Hcode as (c & -> & Hc).
      apply (proj1 (elem_of_remove_dups _ _)) in Hc. exact (Hin Hc). }
  rewrite map_to_list_to_map by done.
  unfold pairs, histogram. by rewrite <-list_fmap_compose.
Qed.

Lemma Sorted_weaken {A} (R R' : A → A → Prop) (l : list A) :
  (∀ a b, R a b → R' a b) → Sorted R l → Sorted R' l.
Proof.
  intros HR. induction 1 as [|a l _ IH Hhd]; constructor; [done|].
  destruct Hhd; constructor; auto.
Qed.

Lemma by_count_StrictWeak :
  StrictWeak (λ x y : statusCodeCount, Count y <? Count x).
Proof.
  split.
  - intros x y. rewrite Z.ltb_lt, Z.ltb_ge. lia.
  - intros x y z. rewrite !Z.ltb_ge. lia.
Qed.

(** C4, as the code has it.  On an empty history the rollup is empty.
    Otherwise total_responses is the length of the history, total_matches
    the number of entries whose match flag is true, match_rate their
    quotient, and the status-code list is the first 5 (or fewer) entries of
    an arrangement of the histogram of the history by frequency, largest
    first; where two codes are equally frequent their order is whatever the
    runtime's map iteration and sort make it.  Every other field is the
    same under any runtime. *)
Theorem analyze_rollup (rt rt' : Runtime) (fc : FeedbackController) :
  let history := responseHistory fc in
  let rollup := @AnalyzeResponsePatterns rt fc in
  let matches := Z.of_nat (length (filter (λ s, IsMatch s = true) history)) in
  (history = [] → rollup = ∅) ∧
  (history ≠ [] →
   rollup !! "total_responses"%string = Some (VInt (Z.of_nat (length history))) ∧
   rollup !! "total_matches"%string = Some (VInt matches) ∧
   rollup !! "match_rate"%string
   = Some (VFloat (float64 matches / float64 (Z.of_nat (length history)))) ∧
   (∃ top rest : list statusCodeCount,
       rollup !! "top_status_codes"%string = Some (VCodes top) ∧
       length top = (5 `min` length (histogram history))%nat ∧
       top ++ rest ≡ₚ histogram history ∧
       StronglySorted (λ a b, Count b ≤ Count a) (top ++ rest)) ∧
   (∀ key : string,
       key ≠ "top_status_codes"%string →
       @AnalyzeResponsePatterns rt' fc !! key = rollup !! key)).
Proof.
  intros history rollup matches. subst rollup.
  unfold AnalyzeResponsePatterns. fold history. split.
  - intros ->. done.
  - intros Hne.
    assert (length history ≠ 0%nat) as Hlen by (by destruct history).
    rewrite !decide_False by done. cbv zeta.
    rewrite !matchCount_accumulate. fold matches.
    set (t := foldl accumulate totals0 history).
    split; [by simplify_map_eq|]. split; [by simplify_map_eq|].
    split; [by simplify_map_eq|]. split.
    + set (codes := (λ kv : Z * Z, {| Code := kv.1; Count := kv.2 |})
                      <$> range (statusCodes t)).
      set (sorted := sort_Slice _ codes).
      assert (sorted ≡ₚ histogram history) as Hperm.
      { unfold sorted. rewrite sort_Slice_perm. unfold codes.
        rewrite (range_perm Z Z). apply statusCodes_histogram. }
      exists (take (Z.to_nat (5 `min` Z.of_nat (length sorted))) sorted),
             (drop (Z.to_nat (5 `min` Z.of_nat (length sorted))) sorted).
      rewrite take_drop. split; [by simplify_map_eq|].
      split; [|split; [done|]].
      * rewrite length_take, <-(Permutation_length Hperm). lia.
      * apply Sorted_StronglySorted.
        -- intros a b c. lia.
        -- apply (Sorted_weaken
                    (λ a b : statusCodeCount, (Count a <? Count b) = false)).
           ++ intros a b. rewrite Z.ltb_ge. lia.
           ++ apply (sort_Slice_sorted _ (λ x y, Count y <? Count x)).
              apply by_count_StrictWeak.
    + intros key Hkey. by rewrite !(lookup_insert_ne _ "top_status_codes"%string).
Qed.

End Analysis.

(* ================================================================== *)
(** * Ranking the candidate actions                                    *)
(* ================================================================== *)

Section Ranking.
Import Go Markov.
Context `{rt : Runtime}.

Lemma containsString_elem_of (slice : list string) (item : string) :
  Is_true (containsString slice item) ↔ item ∈ slice.
Proof.
  induction slice as [|s slice IH]; simpl.
  - by rewrite elem_of_nil.
  - rewrite elem_of_cons. destruct (String.eqb_spec s item) as [->|Hne].
    + split; [by left | done].
    + rewrite IH. split; [by right | by intros [?|?]].
Qed.

(** *** The shuffle rearranges, nothing more *)

Lemma insert_Permutation_delete {A} (l : list A) i x y :
  l !! i = Some x → <[i := y]> l ≡ₚ y :: delete i l.
Proof.
  intros Hi. apply lookup_lt_Some in Hi.
  rewrite insert_take_drop, delete_take_drop by done.
  symmetry. apply Permutation_middle.
Qed.

Lemma swap_lt_Permutation {A} (l : list A) i j x y :
  (i < j)%nat → l !! i = Some x → l !! j = Some y →
  <[i := y]> (<[j := x]> l) ≡ₚ l.
Proof.
  revert i j. induction l as [|a l IH]; intros i j Hij Hi Hj; [done|].
  destruct j as [|j]; [lia|]. destruct i as [|i]; simpl in *.
  - injection Hi as ->.
    rewrite (insert_Permutation_delete l j y x Hj).
    rewrite (delete_Permutation l j y Hj) at 2. apply perm_swap.
  - f_equiv. apply IH; [lia|done..].
Qed.

Lemma swap_Permutation (slice : list string) i j : swap slice i j ≡ₚ slice.
Proof.
  unfold swap.
  destruct (slice !! i) as [x|] eqn:Hi; [|done].
  destruct (slice !! j) as [y|] eqn:Hj; [|done].
  destruct (Nat.lt_trichotomy i j) as [Hlt|[->|Hgt]].
  - by apply swap_lt_Permutation.
  - rewrite list_insert_insert_eq. rewrite list_insert_id; [done|congruence].
  - rewrite list_insert_insert_ne by lia. by apply swap_lt_Permutation.
Qed.

Lemma shuffle_from_Permutation i (slice : list string) :
  shuffle_from i slice ≡ₚ slice.
Proof.
  revert slice. induction i as [|i IH]; intros slice; [done|].
  cbn [shuffle_from]. rewrite IH. apply swap_Permutation.
Qed.

Lemma shuffleStrings_Permutation (slice : list string) :
  shuffleStrings slice ≡ₚ slice.
Proof. apply shuffle_from_Permutation. Qed.

(** *** The fallback selection *)

Lemma getRandomSubset_length (slice : list string) (n : nat) :
  length (getRandomSubset slice n) = (n `min` length slice)%nat.
Proof.
  unfold getRandomSubset. case_decide; [lia|].
  rewrite length_take, (Permutation_length (shuffleStrings_Permutation _)). lia.
Qed.

Lemma getRandomSubset_submseteq (slice : list string) (n : nat) :
  getRandomSubset slice n ⊆+ slice.
Proof.
  unfold getRandomSubset. case_decide; [done|].
  rewrite <-(shuffleStrings_Permutation slice) at 2.
  apply sublist_submseteq, sublist_take.
Qed.

(** *** The ranked part *)

Definition byValue : string * Q → string * Q → bool := λ x y, Qltb y.2 x.2.

Lemma byValue_StrictWeak : StrictWeak byValue.
Proof.
  unfold byValue. split.
  - intros x y. rewrite Qltb_lt, Qltb_ge. apply Qlt_le_weak.
  - intros x y z. rewrite !Qltb_ge. intros Hyx Hzy. by apply (Qle_trans _ y.2).
Qed.

Lemma rankedActions_Permutation (qs : gmap string Q) (wordlist : list string) :
  rankedActions qs wordlist
  ≡ₚ filter (λ av, av.1 ∈ wordlist) (map_to_list qs).
Proof.
  unfold rankedActions. rewrite sort_Slice_perm.
  rewrite (range_perm string Q qs).
  by rewrite (list_filter_iff _ (λ av, av.1 ∈ wordlist))
    by (intros; apply containsString_elem_of).
Qed.

Lemma rankedActions_sorted (qs : gmap string Q) (wordlist : list string) :
  StronglySorted (λ a b, (b.2 <= a.2)%Q) (rankedActions qs wordlist).
Proof.
  apply Sorted_StronglySorted.
  - intros a b c Hba Hcb. by apply (Qle_trans _ b.2).
  - apply (Sorted_weaken (λ a b, byValue b a = false)).
    + intros a b. unfold byValue. by rewrite Qltb_ge.
    + apply (sort_Slice_sorted _ byValue), byValue_StrictWeak.
Qed.

Lemma rankedActions_NoDup (qs : gmap string Q) (wordlist : list string) :
  NoDup (rankedActions qs wordlist).*1.
Proof.
  rewrite rankedActions_Permutation.
  eapply sublist_NoDup; [apply (NoDup_fst_map_to_list qs)|].
  apply fmap_sublist. apply sublist_filter.
Qed.

Lemma rankedActions_candidates (qs : gmap string Q) (wordlist : list string) a :
  a ∈ (rankedActions qs wordlist).*1 → a ∈ wordlist.
Proof.
  rewrite rankedActions_Permutation. intros Ha.
  apply list_elem_of_fmap in Ha as (av & -> & Hav).
  by apply list_elem_of_filter in Hav as [? _].
Qed.

(** *** The whole selection *)

(** The ranked actions of a state: none when the state has no Q-values. *)
Definition ranked (mc : MarkovChain) (state : State) (wordlist : list string)
  : list (string * Q) :=
  match QTable mc !! Hash state with
  | Some qs => rankedActions qs wordlist
  | None => []
  end.

Lemma GetBestActionsForState_eq mc state wordlist n :
  GetBestActionsForState mc state wordlist n
  = if decide (ranked mc state wordlist = []) then getRandomSubset wordlist n
    else
      let top := take n (ranked mc state wordlist).*1 in
      top ++ take (n - length top)
                  (shuffleStrings (filter (λ word, word ∉ top) wordlist)).
Proof.
  unfold GetBestActionsForState, ranked.
  destruct (QTable mc !! Hash state) as [qs|]; cbv zeta.
  - fold (rankedActions qs wordlist).
    set (actionValues := filter _ (range qs)).
    assert (rankedActions qs wordlist ≡ₚ actionValues) as Hperm
      by apply sort_Slice_perm.
    destruct (decide (length actionValues = 0%nat)) as [Hlen|Hlen].
    + rewrite (decide_True (P := rankedActions qs wordlist = [])); [done|].
      apply Permutation_length in Hperm. rewrite Hlen in Hperm.
      by destruct (rankedActions qs wordlist).
    + rewrite (decide_False (P := rankedActions qs wordlist = [])).
      2:{ intros E. rewrite E in Hperm. apply Permutation_length in Hperm.
          simpl in Hperm. lia. }
      set (top := take n (rankedActions qs wordlist).*1).
      rewrite (list_filter_iff _ (λ word, word ∉ top))
        by (intros; by rewrite containsString_elem_of).
      case_decide as Hn; [done|].
      replace (n - length top)%nat with 0%nat by lia.
      by rewrite take_0, app_nil_r.
  - rewrite (decide_True (P := [] = [])) by done.
    by destruct (decide (is_Some _)).
Qed.

Lemma filter_untaken_length (wordlist top : list string) :
  NoDup wordlist → NoDup top → (∀ a, a ∈ top → a ∈ wordlist) →
  length (filter (λ word, word ∉ top) wordlist)
  = (length wordlist - length top)%nat.
Proof.
  intros Hw Ht Hsub.
  assert (filter (λ word, word ∈ top) wordlist ≡ₚ top) as Htaken.
  { apply NoDup_Permutation; [by apply NoDup_filter | done |].
    intros a. rewrite list_elem_of_filter. split; [by intros [? _] | auto]. }
  pose proof (filter_app_complement (λ word, word ∈ top) wordlist) as Hsplit.
  apply Permutation_length in Hsplit, Htaken.
  rewrite length_app in Hsplit. lia.
Qed.

(** C3, as the code has it.  The ranked actions of a state are its known
    actions that are among the candidates, arranged by Q-value, largest
    first; equal Q-values come in the order the runtime's map iteration and
    sort leave them in.  When there are none, the result is the candidate
    list itself if it has at most [n] entries and otherwise the first [n]
    entries of the shuffle of the candidates, which is a rearrangement
    fixed by the length of the list.  When there are some, the result is
    the first [n] ranked actions followed, while fewer than [n], by the
    first entries of the shuffle of the candidates not yet taken.  The
    result is made of candidates, and for distinct candidates it has
    min(n, number of candidates) distinct entries. *)
Theorem best_actions_for_state (mc : MarkovChain) (state : State)
    (wordlist : list string) (n : nat) :
  let out := GetBestActionsForState mc state wordlist n in
  let ranked := ranked mc state wordlist in
  let top := take n ranked.*1 in
  (∀ qs, QTable mc !! Hash state = Some qs →
         ranked ≡ₚ filter (λ av, av.1 ∈ wordlist) (map_to_list qs)) ∧
  (QTable mc !! Hash state = None → ranked = []) ∧
  StronglySorted (λ a b, (b.2 <= a.2)%Q) ranked ∧
  (ranked = [] →
   out = (if decide (length wordlist ≤ n)%nat then wordlist
          else take n (shuffleStrings wordlist)) ∧
   length out = (n `min` length wordlist)%nat) ∧
  (ranked ≠ [] →
   out = top ++ take (n - length top)
                     (shuffleStrings (filter (λ word, word ∉ top) wordlist))) ∧
  (∀ slice, shuffleStrings slice ≡ₚ slice) ∧
  (∀ a, a ∈ out → a ∈ wordlist) ∧
  (NoDup wordlist → length out = (n `min` length wordlist)%nat ∧ NoDup out).
Proof.
  intros out rk top.
  assert (NoDup rk.*1 ∧ (∀ a, a ∈ rk.*1 → a ∈ wordlist) ∧
          StronglySorted (λ a b, (b.2 <= a.2)%Q) rk) as (Hnd & Hcand & Hsorted).
  { subst rk. unfold ranked. destruct (QTable mc !! Hash state) as [qs|].
    - split; [apply rankedActions_NoDup|].
      split; [apply rankedActions_candidates | apply rankedActions_sorted].
    - split; [constructor|]. split; [by intros a Ha%elem_of_nil | constructor]. }
  assert (NoDup top ∧ ∀ a, a ∈ top → a ∈ wordlist) as [Htop Htopc].
  { split.
    - eapply sublist_NoDup; [exact Hnd | apply sublist_take].
    - intros a Ha. apply Hcand.
      eapply elem_of_sublist; [exact Ha | apply sublist_take]. }
  pose proof (GetBestActionsForState_eq mc state wordlist n) as Eout.
  fold out rk top in Eout. cbv zeta in Eout.
  set (untaken := filter (λ word, word ∉ top) wordlist) in *.
  set (fill := take (n - length top) (shuffleStrings untaken)) in *.
  assert (∀ a, a ∈ fill → a ∈ untaken) as Hfill.
  { intros a Ha. rewrite <-(shuffleStrings_Permutation untaken).
    eapply elem_of_sublist; [exact Ha | apply sublist_take]. }
  repeat split.
  - intros qs E. subst rk. unfold ranked. rewrite E.
    apply rankedActions_Permutation.
  - intros E. subst rk. unfold ranked. by rewrite E.
  - done.
  - by rewrite Eout, decide_True.
  - rewrite Eout, decide_True by done. apply getRandomSubset_length.
  - intros E. by rewrite Eout, decide_False.
  - apply shuffleStrings_Permutation.
  - intros a. rewrite Eout. case_decide.
    + intros Ha. eapply elem_of_submseteq; [exact Ha|].
      apply getRandomSubset_submseteq.
    + rewrite elem_of_app. intros [Ha|Ha]; [by apply Htopc|].
      apply Hfill in Ha. by apply list_elem_of_filter in Ha as [_ ?].
  - rewrite Eout. case_decide; [apply getRandomSubset_length|].
    rewrite length_app. unfold fill.
    rewrite length_take, (Permutation_length (shuffleStrings_Permutation _)).
    unfold untaken. rewrite filter_untaken_length by done.
    assert (length top ≤ length wordlist)%nat
      by (apply submseteq_length, NoDup_submseteq; done).
    assert (length top ≤ n)%nat by (unfold top; rewrite length_take; lia).
    lia.
  - rewrite Eout. case_decide.
    + unfold getRandomSubset. case_decide; [done|].
      eapply sublist_NoDup; [|apply sublist_take].
      by rewrite shuffleStrings_Permutation.
    + apply NoDup_app. split; [done|]. split.
      * intros a Ha Hf. apply Hfill in Hf.
        by apply list_elem_of_filter in Hf as [? _].
      * eapply sublist_NoDup; [|apply sublist_take].
        rewrite shuffleStrings_Permutation. by apply NoDup_filter.
Qed.

End Ranking.

(* ================================================================== *)
(** * Runs on concrete inputs                                          *)
(* ================================================================== *)

(** Two actions tried from one state with the same reward: "a" first,
    then "b". *)
Definition chain_a_then_b (rt : Go.Runtime) : Markov.MarkovChain :=
  foldl (@Markov.UpdateTransition rt) Markov.NewMarkovChain
    [try_action "a" 1; try_action "b" 1].

(** The two actions have the same Q-value and "a" was seen first, yet a
    runtime that visits the Q-table the other way round ranks "b" before
    "a": the ranking never looks at [AvailableActions]. *)
Lemma ranking_tie_counterexample :
  Markov.AvailableActions (chain_a_then_b runtime_backward)
    !! Markov.Hash state_4xx = Some ["a"; "b"]%string ∧
  (Markov.GetExpectedReward (chain_a_then_b runtime_backward) state_4xx "a"
   == Markov.GetExpectedReward (chain_a_then_b runtime_backward) state_4xx "b")%Q ∧
  @Markov.GetBestActionsForState runtime_backward
    (chain_a_then_b runtime_backward) state_4xx ["a"; "b"]%string 2
  = ["b"; "a"]%string ∧
  @Markov.GetBestActionsForState runtime_forward
    (chain_a_then_b runtime_forward) state_4xx ["a"; "b"]%string 2
  = ["a"; "b"]%string.
Proof. repeat split; vm_compute; reflexivity. Qed.

(** The fallback for a state without Q-values draws nothing at random: the
    same call gives the same five candidates under either runtime. *)
Example fallback_is_fixed :
  let candidates := ["a"; "b"; "c"; "d"; "e"; "f"; "g"; "h"; "i"]%string in
  @Markov.GetBestActionsForState runtime_forward Markov.NewMarkovChain
    state_4xx candidates 5 = ["a"; "b"; "f"; "d"; "h"]%string ∧
  @Markov.GetBestActionsForState runtime_backward Markov.NewMarkovChain
    state_4xx candidates 5 = ["a"; "b"; "f"; "d"; "h"]%string.
Proof. split; vm_compute; reflexivity. Qed.

(** A 200 response, then a 404 response. *)
Definition controller_200_404 (rt : Go.Runtime) : Feedback.FeedbackController :=
  @Feedback.UpdateWithResponse rt
    (@Feedback.UpdateWithResponse rt (Feedback.NewFeedbackController seed0)
       response_200 true)
    response_404 false.

(** Both codes occur once and 200 was observed first, yet the rollup lists
    404 first under one runtime and 200 first under the other. *)
Lemma analyze_tie_counterexample :
  @Feedback.AnalyzeResponsePatterns runtime_forward
    (controller_200_404 runtime_forward) !! "top_status_codes"%string
  = Some (Feedback.VCodes
            [{| Feedback.Code := 404; Feedback.Count := 1 |};
             {| Feedback.Code := 200; Feedback.Count := 1 |}]) ∧
  @Feedback.AnalyzeResponsePatterns runtime_backward
    (controller_200_404 runtime_backward) !! "top_status_codes"%string
  = Some (Feedback.VCodes
            [{| Feedback.Code := 200; Feedback.Count := 1 |};
             {| Feedback.Code := 404; Feedback.Count := 1 |}]).
Proof. split; vm_compute; reflexivity. Qed.

(** The five responses of the test-suite, matches at 0, 2 and 4. *)
Definition test_response (i : Z) : Feedback.Response :=
  {| Feedback.RStatusCode := 200 + i `mod` 2 * 200;
     Feedback.RContentLength := 100 + i * 10;
     Feedback.RContentWords := 20 + i * 2;
     Feedback.RContentLines := 10 + i;
     Feedback.RDuration := (50 + i * 5) * 1000000 |}.

Definition controller_of_test : Feedback.FeedbackController :=
  foldl (λ fc i, Feedback.UpdateWithResponse fc (test_response i) (i `mod` 2 =? 0))
    (Feedback.NewFeedbackController seed0) [0; 1; 2; 3; 4].

Example analyze_test_suite :
  let rollup := Feedback.AnalyzeResponsePatterns controller_of_test in
  rollup !! "total_responses"%string = Some (Feedback.VInt 5) ∧
  rollup !! "total_matches"%string = Some (Feedback.VInt 3) ∧
  (∃ rate, rollup !! "match_rate"%string = Some (Feedback.VFloat rate) ∧
           (rate == 0.6)%Q) ∧
  rollup !! "top_status_codes"%string
  = Some (Feedback.VCodes
            [{| Feedback.Code := 200; Feedback.Count := 3 |};
             {| Feedback.Code := 400; Feedback.Count := 2 |}]).
Proof.
  repeat split; try (vm_compute; reflexivity).
  eexists. split; [vm_compute; reflexivity | reflexivity].
Qed.

(** Three states in a row, then the first one again and the second one
    once more: out of the first state both recorded transitions lead to
    the second. *)
Example probabilities_of_a_run :
  let s0 := stateOf (test_response 0) false in
  let s1 := stateOf (test_response 1) false in
  let s2 := stateOf (test_response 2) false in
  let mc :=
    chain_after seed0
      [CallUpdateChain s0; CallUpdateChain s1; CallUpdateChain s2;
       CallUpdateChain s0; CallUpdateChain s1; CallUpdateTransition s0 s2] in
  (Feedback.GetTransitionProbability mc s0 s1 == 2 # 3)%Q ∧
  (Feedback.GetTransitionProbability mc s0 s2 == 1 # 3)%Q ∧
  (Feedback.GetTransitionProbability mc s1 s2 == 1)%Q ∧
  (Feedback.GetTransitionProbability mc s2 s1 == 0)%Q.
Proof. repeat split; vm_compute; reflexivity. Qed.

(** The numbers above in binary64: the sums of the reward constants, the
    match rate 3/5 and the first Q-value are the literals the exact
    rationals give, so rounding changes none of them. *)
#[local] Set Warnings "-inexact-float".
Example table_values_in_binary64 :
  ((0 + 1 + 1 + 1 =? 3) && (0 + 1 + 1 =? 2) && (0 + 1 + 1 + 0.6 =? 2.6)
   && (0 + 1 + 0.8 =? 1.8) && (0 + 1 + 0.5 + 0.8 =? 2.3) && (0 + 0.5 =? 0.5)
   && (3 / 5 =? 0.6) && (0 + 0.1 * (1 + 0.9 * 0 - 0) =? 0.1))%float = true.
Proof. reflexivity. Qed.

(* ================================================================== *)
(** * Keys of states                                                   *)
(* ================================================================== *)

Section Keys.
Import Go.

(** A character occurs in a string. *)
Fixpoint occurs (c : ascii) (s : string) : bool :=
  match s with
  | EmptyString => false
  | String a rest => Ascii.eqb a c || occurs c rest
  end.

Lemma Split_free (s : string) (sep : ascii) :
  occurs sep s = false → Split s sep = [s].
Proof.
  induction s as [|a s IH]; simpl; [done|].
  intros [Ha Hs]%orb_false_elim. rewrite Ha, IH by done. done.
Qed.

Lemma Split_app (s t : string) (sep : ascii) :
  occurs sep s = false →
  Split (s +:+ String sep t) sep = s :: Split t sep.
Proof.
  induction s as [|a s IH]; simpl.
  - intros _. by rewrite Ascii.eqb_refl.
  - intros [Ha Hs]%orb_false_elim. rewrite Ha, IH by done. done.
Qed.

Lemma app_sep_inj (s1 s2 t1 t2 : string) (sep : ascii) :
  occurs sep s1 = false → occurs sep s2 = false →
  s1 +:+ String sep t1 = s2 +:+ String sep t2 → s1 = s2 ∧ t1 = t2.
Proof.
  revert s2. induction s1 as [|a s1 IH]; intros [|b s2]; simpl.
  - by intros _ _ [= ->].
  - intros _ [Hb _]%orb_false_elim [= <- _]. by rewrite Ascii.eqb_refl in Hb.
  - intros [Ha _]%orb_false_elim _ [= -> _]. by rewrite Ascii.eqb_refl in Ha.
  - intros [_ H1]%orb_false_elim [_ H2]%orb_false_elim [= -> E].
    by destruct (IH _ H1 H2 E) as [-> ->].
Qed.

Lemma occurs_string_of_uint (d : Decimal.uint) :
  occurs "_" (DecimalString.NilEmpty.string_of_uint d) = false.
Proof. induction d; simpl; done. Qed.

Lemma Sprintf_d_no_underscore (z : Z) : occurs "_" (Sprintf_d z) = false.
Proof.
  unfold Sprintf_d. destruct z as [|p|p]; simpl; [done| |].
  - unfold DecimalString.NilZero.string_of_uint.
    destruct (Pos.to_uint p); apply (occurs_string_of_uint (_ _)) || done.
  - unfold DecimalString.NilZero.string_of_uint.
    destruct (Pos.to_uint p); apply (occurs_string_of_uint (_ _)) || done.
Qed.

Lemma Sprintf_t_inj (b1 b2 : bool) : Sprintf_t b1 = Sprintf_t b2 → b1 = b2.
Proof. by destruct b1, b2. Qed.

(** *** Reading a number back *)

Lemma string_of_uint_head (d : Decimal.uint) :
  d ≠ Decimal.Nil →
  ∃ a rest, DecimalString.NilEmpty.string_of_uint d = String a rest ∧
            Ascii.eqb a "+" = false ∧ Ascii.eqb a "-" = false.
Proof. destruct d; [done|..]; intros _; simpl; eauto. Qed.

Lemma ParseInt_digits (d : Decimal.uint) :
  d ≠ Decimal.Nil →
  ParseInt (DecimalString.NilEmpty.string_of_uint d)
  = if 2 ^ 63 <=? Z.of_uint d then 2 ^ 63 - 1 else Z.of_uint d.
Proof.
  intros Hd. destruct (string_of_uint_head d Hd) as (a & rest & E & Hp & Hm).
  unfold ParseInt. rewrite E, Hp, Hm. cbn [orb]. rewrite <-E.
  by rewrite DecimalString.NilEmpty.usu.
Qed.

Lemma ParseInt_Sprintf_d (z : Z) :
  - 2 ^ 63 ≤ z < 2 ^ 63 → ParseInt (Sprintf_d z) = z.
Proof.
  intros Hz. unfold Sprintf_d.
  pose proof (DecimalZ.of_to z) as Hof.
  destruct z as [|p|p]; [done| |].
  - simpl in *. pose proof (DecimalPos.Unsigned.to_uint_nonnil p) as Hnil.
    unfold DecimalString.NilZero.string_of_uint.
    replace (match Pos.to_uint p with Decimal.Nil => "0"%string | _ =>
               DecimalString.NilEmpty.string_of_uint (Pos.to_uint p) end)
      with (DecimalString.NilEmpty.string_of_uint (Pos.to_uint p))
      by (by destruct (Pos.to_uint p)).
    rewrite ParseInt_digits, Hof by done.
    destruct (Z.leb_spec (2 ^ 63) (Z.pos p)); [lia | done].
  - simpl in *. pose proof (DecimalPos.Unsigned.to_uint_nonnil p) as Hnil.
    unfold DecimalString.NilZero.string_of_uint.
    replace (match Pos.to_uint p with Decimal.Nil => "0"%string | _ =>
               DecimalString.NilEmpty.string_of_uint (Pos.to_uint p) end)
      with (DecimalString.NilEmpty.string_of_uint (Pos.to_uint p))
      by (by destruct (Pos.to_uint p)).
    destruct (string_of_uint_head _ Hnil) as (a & rest & E & _ & _).
    unfold ParseInt. cbn [Ascii.eqb orb]. simpl Ascii.eqb.
    rewrite E, <-E, DecimalString.NilEmpty.usu.
    assert (Z.of_uint (Pos.to_uint p) = Z.pos p) as -> by lia.
    destruct (Z.ltb_spec (2 ^ 63) (Z.pos p)); [lia | done].
Qed.

(** *** Keys of the Q-learning chain *)

Lemma Hash_unfold (s : Markov.State) :
  Markov.Hash s
  = Markov.CodeClass s
    +:+ String "_" (Markov.SizeBucket s
                    +:+ String "_" (Sprintf_d (Markov.Depth s))).
Proof. reflexivity. Qed.

Lemma Hash_inj_no_underscore (s1 s2 : Markov.State) :
  occurs "_" (Markov.CodeClass s1) = false →
  occurs "_" (Markov.CodeClass s2) = false →
  occurs "_" (Markov.SizeBucket s1) = false →
  occurs "_" (Markov.SizeBucket s2) = false →
  Markov.Hash s1 = Markov.Hash s2 → s1 = s2.
Proof.
  intros Hc1 Hc2 Hb1 Hb2. rewrite !Hash_unfold. intros E.
  apply app_sep_inj in E as [Ec E]; [|done..].
  apply app_sep_inj in E as [Eb Ed%Sprintf_d_inj]; [|done..].
  destruct s1, s2; simpl in *; congruence.
Qed.

Lemma classified_no_underscore (resp : Markov.Response) (depth : Z) :
  let s := Markov.GetStateFromResponseFromResponseStruct resp depth in
  occurs "_" (Markov.CodeClass s) = false ∧
  occurs "_" (Markov.SizeBucket s) = false.
Proof.
  split.
  - unfold Markov.GetStateFromResponseFromResponseStruct.
    cbn [Markov.CodeClass]. by repeat destruct (_ && _).
  - cbn [Markov.GetStateFromResponseFromResponseStruct Markov.SizeBucket].
    unfold Markov.quantizeSize. rewrite QuantizeSize_bucket.
    apply Sprintf_d_no_underscore.
Qed.

(** X1.  Two classified responses have the same key exactly when they are
    classified as the same state: same code class, same size bucket, same
    depth. *)
Theorem Hash_classified_inj (resp1 resp2 : Markov.Response) (depth1 depth2 : Z) :
  Markov.Hash (Markov.GetStateFromResponseFromResponseStruct resp1 depth1)
  = Markov.Hash (Markov.GetStateFromResponseFromResponseStruct resp2 depth2)
  ↔ Markov.GetStateFromResponseFromResponseStruct resp1 depth1
    = Markov.GetStateFromResponseFromResponseStruct resp2 depth2.
Proof.
  split; [|by intros ->].
  destruct (classified_no_underscore resp1 depth1) as [Hc1 Hb1].
  destruct (classified_no_underscore resp2 depth2) as [Hc2 Hb2].
  by apply Hash_inj_no_underscore.
Qed.

(** *** Keys of the raw-state chain *)

Lemma State_String_unfold (s : Feedback.State) :
  Feedback.State_String s
  = Sprintf_d (Feedback.StatusCode s)
    +:+ String "_" (Sprintf_d (Feedback.ContentLength s)
    +:+ String "_" (Sprintf_d (Feedback.ContentWords s)
    +:+ String "_" (Sprintf_d (Feedback.ContentLines s)
    +:+ String "_" (Sprintf_d (Feedback.Milliseconds (Feedback.Duration s))
    +:+ String "_" (Sprintf_t (Feedback.IsMatch s)))))).
Proof. reflexivity. Qed.

(** X2.  Two raw states have the same key exactly when they agree on the
    status code, the three content measures, the match flag and the
    duration in whole milliseconds; what the durations have below a
    millisecond does not reach the key. *)
Theorem State_String_inj (s1 s2 : Feedback.State) :
  Feedback.State_String s1 = Feedback.State_String s2
  ↔ Feedback.StatusCode s1 = Feedback.StatusCode s2 ∧
    Feedback.ContentLength s1 = Feedback.ContentLength s2 ∧
    Feedback.ContentWords s1 = Feedback.ContentWords s2 ∧
    Feedback.ContentLines s1 = Feedback.ContentLines s2 ∧
    Feedback.Milliseconds (Feedback.Duration s1)
    = Feedback.Milliseconds (Feedback.Duration s2) ∧
    Feedback.IsMatch s1 = Feedback.IsMatch s2.
Proof.
  rewrite !State_String_unfold. split.
  - intros E.
    apply app_sep_inj in E as [E1%Sprintf_d_inj E];
      [|apply Sprintf_d_no_underscore..].
    apply app_sep_inj in E as [E2%Sprintf_d_inj E];
      [|apply Sprintf_d_no_underscore..].
    apply app_sep_inj in E as [E3%Sprintf_d_inj E];
      [|apply Sprintf_d_no_underscore..].
    apply app_sep_inj in E as [E4%Sprintf_d_inj E];
      [|apply Sprintf_d_no_underscore..].
    apply app_sep_inj in E as [E5%Sprintf_d_inj E6%Sprintf_t_inj];
      [|apply Sprintf_d_no_underscore..].
    done.
  - by intros (-> & -> & -> & -> & -> & ->).
Qed.

Definition in_int64 (z : Z) : Prop := - 2 ^ 63 ≤ z < 2 ^ 63.

Lemma wrap64_small (z : Z) : in_int64 z → wrap64 z = z.
Proof.
  unfold in_int64, wrap64. intros Hz.
  rewrite Z.mod_small by lia. lia.
Qed.

Lemma Split_State_String (s : Feedback.State) :
  Split (Feedback.State_String s) "_"
  = [Sprintf_d (Feedback.StatusCode s);
     Sprintf_d (Feedback.ContentLength s);
     Sprintf_d (Feedback.ContentWords s);
     Sprintf_d (Feedback.ContentLines s);
     Sprintf_d (Feedback.Milliseconds (Feedback.Duration s));
     Sprintf_t (Feedback.IsMatch s)].
Proof.
  rewrite State_String_unfold.
  rewrite !Split_app by apply Sprintf_d_no_underscore.
  rewrite Split_free; [done|]. by destruct (Feedback.IsMatch s).
Qed.

(** X3.  Reading the key of a state back gives the state, its duration cut
    to whole milliseconds; the numbers are those of an [int64]. *)
Theorem StringToState_State_String (s : Feedback.State) :
  in_int64 (Feedback.StatusCode s) →
  in_int64 (Feedback.ContentLength s) →
  in_int64 (Feedback.ContentWords s) →
  in_int64 (Feedback.ContentLines s) →
  in_int64 (Feedback.Duration s) →
  Feedback.StringToState (Feedback.State_String s)
  = {| Feedback.StatusCode := Feedback.StatusCode s;
       Feedback.ContentLength := Feedback.ContentLength s;
       Feedback.ContentWords := Feedback.ContentWords s;
       Feedback.ContentLines := Feedback.ContentLines s;
       Feedback.Duration :=
         Feedback.Milliseconds (Feedback.Duration s) * 1000000;
       Feedback.IsMatch := Feedback.IsMatch s |}.
Proof.
  intros H1 H2 H3 H4 H5. unfold Feedback.StringToState.
  rewrite Split_State_String.
  assert (in_int64 (Feedback.Milliseconds (Feedback.Duration s))
          ∧ in_int64 (Feedback.Milliseconds (Feedback.Duration s) * 1000000))
    as [Hms Hns].
  { unfold in_int64, Feedback.Milliseconds in *.
    Z.quot_rem_to_equations. lia. }
  rewrite !ParseInt_Sprintf_d by done.
  rewrite wrap64_small by done.
  f_equal. by destruct (Feedback.IsMatch s).
Qed.

End Keys.

Lemma StringToState_State_String_witness :
  Feedback.StringToState
    (Feedback.State_String (stateOf response_404 false))
  = {| Feedback.StatusCode := 404;
       Feedback.ContentLength := 50;
       Feedback.ContentWords := 10;
       Feedback.ContentLines := 5;
       Feedback.Duration := Feedback.Milliseconds 30000000 * 1000000;
       Feedback.IsMatch := false |}.
Proof.
  apply (StringToState_State_String (stateOf response_404 false));
    unfold in_int64; simpl; lia.
Defined.

(* ================================================================== *)
(** * Transition probabilities, state by state                         *)
(* ================================================================== *)

Section Frequencies.
Context `{rt : Go.Runtime}.
Import Go Feedback.

(** Two states that the chain cannot tell apart: they are equal but for
    what their durations have below a millisecond. *)
Definition alike (s1 s2 : State) : Prop :=
  StatusCode s1 = StatusCode s2 ∧
  ContentLength s1 = ContentLength s2 ∧
  ContentWords s1 = ContentWords s2 ∧
  ContentLines s1 = ContentLines s2 ∧
  Milliseconds (Duration s1) = Milliseconds (Duration s2) ∧
  IsMatch s1 = IsMatch s2.

#[global] Instance alike_dec (s1 s2 : State) : Decision (alike s1 s2).
Proof. unfold alike. apply _. Defined.

(** The transitions that a sequence of calls records, as pairs of states,
    kept next to the history that [UpdateChain] builds up. *)
Definition observe (acc : list State * list (State * State)) (c : ChainCall)
  : list State * list (State * State) :=
  match c with
  | CallUpdateChain newState =>
      (acc.1 ++ [newState],
       acc.2 ++ match last acc.1 with
                | Some prevState => [(prevState, newState)]
                | None => []
                end)
  | CallUpdateTransition currentState nextState =>
      (acc.1, acc.2 ++ [(currentState, nextState)])
  end.

Definition observed (calls : list ChainCall) : list (State * State) :=
  (foldl observe ([], []) calls).2.

(** How many of the recorded transitions lead from a state like [s] to a
    state like [t], and how many lead out of a state like [s]. *)
Definition seen (s t : State) (log : list (State * State)) : Z :=
  Z.of_nat (length (filter (λ p, alike p.1 s ∧ alike p.2 t) log)).

Definition seenFrom (s : State) (log : list (State * State)) : Z :=
  Z.of_nat (length (filter (λ p, alike p.1 s) log)).

Definition keys (p : State * State) : string * string :=
  (State_String p.1, State_String p.2).

Lemma same_key (s1 s2 : State) :
  State_String s1 = State_String s2 ↔ alike s1 s2.
Proof.
  unfold alike. rewrite !State_String_unfold. split.
  - intros E.
    apply app_sep_inj in E as [E1%Sprintf_d_inj E];
      [|apply Sprintf_d_no_underscore..].
    apply app_sep_inj in E as [E2%Sprintf_d_inj E];
      [|apply Sprintf_d_no_underscore..].
    apply app_sep_inj in E as [E3%Sprintf_d_inj E];
      [|apply Sprintf_d_no_underscore..].
    apply app_sep_inj in E as [E4%Sprintf_d_inj E];
      [|apply Sprintf_d_no_underscore..].
    apply app_sep_inj in E as [E5%Sprintf_d_inj E6%Sprintf_t_inj];
      [|apply Sprintf_d_no_underscore..].
    done.
  - by intros (-> & -> & -> & -> & -> & ->).
Qed.

Lemma recorded_observed (calls : list ChainCall) :
  foldl record ([], []) calls
  = ((foldl observe ([], []) calls).1, keys <$> (foldl observe ([], []) calls).2).
Proof.
  induction calls as [|c calls IH] using rev_ind; [done|].
  rewrite !foldl_snoc, IH.
  destruct c as [newState|currentState nextState]; cbn [record observe fst snd].
  - rewrite fmap_app. by destruct (last _).
  - by rewrite fmap_app.
Qed.

Lemma occurrences_seen (s t : State) (log : list (State * State)) :
  occurrences (State_String s) (State_String t) (keys <$> log) = seen s t log.
Proof.
  unfold occurrences, seen. f_equal.
  induction log as [|[a b] log IH]; [done|].
  rewrite fmap_cons, !filter_cons.
  change (keys (a, b)) with (State_String a, State_String b). cbn [fst snd].
  destruct (decide (alike a s ∧ alike b t)) as [[Ha Hb]|Hno].
  - rewrite decide_True; [simpl; by rewrite IH|].
    apply same_key in Ha, Hb. congruence.
  - rewrite decide_False; [done|].
    intros [= Ha%same_key Hb%same_key]. by apply Hno.
Qed.

Lemma outgoing_seenFrom (s : State) (log : list (State * State)) :
  outgoing (State_String s) (keys <$> log) = seenFrom s log.
Proof.
  unfold outgoing, seenFrom. f_equal.
  induction log as [|[a b] log IH]; [done|].
  rewrite fmap_cons, !filter_cons.
  change (keys (a, b)) with (State_String a, State_String b). cbn [fst snd].
  destruct (decide (alike a s)) as [Ha|Hno].
  - rewrite decide_True; [simpl; by rewrite IH|]. by apply same_key.
  - rewrite decide_False; [done|]. by intros Ha%same_key.
Qed.

(** C10, as the code has it.  The chain knows a state by its key, which
    keeps the duration in whole milliseconds only.  After any sequence of
    [UpdateChain] and [UpdateTransition] calls on a new chain, the
    probability of a transition from [fromState] to [toState] is 0.0 when
    no transition was recorded from a state like the one to a state like
    the other, and otherwise the number of such transitions divided by the
    number of transitions recorded out of states like [fromState].  The
    probabilities stored for [fromState] are the counts of its row, each
    divided by the same total, and the counts add up to that total. *)
Theorem transition_probability_is_frequency (seed : Rand)
    (calls : list ChainCall) (fromState toState : State) :
  let mc := chain_after seed calls in
  let n := seen fromState toState (observed calls) in
  let out := seenFrom fromState (observed calls) in
  0 ≤ n ≤ out ∧
  (GetTransitionProbability mc fromState toState
   == if decide (n = 0%Z) then 0 else float64 n / float64 out)%Q ∧
  (0 < out →
   ∃ row,
     StateCounts mc !! State_String fromState = Some row ∧
     Transitions mc !! State_String fromState
     = Some ((λ c, float64 c / float64 out)%Q <$> row) ∧
     sumZ (map_to_list row).*2 = out).
Proof.
  intros mc n out.
  destruct (chain_inv_after seed calls) as (Hocc & Hout & Htr).
  fold mc in Hocc, Hout, Htr.
  specialize (Hocc (State_String fromState) (State_String toState)).
  specialize (Hout (State_String fromState)).
  specialize (Htr (State_String fromState)).
  pose proof (occurrences_le_outgoing (State_String fromState)
                (State_String toState) (recorded calls)) as Hle.
  unfold recorded in Hocc, Hout, Hle. rewrite recorded_observed in Hocc, Hout, Hle.
  cbn [snd] in Hocc, Hout, Hle.
  rewrite occurrences_seen in Hocc, Hle. rewrite outgoing_seenFrom in Hout, Hle.
  fold (observed calls) in Hocc, Hout, Hle. fold n in Hocc, Hle.
  fold out in Hout, Hle.
  split; [done|].
  unfold GetTransitionProbability. rewrite Htr.
  destruct (StateCounts mc !! State_String fromState) as [row|]; simpl in *.
  - split.
    + unfold frequencies. rewrite lookup_fmap.
      destruct (row !! State_String toState) as [c|]; simpl in *.
      * subst c. rewrite Hout. case_decide as E; [|reflexivity].
        rewrite E. unfold float64, Qdiv. ring.
      * by rewrite decide_True.
    + intros Hpos. exists row. split; [done|]. split; [|exact Hout].
      unfold frequencies. by rewrite Hout.
  - rewrite lookup_empty in Hocc; simpl in Hocc.
    rewrite decide_True by done. split; [reflexivity|].
    rewrite total_empty in Hout. lia.
Qed.

End Frequencies.

(** Two states 1 ns apart share a key.  After a transition from the one to
    [t] and from the other to [u], the chain gives the never recorded
    transition from the first to [u] the probability 1/2, and 1/2 also to
    the only transition that was recorded out of the first.  Six
    transitions out of a state to six different states get 1/6 each; the
    [float64] values that the program stores for them add up to less than
    1 when they are added one by one from 0.0, as [GetNextState] adds
    them, so the stored probabilities out of a state need not sum to 1. *)
#[local] Set Warnings "-inexact-float".
Lemma states_merged_counterexample :
  let s1 := stateOf response_200 false in
  let s2 :=
    {| Feedback.StatusCode := 200; Feedback.ContentLength := 100;
       Feedback.ContentWords := 20; Feedback.ContentLines := 10;
       Feedback.Duration := 50000001; Feedback.IsMatch := false |} in
  let t := stateOf response_404 false in
  let u := stateOf response_404 true in
  let calls := [CallUpdateTransition s1 t; CallUpdateTransition s2 u] in
  let mc := chain_after seed0 calls in
  s1 ≠ s2 ∧
  observed calls = [(s1, t); (s2, u)] ∧
  (Feedback.GetTransitionProbability mc s1 u == 1 # 2)%Q ∧
  (Feedback.GetTransitionProbability mc s1 t == 1 # 2)%Q ∧
  let successor i := stateOf (test_response i) false in
  let sixths :=
    chain_after seed0
      ((λ i, CallUpdateTransition s1 (successor i)) <$> [0; 1; 2; 3; 4; 5]) in
  Forall (λ i, (Feedback.GetTransitionProbability sixths s1 (successor i)
                == 1 # 6)%Q) [0; 1; 2; 3; 4; 5] ∧
  (0 + 1 / 6 + 1 / 6 + 1 / 6 + 1 / 6 + 1 / 6 + 1 / 6 <? 1)%float = true.
Proof.
  cbv zeta. split; [discriminate|]. split; [reflexivity|].
  split; [vm_compute; reflexivity|]. split; [vm_compute; reflexivity|].
  split; [|vm_compute; reflexivity].
  repeat constructor; vm_compute; reflexivity.
Qed.

(* ================================================================== *)
(** * What rewards and Q-values can be                                 *)
(* ================================================================== *)

Section RewardRange.
Import Go Markov.

(** A client error other than 401 and 403. *)
Definition plainClientError (status : Z) : Prop :=
  400 ≤ status < 500 ∧ status ≠ 401 ∧ status ≠ 403.

Lemma rewardTable_cases (status : Z) (differs : bool) :
  (plainClientError status ∧
   rewardTable status differs = if differs then 0.5%Q else 0.0%Q) ∨
  (¬ plainClientError status ∧
   rewardTable status differs ∈ [3.0; 2.3; 1.8; 2.6; 2.0]%Q).
Proof.
  unfold rewardTable, plainClientError.
  repeat match goal with
         | |- context [?a <? ?b] => destruct (Z.ltb_spec a b)
         | |- context [?a <=? ?b] => destruct (Z.leb_spec a b)
         | |- context [?a =? ?b] => destruct (Z.eqb_spec a b)
         end; simpl;
    first [ left; split; [lia | reflexivity]
          | right; split; [lia | destruct differs; set_solver] ].
Qed.

(** X4.  A reward lies between 0.0 and 3.0.  A client error other than 401
    and 403 earns at most 0.5, every other response at least 1.8: whatever
    the baseline, a response that is not a plain client error outranks one
    that is. *)
Theorem reward_separates (resp : Response) (baselineState : State)
    (baselineSizeHash : string) :
  let reward :=
    CalculateRewardFromResponseStruct resp baselineState baselineSizeHash in
  (0 <= reward <= 3)%Q ∧
  (plainClientError (StatusCode resp) → (reward <= 0.5)%Q) ∧
  (¬ plainClientError (StatusCode resp) → (1.8 <= reward)%Q).
Proof.
  intros reward. subst reward.
  rewrite CalculateReward_rewardTable.
  destruct (rewardTable_cases (StatusCode resp)
              (differsFromBaseline resp baselineState baselineSizeHash))
    as [[Hp ->]|[Hp Hin]].
  - destruct (differsFromBaseline _ _ _); repeat split; try done;
      unfold Qle; simpl; lia.
  - repeat (apply elem_of_cons in Hin as [->|Hin]);
      [..|by apply elem_of_nil in Hin];
      repeat split; try done; unfold Qle; simpl; lia.
Qed.

End RewardRange.

Section QValues.
Import Go Markov.
Context `{rt : Runtime}.

(** *** The largest Q-value of the next state *)

Lemma max_loop_spec (l : list (string * Q)) :
  let m := foldl (λ mx kv, if Qltb mx kv.2 then kv.2 else mx) 0%Q l in
  (0 <= m)%Q ∧ (∀ kv, kv ∈ l → (kv.2 <= m)%Q) ∧
  (m = 0%Q ∨ ∃ kv, kv ∈ l ∧ m = kv.2).
Proof.
  induction l as [|x l IH] using rev_ind; simpl.
  - split; [done|]. split; [by intros kv ?%elem_of_nil | by left].
  - rewrite foldl_snoc. simpl in IH. destruct IH as (H0 & Hle & Hex).
    set (m := foldl _ 0%Q l) in *.
    destruct (Qltb m x.2) eqn:E.
    + apply Qltb_lt in E. split; [lra|]. split.
      * intros kv [Hkv| ->%list_elem_of_singleton]%elem_of_app; [|lra].
        specialize (Hle kv Hkv). lra.
      * right. exists x. split; [|done].
        apply elem_of_app. right. by apply list_elem_of_singleton.
    + apply Qltb_ge in E. split; [done|]. split.
      * intros kv [Hkv| ->%list_elem_of_singleton]%elem_of_app; auto.
      * destruct Hex as [?|(kv & Hkv & ?)]; [by left|].
        right. exists kv. split; [|done]. apply elem_of_app. by left.
Qed.

Lemma maxNextQ_spec (qt : gmap string (gmap string Q))
    (toStateKey : string) :
  let m := maxNextQ qt toStateKey in
  let row := default ∅ (qt !! toStateKey) in
  (0 <= m)%Q ∧
  (∀ a q, row !! a = Some q → (q <= m)%Q) ∧
  (m = 0%Q ∨ ∃ a, row !! a = Some m).
Proof.
  intros m row. subst m row. unfold maxNextQ.
  destruct (qt !! toStateKey) as [nextQs|]; simpl.
  2:{ split; [done|]. split; [by intros a q; rewrite lookup_empty | by left]. }
  case_decide as Hsize.
  - destruct (max_loop_spec (range nextQs)) as (H0 & Hle & Hex).
    split; [done|]. split.
    + intros a q Hq. apply (Hle (a, q)).
      rewrite (range_perm string Q nextQs). by apply elem_of_map_to_list.
    + destruct Hex as [?|([a q] & Hin & ?)]; [by left|]. right. exists a.
      rewrite (range_perm string Q nextQs) in Hin.
      apply elem_of_map_to_list in Hin. simpl in *. congruence.
  - assert (nextQs = ∅) as -> by (apply map_size_empty_inv; lia).
    split; [done|]. split; [by intros a q; rewrite lookup_empty | by left].
Qed.

(** *** Bounds on Q-values *)

(** Every Q-value of the chain lies between 0 and [bound]. *)
Definition QTable_within (bound : Q) (mc : MarkovChain) : Prop :=
  ∀ s row a q, QTable mc !! s = Some row → row !! a = Some q →
               (0 <= q <= bound)%Q.

Lemma maxNextQ_within (bound : Q) (qt : gmap string (gmap string Q)) k :
  (0 <= bound)%Q →
  (∀ row a q, qt !! k = Some row → row !! a = Some q → (0 <= q <= bound)%Q) →
  (0 <= maxNextQ qt k <= bound)%Q.
Proof.
  intros Hb Hrow.
  destruct (maxNextQ_spec qt k) as (H0 & _ & Hex).
  split; [done|]. destruct Hex as [->|(a & Ha)]; [done|].
  destruct (qt !! k) as [row|] eqn:E; simpl in Ha.
  - by apply (Hrow row a _ eq_refl Ha).
  - by rewrite lookup_empty in Ha.
Qed.

Lemma QTable_within_UpdateTransition (reward_max : Q) mc transition :
  (0 <= reward_max)%Q →
  Alpha mc = 0.1%Q → Gamma mc = 0.9%Q →
  (0 <= Reward transition <= reward_max)%Q →
  QTable_within (10 * reward_max) mc →
  QTable_within (10 * reward_max) (UpdateTransition mc transition).
Proof.
  intros HR Ha Hg Hr Hin s row a q.
  rewrite QTable_UpdateTransition. case_decide as Hs.
  - intros [= <-]. rewrite lookup_insert. case_decide as Hact.
    + intros [= <-]. unfold newQValue. rewrite Ha, Hg. cbv zeta.
      set (from := Hash (FromState transition)).
      set (old := default 0%Q (default ∅ (QTable mc !! from) !! _)).
      assert (0 <= old <= 10 * reward_max)%Q as Hold.
      { subst old. destruct (QTable mc !! from) as [r|] eqn:Er; simpl.
        - destruct (r !! Token (Act transition)) as [q0|] eqn:Eq; simpl.
          + by eapply (Hin from r).
          + lra.
        - rewrite lookup_empty; simpl. lra. }
      assert (0 <= maxNextQ (ensure from ∅ (QTable mc))
                     (Hash (ToState transition)) <= 10 * reward_max)%Q as Hmx.
      { apply maxNextQ_within; [lra|]. intros r a0 q0.
        rewrite ensure_lookup. case_decide as E.
        - intros [= <-]. destruct (QTable mc !! from) as [r|] eqn:Er; simpl.
          + by eapply (Hin from r).
          + by rewrite lookup_empty.
        - by eapply Hin. }
      lra.
    + intros Hq. destruct (QTable mc !! Hash (FromState transition))
        as [r|] eqn:Er; simpl in Hq.
      * by eapply (Hin _ r a q).
      * by rewrite lookup_empty in Hq.
  - by apply Hin.
Qed.

Lemma Gamma_run (ts : list Transition) :
  Gamma (foldl UpdateTransition NewMarkovChain ts) = 0.9%Q.
Proof.
  induction ts as [|t ts IH] using rev_ind; [done|].
  by rewrite foldl_snoc.
Qed.

(** X6.  When every reward lies between 0 and [reward_max], every Q-value
    of a chain built from [NewMarkovChain] lies between 0 and
    10 * [reward_max], however many updates are made. *)
Theorem QTable_bounded (reward_max : Q) (ts : list Transition) :
  (0 <= reward_max)%Q →
  Forall (λ t, (0 <= Reward t <= reward_max)%Q) ts →
  QTable_within (10 * reward_max) (foldl UpdateTransition NewMarkovChain ts).
Proof.
  intros HR. induction ts as [|t ts IH] using rev_ind; intros Hts.
  - intros s row a q. simpl. by rewrite lookup_empty.
  - apply Forall_app in Hts as [Hts Ht]. rewrite Forall_singleton in Ht.
    rewrite foldl_snoc.
    apply QTable_within_UpdateTransition;
      [done | apply Alpha_run | apply Gamma_run | exact Ht | by apply IH].
Qed.

End QValues.

(** X5.  The discount term of an update is the largest Q-value recorded for
    the next state, and never less than 0.0: it bounds every such value
    from above, and is 0.0 or one of them; negative Q-values never lower
    it, and it comes out the same under any two runtimes. *)
Theorem maxNextQ_is_maximum (rt rt' : Go.Runtime)
    (qt : gmap string (gmap string Q)) (toStateKey : string) :
  let m := @Markov.maxNextQ rt qt toStateKey in
  let row := default ∅ (qt !! toStateKey) in
  (0 <= m)%Q ∧
  (∀ a q, row !! a = Some q → (q <= m)%Q) ∧
  (m = 0%Q ∨ ∃ a, row !! a = Some m) ∧
  (m == @Markov.maxNextQ rt' qt toStateKey)%Q.
Proof.
  intros m row.
  destruct (@maxNextQ_spec rt qt toStateKey) as (H0 & Hle & Hex).
  destruct (@maxNextQ_spec rt' qt toStateKey) as (H0' & Hle' & Hex').
  fold m row in H0, Hle, Hex. fold row in Hle', Hex'.
  split; [done|]. split; [done|]. split; [done|].
  apply Qle_antisym.
  - destruct Hex as [->|(a & Ha)]; [done | by apply (Hle' a)].
  - destruct Hex' as [->|(a & Ha)]; [done | by apply (Hle a)].
Qed.

Lemma QTable_bounded_witness :
  QTable_within (10 * 1)
    (foldl Markov.UpdateTransition Markov.NewMarkovChain
       [try_action "a" 1; try_action "b" 1]).
Proof.
  apply (QTable_bounded 1 [try_action "a" 1; try_action "b" 1]).
  - done.
  - repeat constructor; done.
Defined.

(* ================================================================== *)
(** * The books of the Q-learning chain                                *)
(* ================================================================== *)

Section Bookkeeping.
Import Go Markov.
Context `{rt : Runtime}.

(** The calls on an adapter that change its learning state. *)
Inductive AdapterCall :=
| AdapterRecord (inputs : gmap string (list byte)) (resp : Response)
| AdapterSetBaseline (baselineState : State) (baselineSizeHash : string).

Definition adapter_call (mip : MarkovInputProvider) (c : AdapterCall)
  : MarkovInputProvider :=
  match c with
  | AdapterRecord inputs resp => UpdateWithResponse mip inputs resp
  | AdapterSetBaseline st sizeHash => SetBaseline mip st sizeHash
  end.

Definition adapter_run (baselineState : State) (baselineSizeHash : string)
    (depth : Z) (calls : list AdapterCall) : MarkovInputProvider :=
  foldl adapter_call
    (NewMarkovInputProvider baselineState baselineSizeHash depth) calls.

Lemma reward_range (resp : Response) (baselineState : State)
    (baselineSizeHash : string) :
  (0 <= CalculateRewardFromResponseStruct resp baselineState baselineSizeHash
   <= 3)%Q.
Proof.
  rewrite CalculateReward_rewardTable.
  destruct (rewardTable_cases (StatusCode resp)
              (differsFromBaseline resp baselineState baselineSizeHash))
    as [[_ ->]|[_ Hin]].
  - destruct (differsFromBaseline _ _ _); unfold Qle; simpl; lia.
  - repeat (apply elem_of_cons in Hin as [->|Hin]);
      [..|by apply elem_of_nil in Hin]; unfold Qle; simpl; lia.
Qed.

(** X7.  Whatever responses an adapter records and however its baseline is
    reset in between, every Q-value of its chain lies between 0 and 30. *)
Theorem adapter_QTable_bounded (baselineState : State)
    (baselineSizeHash : string) (depth : Z) (calls : list AdapterCall) :
  QTable_within 30
    (Chain (adapter_run baselineState baselineSizeHash depth calls)).
Proof.
  unfold adapter_run.
  enough (QTable_within (10 * 3) (Chain (foldl adapter_call
            (NewMarkovInputProvider baselineState baselineSizeHash depth) calls))
          ∧ Alpha (Chain (foldl adapter_call
            (NewMarkovInputProvider baselineState baselineSizeHash depth) calls))
            = 0.1%Q
          ∧ Gamma (Chain (foldl adapter_call
            (NewMarkovInputProvider baselineState baselineSizeHash depth) calls))
            = 0.9%Q) as [G _] by exact G.
  induction calls as [|c calls (IH & Ha & Hg)] using rev_ind.
  - split; [|done]. intros s row a q. simpl. by rewrite lookup_empty.
  - rewrite foldl_snoc. destruct c as [inputs resp|st sizeHash]; [|done].
    split; [|done]. cbn [adapter_call].
    unfold UpdateWithResponse, AddTransition. cbn [Chain].
    apply QTable_within_UpdateTransition; [done..| |done].
    apply reward_range.
Qed.

(** *** How often things were seen *)

Definition fromCount (s : string) (ts : list Transition) : Z :=
  Z.of_nat (length (filter (λ t, Hash (FromState t) = s) ts)).

Definition actionCount (s a : string) (ts : list Transition) : Z :=
  Z.of_nat (length (filter (λ t, Hash (FromState t) = s ∧ Token (Act t) = a) ts)).

Definition transitionCount (s a s' : string) (ts : list Transition) : Z :=
  Z.of_nat
    (length (filter (λ t, Hash (FromState t) = s ∧ Token (Act t) = a ∧
                          Hash (ToState t) = s') ts)).

Lemma count_snoc {A} (P : A → Prop) `{∀ x, Decision (P x)} (l : list A) x :
  Z.of_nat (length (filter P (l ++ [x])))
  = Z.of_nat (length (filter P l)) + (if decide (P x) then 1 else 0).
Proof.
  rewrite filter_app, length_app, filter_cons, filter_nil.
  case_decide; simpl; lia.
Qed.

Lemma StateCounts_UpdateTransition mc transition :
  StateCounts (UpdateTransition mc transition)
  = <[Hash (FromState transition) :=
        default 0 (StateCounts mc !! Hash (FromState transition)) + 1]>
      (StateCounts mc).
Proof. reflexivity. Qed.

Lemma ActionCounts_UpdateTransition mc transition k :
  ActionCounts (UpdateTransition mc transition) !! k
  = if decide (Hash (FromState transition) = k)
    then
      let row := default ∅ (ActionCounts mc !! Hash (FromState transition)) in
      Some (<[Token (Act transition) :=
                default 0 (row !! Token (Act transition)) + 1]> row)
    else ActionCounts mc !! k.
Proof.
  unfold UpdateTransition; cbn [ActionCounts].
  rewrite !ensure_lookup_default.
  case_decide; subst; simplify_map_eq; [done|].
  rewrite ensure_lookup. by case_decide.
Qed.

Lemma TransitionCounts_UpdateTransition mc transition k :
  TransitionCounts (UpdateTransition mc transition) !! k
  = if decide (Hash (FromState transition) = k)
    then
      let row := default ∅ (TransitionCounts mc !! Hash (FromState transition)) in
      let cell := default ∅ (row !! Token (Act transition)) in
      Some (<[Token (Act transition) :=
                <[Hash (ToState transition) :=
                    default 0 (cell !! Hash (ToState transition)) + 1]> cell]>
              (ensure (Token (Act transition)) ∅ row))
    else TransitionCounts mc !! k.
Proof.
  unfold UpdateTransition; cbn [TransitionCounts].
  rewrite !ensure_lookup_default.
  case_decide; subst; simplify_map_eq; [done|].
  rewrite ensure_lookup. by case_decide.
Qed.

(** X8.  In a chain built from [NewMarkovChain] the three count tables are
    true counts: of the updates made from a state, of those made from it
    with an action, and of those that led with that action to a given next
    state; what was never seen counts 0. *)
Theorem counts_are_counts (ts : list Transition) (s a s' : string) :
  let mc := foldl UpdateTransition NewMarkovChain ts in
  default 0 (StateCounts mc !! s) = fromCount s ts ∧
  default 0 (default ∅ (ActionCounts mc !! s) !! a) = actionCount s a ts ∧
  default 0 (default ∅ (default ∅ (TransitionCounts mc !! s) !! a) !! s')
  = transitionCount s a s' ts.
Proof.
  cbv zeta. unfold fromCount, actionCount, transitionCount.
  induction ts as [|t ts (IH1 & IH2 & IH3)] using rev_ind.
  - simpl. by rewrite !lookup_empty.
  - rewrite foldl_snoc, !count_snoc.
    set (mc := foldl UpdateTransition NewMarkovChain ts) in *.
    rewrite StateCounts_UpdateTransition, ActionCounts_UpdateTransition,
      TransitionCounts_UpdateTransition.
    destruct (decide (Hash (FromState t) = s)) as [<-|Hs].
    + rewrite lookup_insert_eq; cbn [default from_option id].
      split; [lia|].
      destruct (decide (Token (Act t) = a)) as [<-|Ha].
      * rewrite !lookup_insert_eq; cbn [default from_option id].
        rewrite decide_True by done. split; [lia|].
        destruct (decide (Hash (ToState t) = s')) as [<-|Hs'].
        -- rewrite lookup_insert_eq; cbn [default from_option id].
           rewrite decide_True by done. lia.
        -- rewrite lookup_insert_ne by done.
           rewrite decide_False by (by intros (_ & _ & ?)). lia.
      * rewrite !lookup_insert_ne by done.
        rewrite ensure_lookup, (decide_False (P := Token (Act t) = a)) by done.
        rewrite decide_False by (by intros [_ ?]).
        rewrite decide_False by (by intros (_ & ? & _)). lia.
    + rewrite lookup_insert_ne by done.
      rewrite decide_False by (by intros [? _]).
      rewrite decide_False by (by intros (? & _ & _)). lia.
Qed.

(** *** The actions known for a state *)

(** The tokens tried from a state, in the order of the updates. *)
Definition tokensFrom (s : string) (ts : list Transition) : list string :=
  (λ t, Token (Act t)) <$> filter (λ t, Hash (FromState t) = s) ts.

(** A list without its repetitions, every element at its first place. *)
Definition firstSeen (l : list string) : list string :=
  reverse (remove_dups (reverse l)).

Lemma firstSeen_snoc (l : list string) (a : string) :
  firstSeen (l ++ [a])
  = if decide (a ∈ l) then firstSeen l else firstSeen l ++ [a].
Proof.
  unfold firstSeen. rewrite reverse_snoc. cbn [remove_dups].
  destruct (decide_rel elem_of a (reverse l)) as [Hin|Hin];
    rewrite elem_of_reverse in Hin.
  - by rewrite decide_True.
  - by rewrite decide_False, reverse_cons.
Qed.

Lemma elem_of_firstSeen (l : list string) (a : string) :
  a ∈ firstSeen l ↔ a ∈ l.
Proof.
  unfold firstSeen. by rewrite elem_of_reverse, elem_of_remove_dups,
    elem_of_reverse.
Qed.

Lemma NoDup_firstSeen (l : list string) : NoDup (firstSeen l).
Proof.
  unfold firstSeen. rewrite reverse_Permutation. apply NoDup_remove_dups.
Qed.

Lemma tokensFrom_snoc s ts t :
  tokensFrom s (ts ++ [t])
  = tokensFrom s ts
    ++ (if decide (Hash (FromState t) = s) then [Token (Act t)] else []).
Proof.
  unfold tokensFrom. rewrite filter_app, fmap_app, filter_cons, filter_nil.
  by case_decide.
Qed.

Lemma AvailableActions_UpdateTransition mc transition :
  let known :=
    default [] (AvailableActions mc !! Hash (FromState transition)) in
  AvailableActions (UpdateTransition mc transition)
  = if containsString known (Token (Act transition)) then AvailableActions mc
    else <[Hash (FromState transition) := known ++ [Token (Act transition)]]>
           (AvailableActions mc).
Proof. reflexivity. Qed.

Lemma AvailableActions_run (ts : list Transition) (s : string) :
  default [] (AvailableActions (foldl UpdateTransition NewMarkovChain ts) !! s)
  = firstSeen (tokensFrom s ts).
Proof.
  induction ts as [|t ts IH] using rev_ind.
  - simpl. by rewrite lookup_empty.
  - rewrite foldl_snoc, tokensFrom_snoc.
    set (mc := foldl UpdateTransition NewMarkovChain ts) in *.
    rewrite AvailableActions_UpdateTransition. cbv zeta.
    destruct (decide (Hash (FromState t) = s)) as [<-|Hs].
    + rewrite firstSeen_snoc, <-IH.
      destruct (containsString _ _) eqn:E.
      * apply Is_true_true, containsString_elem_of in E.
        rewrite IH, elem_of_firstSeen in E. by rewrite decide_True.
      * apply Is_true_false_2 in E.
        rewrite containsString_elem_of in E.
        rewrite IH, elem_of_firstSeen in E.
        rewrite decide_False by done. by rewrite lookup_insert_eq, IH.
    + rewrite app_nil_r, <-IH.
      destruct (containsString _ _); [done|].
      by rewrite lookup_insert_ne.
Qed.

Lemma QTable_run_keys (ts : list Transition) (s a : string) :
  is_Some (default ∅ (QTable (foldl UpdateTransition NewMarkovChain ts) !! s)
             !! a)
  ↔ a ∈ tokensFrom s ts.
Proof.
  induction ts as [|t ts IH] using rev_ind.
  - simpl. rewrite !lookup_empty. unfold tokensFrom. simpl.
    split; [by intros [? ?] | by intros ?%elem_of_nil].
  - rewrite foldl_snoc, tokensFrom_snoc, QTable_UpdateTransition.
    rewrite elem_of_app, <-IH. case_decide as Hs.
    + subst s. cbn [default from_option id]. rewrite lookup_insert.
      case_decide as Ha.
      * subst a. split; [intros _; right; by apply list_elem_of_singleton|].
        by intros _.
      * split; [by left|]. intros [?|?%list_elem_of_singleton]; done.
    + split; [by left|]. by intros [?|?%elem_of_nil].
Qed.

(** X9.  In a chain built from [NewMarkovChain] the actions listed for a
    state are the tokens tried from it, each once, in the order in which
    they were first tried; they are exactly the actions that have a
    Q-value in that state. *)
Theorem AvailableActions_first_seen (ts : list Transition) (s : string) :
  let mc := foldl UpdateTransition NewMarkovChain ts in
  let known := default [] (AvailableActions mc !! s) in
  known = firstSeen (tokensFrom s ts) ∧
  NoDup known ∧
  (∀ a, a ∈ known ↔ a ∈ tokensFrom s ts) ∧
  (∀ a, a ∈ known ↔ is_Some (default ∅ (QTable mc !! s) !! a)).
Proof.
  intros mc known. subst known mc. rewrite AvailableActions_run.
  split; [done|]. split; [apply NoDup_firstSeen|]. split.
  - intros a. apply elem_of_firstSeen.
  - intros a. by rewrite elem_of_firstSeen, QTable_run_keys.
Qed.

End Bookkeeping.

(* ================================================================== *)
(** * The controller over a whole run                                  *)
(* ================================================================== *)

Section ControllerRun.
Import Go Feedback.
Context `{rt : Runtime}.

(** The states and the matched inputs that a sequence of calls records. *)
Definition recordedStates (calls : list Call) : list State :=
  omap (λ c, match c with
             | RecordResponse resp isMatch => Some (stateOf resp isMatch)
             | _ => None
             end) calls.

Definition recordedInputs (calls : list Call) : list Inputs :=
  omap (λ c, match c with
             | RecordMatchedInput input => Some input
             | _ => None
             end) calls.

(** The last [n] entries of a list. *)
Definition lastN {A} (n : nat) (l : list A) : list A := drop (length l - n) l.

Lemma lastN_length {A} (n : nat) (l : list A) :
  length (lastN n l) = (n `min` length l)%nat.
Proof. unfold lastN. rewrite length_drop. lia. Qed.

Lemma lastN_snoc {A} (n : nat) (l : list A) (x : A) :
  (0 < n)%nat →
  lastN n (l ++ [x])
  = (if decide (length (lastN n l) = n) then drop 1 (lastN n l) else lastN n l)
    ++ [x].
Proof.
  intros Hn. rewrite lastN_length. unfold lastN.
  rewrite length_app; simpl. case_decide as E.
  - rewrite drop_drop, drop_app_le by lia. do 2 f_equal. lia.
  - replace (length l + 1 - n)%nat with 0%nat by lia.
    by replace (length l - n)%nat with 0%nat by lia.
Qed.

Lemma controller_after_snoc seed calls c :
  controller_after seed (calls ++ [c]) = call (controller_after seed calls) c.
Proof. apply foldl_snoc. Qed.

Lemma recordedStates_snoc calls c :
  recordedStates (calls ++ [c])
  = recordedStates calls
    ++ match c with
       | RecordResponse resp isMatch => [stateOf resp isMatch]
       | _ => []
       end.
Proof. unfold recordedStates. rewrite omap_app. by destruct c. Qed.

Lemma recordedInputs_snoc calls c :
  recordedInputs (calls ++ [c])
  = recordedInputs calls
    ++ match c with
       | RecordMatchedInput input => [input]
       | _ => []
       end.
Proof. unfold recordedInputs. rewrite omap_app. by destruct c. Qed.

Lemma History_controller_after seed calls :
  History (chain (controller_after seed calls)) = recordedStates calls.
Proof.
  induction calls as [|c calls IH] using rev_ind; [done|].
  rewrite controller_after_snoc, recordedStates_snoc.
  destruct c as [resp isMatch|input|base]; cbn [call].
  - by rewrite chain_UpdateWithResponse, History_UpdateChain, IH.
  - by rewrite app_nil_r.
  - rewrite app_nil_r, <-IH.
    destruct (GetNextInput base _) as [[r fc']|] eqn:E; [|done].
    by apply framed_GetNextInput in E as (_ & _ & _ & _ & _ & _ & ?).
Qed.

Lemma windows_controller_after seed calls :
  responseHistory (controller_after seed calls)
  = lastN 100 (recordedStates calls) ∧
  matchedInputs (controller_after seed calls)
  = lastN 100 (recordedInputs calls).
Proof.
  induction calls as [|c calls [IHr IHm]] using rev_ind; [done|].
  pose proof (controller_inv_after seed calls) as Hinv.
  rewrite controller_after_snoc, recordedStates_snoc, recordedInputs_snoc.
  destruct c as [resp isMatch|input|base]; cbn [call].
  - rewrite responseHistory_UpdateWithResponse by done.
    rewrite lastN_snoc by lia. rewrite app_nil_r, <-IHr. done.
  - rewrite matchedInputs_UpdateWithMatchedInput by done.
    rewrite lastN_snoc by lia. rewrite app_nil_r, <-IHm. done.
  - rewrite !app_nil_r, <-IHr, <-IHm.
    destruct (GetNextInput base _) as [[r fc']|] eqn:E; [|done].
    by apply framed_GetNextInput in E as (-> & -> & _).
Qed.

(** X10.  After any sequence of calls the chain's history holds every
    recorded state, while the controller's response history is its last
    100 entries and the matched-input memory the last 100 matched inputs,
    both in the order of arrival. *)
Theorem buffers_are_sliding_windows (seed : Rand) (calls : list Call) :
  let fc := controller_after seed calls in
  History (chain fc) = recordedStates calls ∧
  responseHistory fc = lastN 100 (recordedStates calls) ∧
  matchedInputs fc = lastN 100 (recordedInputs calls).
Proof.
  cbv zeta. split; [apply History_controller_after|].
  apply windows_controller_after.
Qed.

(** *** Probabilities *)

Lemma ratio_in_unit (c t : Z) :
  0 ≤ c ≤ t → (0 <= float64 c / float64 t <= 1)%Q.
Proof.
  intros Hc. unfold float64, Qdiv, Qle, Qmult, Qinv. destruct t as [|p|p].
  - assert (c = 0) as -> by lia. done.
  - simpl. lia.
  - lia.
Qed.

Lemma GetTransitionProbability_chain_inv mc log fromState toState :
  chain_inv mc log →
  (0 <= GetTransitionProbability mc fromState toState <= 1)%Q ∧
  (outgoing (State_String fromState) log = 0 →
   (GetTransitionProbability mc fromState toState == 0)%Q).
Proof.
  intros (Hocc & Hout & Htr).
  specialize (Hocc (State_String fromState) (State_String toState)).
  specialize (Hout (State_String fromState)).
  pose proof (occurrences_le_outgoing (State_String fromState)
                (State_String toState) log) as Hle.
  unfold GetTransitionProbability. rewrite Htr.
  destruct (StateCounts mc !! State_String fromState) as [row|]; simpl in *;
    [|done].
  unfold frequencies. rewrite lookup_fmap.
  destruct (row !! State_String toState) as [c|]; simpl in *; [|done].
  split.
  - apply ratio_in_unit. lia.
  - intros E. assert (c = 0) as -> by lia. unfold float64, Qdiv. ring.
Qed.

(** X11.  After any sequence of [UpdateChain] and [UpdateTransition] calls
    on a new chain, every transition probability lies between 0 and 1. *)
Theorem transition_probability_in_unit (seed : Rand) (calls : list ChainCall)
    (fromState toState : State) :
  (0 <= GetTransitionProbability (chain_after seed calls) fromState toState
   <= 1)%Q.
Proof.
  by destruct (GetTransitionProbability_chain_inv _ _ fromState toState
                 (chain_inv_after seed calls)) as [? _].
Qed.

(** *** The transitions behind a history *)

(** The pairs of keys of neighbouring states. *)
Fixpoint transitionsOf (history : list State) : list (string * string) :=
  match history with
  | a :: rest =>
      match rest with
      | b :: _ => (State_String a, State_String b) :: transitionsOf rest
      | [] => []
      end
  | [] => []
  end.

Lemma transitionsOf_snoc (history : list State) (s : State) :
  transitionsOf (history ++ [s])
  = transitionsOf history
    ++ match last history with
       | Some prev => [(State_String prev, State_String s)]
       | None => []
       end.
Proof.
  induction history as [|a [|b history] IH]; [done..|].
  change (transitionsOf ((a :: b :: history) ++ [s]))
    with ((State_String a, State_String b)
            :: transitionsOf ((b :: history) ++ [s])).
  rewrite IH. done.
Qed.

Lemma transitionsOf_fst (history : list State) (p : string * string) :
  p ∈ transitionsOf history →
  p.1 ∈ State_String <$> take (length history - 1) history.
Proof.
  induction history as [|a [|b history] IH]; [by intros ?%elem_of_nil..|].
  change (transitionsOf (a :: b :: history))
    with ((State_String a, State_String b) :: transitionsOf (b :: history)).
  replace (take (length (a :: b :: history) - 1) (a :: b :: history))
    with (a :: take (length (b :: history) - 1) (b :: history))
    by (simpl; by rewrite Nat.sub_0_r).
  rewrite fmap_cons. intros [->|Hp]%elem_of_cons.
  - by left.
  - right. by apply IH.
Qed.

Lemma outgoing_zero (key : string) (log : list (string * string)) :
  (∀ p, p ∈ log → p.1 ≠ key) → outgoing key log = 0.
Proof.
  unfold outgoing. induction log as [|p log IH]; intros Hlog; [done|].
  rewrite filter_cons, decide_False by (apply Hlog; by left).
  apply IH. intros q Hq. apply Hlog. by right.
Qed.

Lemma chain_inv_frame (mc mc' : MarkovChain) log :
  Transitions mc' = Transitions mc → StateCounts mc' = StateCounts mc →
  chain_inv mc log → chain_inv mc' log.
Proof. unfold chain_inv. by intros -> ->. Qed.

Lemma chain_inv_controller_after seed calls :
  chain_inv (chain (controller_after seed calls))
    (transitionsOf (recordedStates calls)).
Proof.
  induction calls as [|c calls IH] using rev_ind.
  - repeat split; intros; simpl; rewrite ?lookup_empty; done.
  - pose proof (History_controller_after seed calls) as EH.
    rewrite controller_after_snoc, recordedStates_snoc.
    destruct c as [resp isMatch|input|base]; cbn [call].
    + rewrite transitionsOf_snoc, chain_UpdateWithResponse.
      rewrite <-EH in IH |- *. unfold UpdateChain.
      destruct (last (History (chain (controller_after seed calls))))
        as [prev|].
      * refine (chain_inv_frame _ _ _ eq_refl eq_refl _).
        by apply chain_inv_UpdateTransition.
      * rewrite app_nil_r. exact (chain_inv_frame _ _ _ eq_refl eq_refl IH).
    + by rewrite app_nil_r.
    + rewrite app_nil_r.
      destruct (GetNextInput base _) as [[r fc']|] eqn:E; [|done].
      apply framed_GetNextInput in E as (_ & _ & _ & ET & EC & _).
      by eapply chain_inv_frame.
Qed.

Lemma matchProbability_zero_sum (fc : FeedbackController) (fromState : State) :
  (∀ h, (GetTransitionProbability (chain fc) fromState h == 0)%Q) →
  (getProbabilityOfMatchTransition fc fromState == 0)%Q.
Proof.
  intros Hzero. unfold getProbabilityOfMatchTransition.
  induction (responseHistory fc) as [|h l IH] using rev_ind; [done|].
  rewrite foldl_snoc. destruct (IsMatch h); [|done].
  rewrite IH, Hzero. ring.
Qed.

(** X12.  When the state recorded last has a key that no state recorded
    before it had, and it is not the only one, [GetNextInput] declines:
    no transition out of that key is on record, so the probability of a
    match comes out 0.0 and no draw falls below it. *)
Theorem no_feedback_after_new_state (seed : Rand) (calls : list Call)
    (base : Inputs) (earlier : list State) (previous : State) :
  recordedStates calls = earlier ++ [previous] →
  earlier ≠ [] →
  State_String previous ∉ State_String <$> earlier →
  ∃ fc', GetNextInput base (controller_after seed calls)
         = Ok ((None, false), fc').
Proof.
  intros Hrec Hne Hnew. set (fc := controller_after seed calls).
  destruct (decide (matchedInputs fc = [])) as [Hm|Hm].
  { exists fc. unfold GetNextInput, bind, get, ret. by rewrite Hm. }
  assert (0 < length (matchedInputs fc))%nat as Hlen
    by (destruct (matchedInputs fc); [done | simpl; lia]).
  destruct (windows_controller_after seed calls) as [Hhist _].
  fold fc in Hhist.
  assert (2 ≤ length (responseHistory fc))%nat as Hlong.
  { rewrite Hhist, lastN_length, Hrec, length_app.
    change (length [previous]) with 1%nat.
    assert (0 < length earlier)%nat by (destruct earlier; [done | simpl; lia]).
    lia. }
  assert (responseHistory fc !! (length (responseHistory fc) - 1)%nat
          = Some previous) as Hprev.
  { replace (length (responseHistory fc) - 1)%nat
      with (pred (length (responseHistory fc))) by lia.
    rewrite <-last_lookup, Hhist, Hrec, lastN_snoc by lia.
    apply last_snoc. }
  assert (outgoing (State_String previous)
            (transitionsOf (recordedStates calls)) = 0) as Hout.
  { apply outgoing_zero. intros p Hp%transitionsOf_fst.
    rewrite Hrec, length_app in Hp; simpl in Hp.
    replace (length earlier + 1 - 1)%nat with (length earlier) in Hp by lia.
    rewrite take_app_length in Hp. congruence. }
  assert (getProbabilityOfMatchTransition fc previous == 0)%Q as Hzero.
  { apply matchProbability_zero_sum. intros h.
    by apply (GetTransitionProbability_chain_inv _ _ previous h
                (chain_inv_controller_after seed calls)). }
  exists (after_draw fc). unfold GetNextInput.
  rewrite (bind_Ok _ _ fc fc fc) by done.
  rewrite decide_True by lia.
  assert (shouldUseMatchedInput fc = Ok (false, after_draw fc)) as Huse.
  { unfold shouldUseMatchedInput.
    rewrite (bind_Ok _ _ fc fc fc) by done.
    rewrite decide_False by lia.
    rewrite (bind_Ok _ _ fc previous fc).
    2:{ unfold index. rewrite decide_True by lia.
        replace (Z.to_nat (Z.of_nat (length (responseHistory fc)) - 1))
          with (length (responseHistory fc) - 1)%nat by lia.
        by rewrite Hprev. }
    rewrite (bind_Ok _ _ _ _ _ (draw_eq fc)). unfold ret. do 2 f_equal.
    apply Qltb_ge. pose proof (Float64_range (rand (chain fc))) as [Hu _].
    rewrite Hzero. lra. }
  by rewrite (bind_Ok _ _ _ _ _ Huse).
Qed.

End ControllerRun.

Lemma no_feedback_after_new_state_witness :
  ∃ fc',
    Feedback.GetNextInput None
      (controller_after seed0
         [RecordResponse response_200 true; RecordMatchedInput (fuzz_input 1);
          RecordResponse response_404 false])
    = Go.Ok ((None, false), fc').
Proof.
  apply (no_feedback_after_new_state seed0
           [RecordResponse response_200 true; RecordMatchedInput (fuzz_input 1);
            RecordResponse response_404 false]
           None [stateOf response_200 true] (stateOf response_404 false)).
  - reflexivity.
  - discriminate.
  - intros E%list_elem_of_singleton. vm_compute in E. discriminate E.
Defined.

(** ** Drawing the next state *)

Section NextState.
Context `{rt : Go.Runtime}.
Import Go Feedback.

(** Every count on record is positive. *)
Definition counts_positive (mc : MarkovChain) : Prop :=
  ∀ s row t c, StateCounts mc !! s = Some row → row !! t = Some c → 0 < c.

Lemma StateCounts_updateProbabilities mc k :
  StateCounts (updateProbabilities mc k) = StateCounts mc.
Proof. unfold updateProbabilities. by case_decide. Qed.

Lemma counts_positive_UpdateTransition mc a b :
  counts_positive mc → counts_positive (UpdateTransition mc a b).
Proof.
  intros Hpos s row t c. unfold UpdateTransition.
  rewrite StateCounts_updateProbabilities; simpl.
  destruct (decide (State_String a = s)) as [<-|Hs].
  - rewrite lookup_insert_eq. intros [= <-].
    destruct (decide (State_String b = t)) as [<-|Ht].
    + rewrite lookup_insert_eq. intros [= <-].
      destruct (StateCounts mc !! State_String a) as [row|] eqn:Er; simpl.
      * destruct (row !! State_String b) as [c|] eqn:Ec; simpl; [|lia].
        specialize (Hpos _ _ _ _ Er Ec). lia.
      * rewrite lookup_empty. simpl. lia.
    + rewrite lookup_insert_ne by done.
      destruct (StateCounts mc !! State_String a) as [row|] eqn:Er; simpl.
      * intros Ec. by apply (Hpos _ _ _ _ Er Ec).
      * by rewrite lookup_empty.
  - rewrite lookup_insert_ne by done. apply Hpos.
Qed.

Lemma counts_positive_after seed calls :
  counts_positive (chain_after seed calls).
Proof.
  unfold chain_after. induction calls as [|c calls IH] using rev_ind.
  - intros s row t c. simpl. by rewrite lookup_empty.
  - rewrite foldl_snoc. destruct c as [s|a b]; cbn [chain_call].
    + unfold UpdateChain. destruct (last _) as [prev|].
      * by apply (counts_positive_UpdateTransition _ prev s) in IH.
      * done.
    + by apply counts_positive_UpdateTransition.
Qed.

Lemma occurrences_elem_of from to log :
  0 < occurrences from to log → (from, to) ∈ log.
Proof.
  unfold occurrences. intros Hocc.
  destruct (filter (λ p, p = (from, to)) log) as [|p l] eqn:E;
    [simpl in Hocc; lia|].
  assert (p ∈ filter (λ p, p = (from, to)) log) as Hp by (rewrite E; by left).
  by apply list_elem_of_filter in Hp as [-> ?].
Qed.

(** The loop over the cumulative probabilities stops, if at all, at the
    key of an entry. *)
Lemma scan_key (randVal : Q) (entries : list (string * Q)) (acc : Q)
    (next : State) :
  (foldl (λ acc kv,
            match acc.2 with
            | Some _ => acc
            | None =>
                let cumulative := (acc.1 + kv.2)%Q in
                if Qle_bool randVal cumulative
                then (cumulative, Some (StringToState kv.1))
                else (cumulative, None)
            end)
         (acc, None) entries).2 = Some next →
  ∃ kv, kv ∈ entries ∧ next = StringToState kv.1.
Proof.
  induction entries as [|kv entries IH] using rev_ind; [done|].
  rewrite foldl_snoc.
  destruct (foldl _ (acc, None) entries) as [cumulative [found|]] eqn:E;
    cbn [snd fst].
  - intros [= ->]. destruct IH as (kv' & Hin & ->); [done|].
    exists kv'. split; [|done]. apply elem_of_app. by left.
  - cbv zeta. destruct (Qle_bool _ _); [|done]. intros [= <-].
    exists kv. split; [|done]. apply elem_of_app. right. by left.
Qed.

Lemma range_key `{Countable K} {V} (again : Runtime) (m : gmap K V) kv :
  kv ∈ @range again _ _ _ _ m → m !! kv.1 = Some kv.2.
Proof.
  rewrite (range_perm (Runtime := again)). destruct kv as [k v].
  apply elem_of_map_to_list.
Qed.

(** X13.  On a chain built by [UpdateChain] and [UpdateTransition] calls,
    [GetNextState] returns the current state, and leaves the chain as it
    is, when no transition out of the current state's key is on record;
    otherwise it draws once and returns what [StringToState] reads from a
    key that was recorded as a successor of the current state's key,
    whatever order the loops run in.  Nothing but the generator changes. *)
Theorem GetNextState_recorded_successor (again : Runtime) (seed : Rand)
    (calls : list ChainCall) :
  let mc := @chain_after rt seed calls in
  let current := State_String (CurrentState mc) in
  let next := (@GetNextState again rt mc).1 in
  let mc' := (@GetNextState again rt mc).2 in
  (outgoing current (recorded calls) = 0 →
   next = CurrentState mc ∧ mc' = mc) ∧
  (0 < outgoing current (recorded calls) →
   (∃ key, (current, key) ∈ recorded calls ∧ next = StringToState key) ∧
   rand mc' = (Float64 (rand mc)).2) ∧
  Transitions mc' = Transitions mc ∧ StateCounts mc' = StateCounts mc ∧
  CurrentState mc' = CurrentState mc ∧ History mc' = History mc.
Proof.
  cbv zeta. set (mc := @chain_after rt seed calls).
  set (current := State_String (CurrentState mc)).
  destruct (@chain_inv_after rt seed calls) as (Hocc & Hout & Htr).
  pose proof (counts_positive_after seed calls) as Hpos.
  fold mc in Hocc, Hout, Htr, Hpos.
  specialize (Hout current). specialize (Htr current).
  unfold GetNextState. fold current.
  destruct (StateCounts mc !! current) as [row|] eqn:Erow;
    simpl in Hout, Htr; rewrite Htr; cbv beta iota.
  2:{ rewrite total_empty in Hout. repeat split; try done; lia. }
  assert (size (frequencies row) = size row) as ->
    by (unfold frequencies; apply map_size_fmap).
  case_decide as Esize.
  { apply map_size_empty_inv in Esize as ->. rewrite total_empty in Hout.
    repeat split; try done; lia. }
  assert (∀ kv, frequencies row !! kv.1 = Some kv.2 →
                (current, kv.1) ∈ recorded calls) as Hkey.
  { intros [k p]. unfold frequencies. rewrite lookup_fmap. simpl.
    destruct (row !! k) as [c|] eqn:Ec; [|done]. intros _.
    apply occurrences_elem_of. rewrite <-Hocc, Erow; simpl. rewrite Ec; simpl.
    exact (Hpos current row k c Erow Ec). }
  assert (0 < outgoing current (recorded calls)) as Hsome.
  { destruct (map_choose row) as (k & c & Ec).
    { intros ->. by rewrite map_size_empty in Esize. }
    specialize (Hpos current row k c Erow Ec). specialize (Hocc current k).
    rewrite Erow in Hocc; simpl in Hocc. rewrite Ec in Hocc; simpl in Hocc.
    pose proof (occurrences_le_outgoing current k (recorded calls)). lia. }
  destruct (Float64 (rand mc)) as [randVal r] eqn:Edraw.
  match goal with
  | |- context [foldl ?f ?a (@range rt _ _ _ _ ?m)] =>
      destruct (foldl f a (@range rt _ _ _ _ m))
        as [cumulative [found|]] eqn:Escan
  end; cbn [snd fst].
  - split; [lia|]. split; [|done]. intros _. split; [|done].
    destruct (scan_key randVal (@range rt _ _ _ _ (frequencies row)) 0 found)
      as (kv & Hin & ->); [exact (f_equal snd Escan)|].
    exists kv.1. split; [|done]. by apply Hkey, (range_key rt).
  - destruct (@range again _ _ _ _ (frequencies row)) as [|kv rest] eqn:Eagain.
    + exfalso. apply Esize.
      pose proof (range_perm (Runtime := again) _ _ (frequencies row)) as Hp.
      rewrite Eagain in Hp. apply Permutation_nil_l in Hp. symmetry in Hp.
      apply map_to_list_empty_iff in Hp.
      apply (f_equal size) in Hp. rewrite map_size_empty in Hp.
      unfold frequencies in Hp. by rewrite map_size_fmap in Hp.
    + split; [lia|]. split; [|done]. intros _. split; [|done].
      exists kv.1. split; [|done]. apply Hkey, (range_key again).
      rewrite Eagain. by left.
Qed.

End NextState.

(* ================================================================== *)
(** * The adapter's batch                                               *)
(* ================================================================== *)

Section Batching.
Context `{rt : Go.Runtime} {P : Type} `{prov : Provider.InputProvider P}.
Import Go Adapter.

Lemma range_nil {V} : range (∅ : gmap string V) = [].
Proof.
  apply Permutation_nil_r. rewrite range_perm. by rewrite map_to_list_empty.
Qed.

(** Copying a map into another overwrites the keys of the source and
    leaves the others. *)
Lemma copyInto_union (dst m : gmap string (list byte)) :
  copyInto dst (Some m) = m ∪ dst.
Proof.
  unfold copyInto. simpl. apply map_eq; intros k.
  pose proof (range_perm string (list byte) m) as Hperm.
  rewrite lookup_union. destruct (m !! k) as [v|] eqn:Ek.
  - pose proof (foldl_store_same id (range m) dst k v) as Hsame.
    unfold id in Hsame. rewrite Hsame.
    + by destruct (dst !! k).
    + rewrite Hperm. apply NoDup_fst_map_to_list.
    + rewrite Hperm. by apply elem_of_map_to_list.
  - pose proof (foldl_store_other id (range m) dst k) as Hother.
    unfold id in Hother. rewrite Hother.
    + by destruct (dst !! k).
    + rewrite Hperm. intros Hin.
      apply list_elem_of_fmap in Hin as ([k' v] & -> & Hin).
      apply elem_of_map_to_list in Hin. simpl in Ek. congruence.
Qed.

Lemma copyInto_nil (dst : gmap string (list byte)) : copyInto dst None = dst.
Proof. unfold copyInto. simpl. by rewrite range_nil. Qed.

Lemma copyInto_empty (src : option (gmap string (list byte))) :
  copyInto ∅ src = default ∅ src.
Proof.
  destruct src as [m|]; [|apply copyInto_nil].
  rewrite copyInto_union. apply (right_id_L ∅ (∪)).
Qed.

Lemma fill_length (room : nat) (p : P) (batch : list (gmap string (list byte))) :
  (length (fill room p batch).2 ≤ length batch + room)%nat.
Proof.
  revert p batch. induction room as [|room IH]; intros p batch; simpl; [lia|].
  destruct (Provider.Next p) as [[] p1]; simpl; [|lia].
  destruct (Provider.Value p1) as [v p2].
  etrans; [apply IH|]. rewrite length_app; simpl. lia.
Qed.

Lemma with_mutex_released (mip : MarkovInputProvider P) :
  mutex mip = false → with_mutex mip false = mip.
Proof. destruct mip; simpl. by intros ->. Qed.

(** X14.  [RefreshBatch] never returns when the mutex is held, and panics
    on an adapter without a provider.  Otherwise it returns with the mutex
    released, the index at 0, the provider reset, and a batch of at most
    [batchSize] inputs (none when [batchSize] is not positive); the
    learning state and the previous inputs stay as they were. *)
Theorem RefreshBatch_outcome (mip : MarkovInputProvider P) :
  (mutex mip = true → RefreshBatch mip = Blocks) ∧
  (mutex mip = false → OriginalProvider mip = None →
   RefreshBatch mip = Panics) ∧
  (mutex mip = false → ∀ p, OriginalProvider mip = Some p →
   ∃ p' batch,
     RefreshBatch mip
     = Returns (tt, {| OriginalProvider := Some (Provider.Reset p');
                       learner := learner mip;
                       previousInputs := previousInputs mip;
                       currentBatch := batch;
                       currentIndex := 0;
                       batchSize := batchSize mip;
                       mutex := false |}) ∧
     Z.of_nat (length batch) ≤ Z.max 0 (batchSize mip)).
Proof.
  unfold RefreshBatch, locked. split; [|split].
  - by intros ->.
  - intros -> Hp. simpl. by rewrite Hp.
  - intros -> p Hp. simpl. rewrite Hp.
    pose proof (fill_length (Z.to_nat (batchSize mip)) (Provider.Reset p) [])
      as Hlen.
    destruct (fill _ _ _) as [p' batch]. exists p', batch.
    split; [done|]. simpl in Hlen. lia.
Qed.

Lemma RefreshBatch_facts (mip refreshed : MarkovInputProvider P) :
  RefreshBatch mip = Returns (tt, refreshed) →
  mutex refreshed = false ∧ currentIndex refreshed = 0.
Proof.
  unfold RefreshBatch, locked. destruct (mutex mip); [done|]. simpl.
  destruct (OriginalProvider mip) as [p|]; [|done].
  destruct (fill _ _ _) as [p' batch]. by intros [= <-].
Qed.

Lemma RefreshBatch_held (mip : MarkovInputProvider P) :
  mutex mip = true → RefreshBatch mip = Blocks.
Proof. unfold RefreshBatch, locked. by intros ->. Qed.

Lemma Next_within (mip : MarkovInputProvider P) :
  mutex mip = false →
  currentIndex mip < Z.of_nat (length (currentBatch mip)) →
  Next mip = Returns (true, with_index mip (currentIndex mip + 1)).
Proof.
  intros Hm Hi. unfold Next, locked. rewrite Hm. simpl.
  rewrite decide_True by done. destruct mip; simpl in *. by subst.
Qed.

Lemma Next_beyond (mip : MarkovInputProvider P) :
  mutex mip = false →
  Z.of_nat (length (currentBatch mip)) ≤ currentIndex mip →
  Next mip = Blocks.
Proof.
  intros Hm Hi. unfold Next, locked. rewrite Hm.
  cbn [with_mutex currentIndex currentBatch].
  rewrite decide_False by lia. by rewrite RefreshBatch_held.
Qed.

(** X15.  [Next] never refills the batch.  While the index is short of the
    batch's length it moves the index on and returns true; once the batch
    is used up, or before there is one, it calls [RefreshBatch] with the
    mutex in its own hands and never returns, whatever the provider. *)
Theorem Next_never_refills (mip : MarkovInputProvider P) :
  mutex mip = false →
  Next mip
  = if decide (currentIndex mip < Z.of_nat (length (currentBatch mip)))
    then Returns (true, with_index mip (currentIndex mip + 1))
    else Blocks.
Proof.
  intros Hm. case_decide.
  - by apply Next_within.
  - apply Next_beyond; [done | lia].
Qed.

Lemma Value_within (mip : MarkovInputProvider P) (inputs : gmap string (list byte)) :
  mutex mip = false →
  0 < currentIndex mip →
  currentBatch mip !! Z.to_nat (currentIndex mip - 1) = Some inputs →
  Value mip
  = Returns (inputs, with_previous mip (inputs ∪ previousInputs mip)).
Proof.
  intros Hm Hi Hin. unfold Value, locked. rewrite Hm. simpl.
  apply lookup_lt_Some in Hin as Hlt.
  rewrite decide_True by lia. rewrite Hin, copyInto_union.
  destruct mip; simpl in *. by subst.
Qed.

(** X16.  [Value] on an index inside the batch returns the batch's entry
    before the index and writes it over [previousInputs]: the keys of the
    entry take its values, every other key keeps the value an earlier
    input left there.  Outside the batch the value is the provider's, or
    an empty map when the provider has none or is missing, and
    [previousInputs] stays as it is. *)
Theorem Value_records (mip : MarkovInputProvider P) :
  mutex mip = false →
  (∀ inputs,
     0 < currentIndex mip →
     currentBatch mip !! Z.to_nat (currentIndex mip - 1) = Some inputs →
     Value mip
     = Returns (inputs, with_previous mip (inputs ∪ previousInputs mip))) ∧
  (¬ (0 < currentIndex mip
      ∧ currentIndex mip ≤ Z.of_nat (length (currentBatch mip))) →
   Value mip
   = match OriginalProvider mip with
     | Some p =>
         Returns (default ∅ (Provider.Value p).1,
                  with_provider mip (Some (Provider.Value p).2))
     | None => Returns (∅, mip)
     end).
Proof.
  intros Hm. split.
  - intros inputs. by apply Value_within.
  - intros Hout. unfold Value, locked. rewrite Hm. simpl.
    rewrite decide_False by done.
    destruct mip as [[p|] ? ? ? ? ? ?]; simpl in *; subst; [|done].
    destruct (Provider.Value p) as [v p']; simpl.
    by rewrite copyInto_empty.
Qed.

(** The loop [for mip.Next() { ... mip.Value() ... }], run for [n] rounds:
    the values it sees. *)
Fixpoint drain (n : nat) (mip : MarkovInputProvider P)
  : outcome (list (gmap string (list byte)) * MarkovInputProvider P) :=
  match n with
  | O => Returns ([], mip)
  | S n =>
      match Next mip with
      | Returns (true, mip) =>
          match Value mip with
          | Returns (inputs, mip) =>
              match drain n mip with
              | Returns (rest, mip) => Returns (inputs :: rest, mip)
              | Panics => Panics
              | Blocks => Blocks
              end
          | Panics => Panics
          | Blocks => Blocks
          end
      | Returns (false, mip) => Returns ([], mip)
      | Panics => Panics
      | Blocks => Blocks
      end
  end.

Lemma drain_batch (n : nat) (mip : MarkovInputProvider P) :
  mutex mip = false →
  0 ≤ currentIndex mip →
  Z.of_nat n = Z.of_nat (length (currentBatch mip)) - currentIndex mip →
  ∃ previous,
    drain n mip
    = Returns (drop (Z.to_nat (currentIndex mip)) (currentBatch mip),
               with_previous
                 (with_index mip (Z.of_nat (length (currentBatch mip))))
                 previous).
Proof.
  revert mip. induction n as [|n IH]; intros mip Hm H0 Hn.
  - exists (previousInputs mip). simpl. rewrite drop_ge by lia.
    do 2 f_equal. destruct mip; unfold with_previous, with_index; simpl in *.
    f_equal. lia.
  - destruct (lookup_lt_is_Some_2 (currentBatch mip)
                (Z.to_nat (currentIndex mip))) as [inputs Hin]; [lia|].
    cbn [drain]. rewrite Next_within by (done || lia).
    rewrite (Value_within _ inputs); cbn [with_index currentIndex mutex
      currentBatch previousInputs]; [|done|lia|].
    2:{ by replace (Z.to_nat (currentIndex mip + 1 - 1))
          with (Z.to_nat (currentIndex mip)) by lia. }
    change (previousInputs (with_index mip (currentIndex mip + 1)))
      with (previousInputs mip).
    destruct (IH (with_previous (with_index mip (currentIndex mip + 1))
                    (inputs ∪ previousInputs mip)))
      as (previous & ->); [done | simpl; lia | simpl; lia |].
    exists previous. simpl.
    rewrite (drop_S _ inputs (Z.to_nat (currentIndex mip))) by done.
    by replace (Z.to_nat (currentIndex mip + 1))
      with (S (Z.to_nat (currentIndex mip))) by lia.
Qed.

(** X17.  After a refresh the loop over [Next] and [Value] sees exactly
    the inputs of the batch, in the batch's order, without touching the
    provider; the call of [Next] that follows the last of them never
    returns. *)
Theorem batch_served_once (mip refreshed : MarkovInputProvider P) :
  RefreshBatch mip = Returns (tt, refreshed) →
  ∃ previous,
    let served :=
      with_previous
        (with_index refreshed (Z.of_nat (length (currentBatch refreshed))))
        previous in
    drain (length (currentBatch refreshed)) refreshed
    = Returns (currentBatch refreshed, served) ∧
    Next served = Blocks.
Proof.
  intros Hrefresh.
  assert (mutex refreshed = false ∧ currentIndex refreshed = 0) as [Hm Hi].
  { destruct (RefreshBatch_facts mip refreshed Hrefresh) as [? ?]. done. }
  destruct (drain_batch (length (currentBatch refreshed)) refreshed)
    as (previous & Hdrain); [done | lia | lia |].
  exists previous. cbv zeta. split.
  - rewrite Hdrain, Hi. done.
  - apply Next_beyond; simpl; [done | lia].
Qed.

(** X18.  [Reset] and [SetPosition] pass the call on to the provider, if
    there is one, and drop the batch; [Reset] also forgets the previous
    inputs.  Neither touches what the chain has learned, and after either
    of them the next call of [Next] never returns. *)
Theorem Reset_drops_batch (mip : MarkovInputProvider P) (pos : Z) :
  mutex mip = false →
  let reset :=
    {| OriginalProvider := Provider.Reset <$> OriginalProvider mip;
       learner := learner mip;
       previousInputs := ∅;
       currentBatch := [];
       currentIndex := 0;
       batchSize := batchSize mip;
       mutex := false |} in
  let moved :=
    {| OriginalProvider :=
         (λ p, Provider.SetPosition p pos) <$> OriginalProvider mip;
       learner := learner mip;
       previousInputs := previousInputs mip;
       currentBatch := [];
       currentIndex := 0;
       batchSize := batchSize mip;
       mutex := false |} in
  Reset mip = Returns (tt, reset) ∧ Next reset = Blocks ∧
  SetPosition pos mip = Returns (tt, moved) ∧ Next moved = Blocks.
Proof.
  intros Hm. cbv zeta. split; [|split; [|split]].
  - unfold Reset, locked. rewrite Hm.
    by destruct mip as [[p|] ? ? ? ? ? ?].
  - by apply Next_beyond.
  - unfold SetPosition, locked. rewrite Hm.
    by destruct mip as [[p|] ? ? ? ? ? ?].
  - by apply Next_beyond.
Qed.

End Batching.

(** ** The batch over the provider of the tests *)

Section OverMock.
Context `{rt : Go.Runtime}.
Import Go Adapter.

Lemma fill_mock (room i : nat) (l batch : list (gmap string (list byte))) :
  ∃ j, fill room {| Mock.inputs := l; Mock.pos := Z.of_nat i |} batch
       = ({| Mock.inputs := l; Mock.pos := j |},
          batch ++ take room (drop (S i) l)).
Proof.
  revert i batch. induction room as [|room IH]; intros i batch.
  - exists (Z.of_nat i). simpl. by rewrite app_nil_r.
  - cbn [fill Provider.Next Provider.Value Mock.provider].
    unfold Mock.Next. cbn [Mock.pos Mock.inputs]. case_decide as Hi.
    + unfold Mock.Value. cbn [Mock.pos Mock.inputs].
      rewrite decide_False by lia.
      destruct (lookup_lt_is_Some_2 l (S i)) as [x Hx]; [lia|].
      replace (Z.to_nat (Z.of_nat i + 1)) with (S i) by lia.
      rewrite Hx, copyInto_empty. simpl.
      replace (Z.of_nat i + 1) with (Z.of_nat (S i)) by lia.
      destruct (IH (S i) (batch ++ [x])) as (j & ->). exists j.
      rewrite (drop_S _ x (S i)) by done.
      by rewrite <-app_assoc.
    + exists (Z.of_nat i). rewrite drop_ge by lia. simpl.
      by rewrite app_nil_r.
Qed.

(** X19.  Over the [MockInputProvider] of the tests a refresh collects
    the inputs from the second on, [batchSize] of them at most: it resets
    the provider and calls [Next] before it reads a value, so the first
    input never comes into a batch, and a provider with one input gives
    an empty batch. *)
Theorem RefreshBatch_skips_first
    (mip : MarkovInputProvider Mock.MockInputProvider)
    (m : Mock.MockInputProvider) :
  mutex mip = false →
  OriginalProvider mip = Some m →
  RefreshBatch mip
  = Returns (tt, {| OriginalProvider := Some (Mock.Reset m);
                    learner := learner mip;
                    previousInputs := previousInputs mip;
                    currentBatch :=
                      take (Z.to_nat (batchSize mip)) (drop 1 (Mock.inputs m));
                    currentIndex := 0;
                    batchSize := batchSize mip;
                    mutex := false |}).
Proof.
  intros Hm Hp. unfold RefreshBatch, locked. rewrite Hm.
  cbn [with_mutex OriginalProvider batchSize]. rewrite Hp.
  cbn [Provider.Reset Mock.provider].
  destruct (fill_mock (Z.to_nat (batchSize mip)) 0 (Mock.inputs m) [])
    as (j & Hfill).
  change {| Mock.inputs := Mock.inputs m; Mock.pos := Z.of_nat 0 |}
    with (Mock.Reset m) in Hfill.
  rewrite Hfill. done.
Qed.

End OverMock.

Definition words : Mock.MockInputProvider := {|
  Mock.inputs :=
    [ {[ "FUZZ"%string := list_byte_of_string "admin" ]};
      {[ "FUZZ"%string := list_byte_of_string "login" ]};
      {[ "FUZZ"%string := list_byte_of_string "backup" ]} ];
  Mock.pos := 0
|}.

Definition new_adapter : Adapter.MarkovInputProvider Mock.MockInputProvider :=
  Adapter.NewMarkovInputProvider (Some words) baseline404 "" 0.

Definition refreshed_adapter
  : Adapter.MarkovInputProvider Mock.MockInputProvider :=
  Adapter.with_batch new_adapter
    [ {[ "FUZZ"%string := list_byte_of_string "login" ]};
      {[ "FUZZ"%string := list_byte_of_string "backup" ]} ].

(** A new adapter has no batch: its first [Next] never returns. *)
Lemma Next_never_refills_witness : Adapter.Next new_adapter = Go.Blocks.
Proof. exact (Next_never_refills new_adapter eq_refl). Defined.

(** The adapter after a refresh, one [Next] and one [Value]. *)
Definition served_adapter
  : Adapter.MarkovInputProvider Mock.MockInputProvider :=
  Adapter.with_previous (Adapter.with_index refreshed_adapter 1)
    {[ "FUZZ"%string := list_byte_of_string "login" ]}.

(** The first [Value] after a refresh writes the first entry of the batch
    into the empty [previousInputs]; the second one overwrites it. *)
Lemma Value_records_witness :
  let first := Adapter.with_index refreshed_adapter 1 in
  let second := Adapter.with_index served_adapter 2 in
  Adapter.Value first
  = Go.Returns ({[ "FUZZ"%string := list_byte_of_string "login" ]},
                served_adapter) ∧
  Adapter.Value second
  = Go.Returns ({[ "FUZZ"%string := list_byte_of_string "backup" ]},
                Adapter.with_previous second
                  {[ "FUZZ"%string := list_byte_of_string "backup" ]}).
Proof.
  cbv zeta. split.
  - refine (eq_trans
              (proj1 (Value_records (Adapter.with_index refreshed_adapter 1)
                        eq_refl)
                 {[ "FUZZ"%string := list_byte_of_string "login" ]} _ _) _).
    + simpl. lia.
    + reflexivity.
    + vm_compute. reflexivity.
  - refine (eq_trans
              (proj1 (Value_records (Adapter.with_index served_adapter 2)
                        eq_refl)
                 {[ "FUZZ"%string := list_byte_of_string "backup" ]} _ _) _).
    + simpl. lia.
    + reflexivity.
    + vm_compute. reflexivity.
Defined.

(** [Reset] takes a served adapter back to the new one; [SetPosition]
    moves the provider, drops the batch and keeps the previous inputs.
    After either, [Next] never returns. *)
Lemma Reset_drops_batch_witness :
  let moved :=
    Adapter.with_provider
      (Adapter.with_previous new_adapter
         {[ "FUZZ"%string := list_byte_of_string "login" ]})
      (Some {| Mock.inputs := Mock.inputs words; Mock.pos := 2 |}) in
  Adapter.Reset served_adapter = Go.Returns (tt, new_adapter) ∧
  Adapter.Next new_adapter = Go.Blocks ∧
  Adapter.SetPosition 2 served_adapter = Go.Returns (tt, moved) ∧
  Adapter.Next moved = Go.Blocks.
Proof. exact (Reset_drops_batch served_adapter 2 eq_refl). Defined.

Lemma RefreshBatch_skips_first_witness :
  Adapter.RefreshBatch new_adapter = Go.Returns (tt, refreshed_adapter).
Proof.
  exact (RefreshBatch_skips_first new_adapter words eq_refl eq_refl).
Defined.

Lemma batch_served_once_witness :
  ∃ previous,
    let served :=
      Adapter.with_previous (Adapter.with_index refreshed_adapter 2) previous in
    drain 2 refreshed_adapter
    = Go.Returns (Adapter.currentBatch refreshed_adapter, served) ∧
    Adapter.Next served = Go.Blocks.
Proof.
  apply (batch_served_once new_adapter refreshed_adapter).
  vm_compute. reflexivity.
Defined.

(* ================================================================== *)
(** * Package ffuf: what the mutex lets through                         *)
(* ================================================================== *)

Section BehindTheMutex.
Context `{rt : Go.Runtime}.
Import Go.

(** X20.  In package ffuf a call of [UpdateTransition] never returns: it
    takes the chain's mutex and then calls [updateProbabilities], which
    takes it again.  [UpdateChain] goes through the variants without a
    lock: on a free mutex it returns with the mutex free again and with
    the chain that [UpdateChain] of package markov builds, and
    [GetTransitionProbability] then reads that chain. *)
Theorem ffuf_UpdateTransition_never_returns (mc : Ffuf.mMarkovChain)
    (currentState nextState newState fromState toState : Feedback.State) :
  Ffuf.UpdateTransition currentState nextState mc = Blocks ∧
  (Ffuf.mutex mc = Free →
   let updated :=
     {| Ffuf.fields := Feedback.UpdateChain (Ffuf.fields mc) newState;
        Ffuf.mutex := Free |} in
   Ffuf.UpdateChain newState mc = Returns (tt, updated) ∧
   Ffuf.GetTransitionProbability fromState toState updated
   = Returns (Feedback.GetTransitionProbability (Ffuf.fields updated)
                fromState toState, updated)).
Proof.
  split.
  - unfold Ffuf.UpdateTransition, Ffuf.locked.
    by destruct (Ffuf.mutex mc).
  - intros Hfree. cbv zeta. split; [|done].
    unfold Ffuf.UpdateChain, Ffuf.locked, Feedback.UpdateChain.
    rewrite Hfree. simpl.
    by destruct (last (Feedback.History (Ffuf.fields mc))).
Qed.

End BehindTheMutex.


(* ================================================================== *)
(** * The averages of the rollup                                       *)
(* ================================================================== *)

Section Averages.
Context `{rt : Go.Runtime}.
Import Go Feedback.

(** A field that leaves room for a hundred of its kind below 2^53, up to
    where every integer is a [float64]. *)
Definition moderate (z : Z) : Prop := - 2 ^ 46 ≤ z ≤ 2 ^ 46.

Lemma sumZ_snoc (l : list Z) (x : Z) : sumZ (l ++ [x]) = sumZ l + x.
Proof.
  unfold sumZ. induction l as [|y l IH]; simpl; [lia|]. rewrite IH. lia.
Qed.

Lemma sum_between {A} (f : A → Z) (l : list A) (lo hi : Z) :
  Forall (λ x, lo ≤ f x ≤ hi) l →
  lo * Z.of_nat (length l) ≤ sumZ (f <$> l) ≤ hi * Z.of_nat (length l).
Proof.
  induction l as [|x l IH] using rev_ind; intros Hall.
  - change (sumZ (f <$> [])) with 0. simpl length. lia.
  - apply Forall_app in Hall as [Hall Hx]. rewrite Forall_singleton in Hx.
    specialize (IH Hall).
    rewrite fmap_app. change (f <$> [x]) with [f x].
    rewrite sumZ_snoc, length_app. simpl length. lia.
Qed.

Lemma wrapped_sum {A} (f : A → Z) (l : list A) :
  (length l ≤ 100)%nat →
  Forall (λ x, moderate (f x)) l →
  foldl (λ acc x, wrap64 (acc + f x)) 0 l = sumZ (f <$> l).
Proof.
  unfold moderate.
  induction l as [|x l IH] using rev_ind; intros Hlen Hall; [done|].
  rewrite length_app in Hlen; simpl in Hlen.
  pose proof (sum_between f l _ _ (proj1 (proj1 (Forall_app _ _ _) Hall)))
    as Hsum.
  apply Forall_app in Hall as [Hall Hx]. rewrite Forall_singleton in Hx.
  rewrite foldl_snoc, IH by (done || lia).
  rewrite fmap_app. change (f <$> [x]) with [f x]. rewrite sumZ_snoc.
  apply wrap64_small. unfold in_int64. lia.
Qed.

Lemma totals_accumulate (history : list State) :
  let t := foldl accumulate totals0 history in
  totalStatusCodes t
  = foldl (λ acc s, wrap64 (acc + StatusCode s)) 0 history ∧
  totalContentLength t
  = foldl (λ acc s, wrap64 (acc + ContentLength s)) 0 history ∧
  totalContentWords t
  = foldl (λ acc s, wrap64 (acc + ContentWords s)) 0 history ∧
  totalContentLines t
  = foldl (λ acc s, wrap64 (acc + ContentLines s)) 0 history ∧
  totalDuration t
  = foldl (λ acc s, wrap64 (acc + Duration s)) 0 history.
Proof.
  induction history as [|s history IH] using rev_ind; [done|].
  cbv zeta in *. rewrite !foldl_snoc.
  destruct IH as (<- & <- & <- & <- & <-). done.
Qed.

(** A quotient of a sum by the number of its terms lies between bounds of
    the terms. *)
Lemma quotient_between (sum lo hi : Z) (n : nat) :
  n ≠ 0%nat →
  lo * Z.of_nat n ≤ sum ≤ hi * Z.of_nat n →
  (float64 lo <= float64 sum / float64 (Z.of_nat n) <= float64 hi)%Q.
Proof.
  intros Hn Hsum. unfold float64, Qdiv, Qinv, Qle, Qmult, inject_Z.
  destruct (Z.of_nat n) as [|k|k] eqn:Ek; [lia| |lia].
  simpl. rewrite !Z.mul_1_r, Pos.mul_1_l. lia.
Qed.

(** The averages of the rollup, each with the field it is taken of and
    the total that the loop keeps for it. *)
Definition averaged : list (string * (State → Z) * (Totals → Z)) :=
  [ ("avg_status_code"%string, StatusCode, totalStatusCodes);
    ("avg_content_length"%string, ContentLength, totalContentLength);
    ("avg_content_words"%string, ContentWords, totalContentWords);
    ("avg_content_lines"%string, ContentLines, totalContentLines);
    ("avg_duration_ns"%string, Duration, totalDuration) ].

(** X21.  After any sequence of calls, when no field of a state in the
    response history is beyond 2^46 in size, none of the five [int64]
    totals of the rollup wraps around: each is the sum of its field over
    the history and stays within 2^53, where its conversion to [float64]
    is exact.  The average reported for a field then lies between any
    two bounds of that field's values, its smallest and its largest value
    among them. *)
Theorem averages_within_range (seed : Rand) (calls : list Call) :
  let fc := controller_after seed calls in
  let history := responseHistory fc in
  history ≠ [] →
  Forall (λ s, moderate (StatusCode s) ∧ moderate (ContentLength s) ∧
               moderate (ContentWords s) ∧ moderate (ContentLines s) ∧
               moderate (Duration s)) history →
  ∀ key field total, (key, field, total) ∈ averaged →
    total (foldl accumulate totals0 history) = sumZ (field <$> history) ∧
    - 2 ^ 53 ≤ sumZ (field <$> history) ≤ 2 ^ 53 ∧
    ∃ average,
      AnalyzeResponsePatterns fc !! key = Some (VFloat average) ∧
      ∀ lo hi, Forall (λ s, lo ≤ field s ≤ hi) history →
               (float64 lo <= average <= float64 hi)%Q.
Proof.
  cbv zeta. intros Hne Hall key field total Hin.
  destruct (controller_inv_after seed calls) as (_ & _ & Hlen & _).
  set (history := responseHistory (controller_after seed calls)) in *.
  assert (length history ≠ 0%nat) as Hn by (by destruct history).
  assert (Forall (λ s, moderate (field s)) history ∧
          total (foldl accumulate totals0 history)
          = foldl (λ acc s, wrap64 (acc + field s)) 0 history ∧
          AnalyzeResponsePatterns (controller_after seed calls) !! key
          = Some (VFloat (float64 (total (foldl accumulate totals0 history))
                          / float64 (Z.of_nat (length history))))) as
    (Hfield & Etotal & Eavg).
  { destruct (totals_accumulate history) as (E1 & E2 & E3 & E4 & E5).
    cbv zeta in E1, E2, E3, E4, E5.
    unfold AnalyzeResponsePatterns. fold history.
    rewrite decide_False by done. cbv zeta.
    unfold averaged in Hin.
    repeat (apply elem_of_cons in Hin as [[= -> -> ->]|Hin];
            [split; [eapply Forall_impl; [exact Hall|]; simpl; tauto|];
             split; [done | by simplify_map_eq] |]).
    by apply elem_of_nil in Hin. }
  pose proof (wrapped_sum field history Hlen Hfield) as Esum.
  pose proof (sum_between field history _ _ Hfield) as Hsum.
  rewrite Etotal, Esum in *.
  split; [done|]. split; [lia|].
  eexists. split; [exact Eavg|].
  intros lo hi Hbounds. apply quotient_between; [done|].
  by apply sum_between.
Qed.

End Averages.

Lemma averages_within_range_witness :
  ∃ average,
    Feedback.AnalyzeResponsePatterns
      (controller_after seed0
         [RecordResponse response_200 true; RecordResponse response_404 false])
    !! "avg_status_code"%string
    = Some (Feedback.VFloat average) ∧
    (Go.float64 200 <= average <= Go.float64 404)%Q.
Proof.
  destruct (averages_within_range seed0
              [RecordResponse response_200 true;
               RecordResponse response_404 false])
    with (key := "avg_status_code"%string) (field := Feedback.StatusCode)
         (total := Feedback.totalStatusCodes)
    as (_ & _ & average & Eavg & Hrange).
  - discriminate.
  - change (Forall
              (λ s, moderate (Feedback.StatusCode s) ∧
                    moderate (Feedback.ContentLength s) ∧
                    moderate (Feedback.ContentWords s) ∧
                    moderate (Feedback.ContentLines s) ∧
                    moderate (Feedback.Duration s))
              [stateOf response_200 true; stateOf response_404 false]).
    unfold moderate. repeat constructor; simpl; lia.
  - unfold averaged. left.
  - exists average. split; [exact Eavg|].
    apply (Hrange 200 404).
    change (Forall (λ s, 200 ≤ Feedback.StatusCode s ≤ 404)
              [stateOf response_200 true; stateOf response_404 false]).
    repeat constructor; simpl; lia.
Defined.
